(** * The overlap store file codec of canu ([src/stores/ovStoreFile.C]) and
      the [bzipBuffer] byte stream

    A shallow embedding of [ovFile] (constructor, destructor, [writeBuffer],
    [writeOverlap], [writeOverlaps], [readBuffer], [readOverlap],
    [readOverlaps], [seekOverlap]) and of the inline members of
    [bzipBuffer], followed by the properties proved about them.  The name
    handling of the constructor and destructor ([_prefix], the name of the
    counts file) is modelled on its own, after the handle.

    The build modelled is the one without [SNAPPY] defined: every
    [#ifdef SNAPPY] block is compiled out, and a flush unit is the raw words.

    Conventions.
    - [uint32], [uint64] and [off_t] values are [Z]; the wrap-around of every
      arithmetic operation of the source is written with [u32] and [u64].
    - A C array is a [list Z] whose length is the allocated size; an access
      outside the allocation is the fault [BufferOverrun].
    - A member function that can fail returns a [result]: [Ok] with its
      outcome, or [Fault] saying how the call does not return normally. *)

From Stdlib Require Import ZArith Lia Bool Ascii.
From stdpp Require Import base list.

Local Open Scope Z_scope.

(** ** Machine integers *)

Definition u32 (x : Z) : Z := x mod 2 ^ 32.
Definition u64 (x : Z) : Z := x mod 2 ^ 64.

(** Reinterpretation of a 64-bit pattern as the signed [off_t]. *)
Definition s64 (x : Z) : Z :=
  let y := u64 x in if y <? 2 ^ 63 then y else y - 2 ^ 64.

Definition is_u32 (x : Z) : Prop := 0 <= x < 2 ^ 32.
Definition is_u64 (x : Z) : Prop := 0 <= x < 2 ^ 64.

(** ** Outcomes of a call *)

Inductive fault : Type :=
| AssertionFailure   (* an [assert] is violated *)
| ExitFailure        (* the code prints a message and calls [exit(1)] *)
| BufferOverrun      (* an array is indexed outside its allocation *)
| LoopDiverges.      (* a loop of the source never leaves *)

Inductive result (A : Type) : Type :=
| Ok (a : A)
| Fault (e : fault).
Arguments Ok {A} a.
Arguments Fault {A} e.

#[export] Instance result_ret : MRet result := fun _ a => Ok a.
#[export] Instance result_bind : MBind result := fun _ _ k m =>
  match m with
  | Ok a => k a
  | Fault e => Fault e
  end.

Definition assert (b : bool) : result unit :=
  if b then Ok tt else Fault AssertionFailure.

(** A loop whose body either continues with a new state ([inl]) or leaves
    with a value ([inr]), run for at most [p] rounds; the rounds are counted
    in binary so that a bound of [2 ^ 32] can be written and the evaluation
    still stops at the round that leaves. *)
Fixpoint loop_upto {A B : Type} (p : positive) (body : A -> A + B) (a : A)
  : A + B :=
  match p with
  | xH => body a
  | xO q =>
      match loop_upto q body a with
      | inl a' => loop_upto q body a'
      | inr b => inr b
      end
  | xI q =>
      match body a with
      | inl a' =>
          match loop_upto q body a' with
          | inl a'' => loop_upto q body a''
          | inr b => inr b
          end
      | inr b => inr b
      end
  end.

(** The same loop with its rounds counted in unary, for reasoning. *)
Fixpoint loop_nat {A B : Type} (n : nat) (body : A -> A + B) (a : A)
  : A + B :=
  match n with
  | O => inl a
  | S m =>
      match body a with
      | inl a' => loop_nat m body a'
      | inr b => inr b
      end
  end.

(** ** The payload variants

    [ovOverlapNWORDS], the payload word type and [ovOverlapDAT] are declared
    in [ovStore.H], a header outside the files modelled here. *)

Inductive ovOverlapVariant : Type :=
| NWORDS5    (* #if (ovOverlapNWORDS == 5): five 32-bit words *)
| NWORDS3    (* #elif (ovOverlapNWORDS == 3): three 64-bit words *)
| NWORDS8.   (* #elif (ovOverlapNWORDS == 8): eight 32-bit words *)

(** Modelled from the spec: the macro [ovOverlapNWORDS] of [ovStore.H]; the
    payload is 5 words of 32 bits, 3 words of 64 bits, or 8 words of 32
    bits. *)
Definition ovOverlapNWORDS (v : ovOverlapVariant) : nat :=
  match v with NWORDS5 => 5%nat | NWORDS3 => 3%nat | NWORDS8 => 8%nat end.

(** Modelled from the spec: the width in bits of one payload word. *)
Definition ovOverlapWORDSZ (v : ovOverlapVariant) : Z :=
  match v with NWORDS5 => 32 | NWORDS3 => 64 | NWORDS8 => 32 end.

(** Modelled from the spec: [sizeof(ovOverlapDAT)], the payload array of
    [ovOverlapNWORDS] words, in bytes. *)
Definition sizeof_ovOverlapDAT (v : ovOverlapVariant) : Z :=
  Z.of_nat (ovOverlapNWORDS v) * (ovOverlapWORDSZ v / 8).

Definition sizeof_uint32 : Z := 4.

(** Number of 32-bit words the payload takes on the wire. *)
Definition payload_wire_words (v : ovOverlapVariant) : Z :=
  match v with NWORDS5 => 5 | NWORDS3 => 6 | NWORDS8 => 8 end.

(** Width of one record on the wire, in 32-bit words: the normal variant
    has [b_iid] and the payload, the full variant has [a_iid] as well. *)
Definition record_words (v : ovOverlapVariant) (normal : bool) : Z :=
  (if normal then 1 else 2) + payload_wire_words v.

(** ** Records and files *)

Record ovOverlap : Type := mkOverlap {
  a_iid : Z;          (* uint32 *)
  b_iid : Z;          (* uint32 *)
  dat : list Z        (* dat.dat[ovOverlapNWORDS] *)
}.

Definition set_a_iid (x : Z) (o : ovOverlap) : ovOverlap :=
  mkOverlap x (b_iid o) (dat o).
Definition set_b_iid (x : Z) (o : ovOverlap) : ovOverlap :=
  mkOverlap (a_iid o) x (dat o).
Definition set_dat (i : nat) (x : Z) (o : ovOverlap) : ovOverlap :=
  mkOverlap (a_iid o) (b_iid o) (<[i := x]> (dat o)).

(** What the C++ types guarantee of an [ovOverlap]. *)
Definition wf_overlap (v : ovOverlapVariant) (o : ovOverlap) : Prop :=
  is_u32 (a_iid o) /\ is_u32 (b_iid o) /\
  length (dat o) = ovOverlapNWORDS v /\
  Forall (fun d => 0 <= d < 2 ^ ovOverlapWORDSZ v) (dat o).

Inductive ovFileType : Type :=
| ovFileNormal              (* reading of b_iid overlaps, store files *)
| ovFileNormalWrite         (* writing of b_iid overlaps *)
| ovFileFull                (* reading of a_iid+b_iid overlaps, dump files *)
| ovFileFullWrite           (* writing of a_iid+b_iid overlaps *)
| ovFileFullWriteNoCounts.  (* the same, without the counts file *)

Definition ovFileType_eqb (a b : ovFileType) : bool :=
  match a, b with
  | ovFileNormal, ovFileNormal
  | ovFileNormalWrite, ovFileNormalWrite
  | ovFileFull, ovFileFull
  | ovFileFullWrite, ovFileFullWrite
  | ovFileFullWriteNoCounts, ovFileFullWriteNoCounts => true
  | _, _ => false
  end.

(** The stream behind a handle: the uncompressed content as 32-bit words
    and the position in bytes.  Every position this program reaches is a
    multiple of 4. *)
Record FILE : Type := mkFILE {
  f_words : list Z;
  f_pos : Z
}.

(** The file a name refers to when a handle is opened: its (decompressed)
    content, and whether [compressedFileReader::isCompressed] answers true
    for it. *)
Record named_file : Type := mkNamed {
  n_words : list Z;
  n_isCompressed : bool
}.

(** Modelled from the spec: [AS_UTL_safeWrite] (a utility of canu, outside
    the files modelled here),
    the safe-write primitive; it appends [ws] to the stream. *)
Definition AS_UTL_safeWrite (fl : FILE) (ws : list Z) : FILE :=
  mkFILE (f_words fl ++ ws) (f_pos fl + sizeof_uint32 * Z.of_nat (length ws)).

(** Modelled from the spec: [AS_UTL_safeRead] (a utility of canu, outside
    the files modelled here);
    it reads up to [n] words at the position, returns the words actually
    read (fewer than [n] at end of file) and advances the position. *)
Definition AS_UTL_safeRead (fl : FILE) (n : Z) : list Z * FILE :=
  let got := take (Z.to_nat n) (drop (Z.to_nat (f_pos fl / sizeof_uint32)) (f_words fl)) in
  (got, mkFILE (f_words fl) (f_pos fl + sizeof_uint32 * Z.of_nat (length got))).

(** Modelled from the spec: [AS_UTL_fseek] with [SEEK_SET] (a utility of
    canu, outside the files modelled here); it repositions the stream to the byte offset, and a
    failed seek (here: a negative offset) is fatal. *)
Definition AS_UTL_fseek (fl : FILE) (off : Z) : result FILE :=
  if off <? 0 then Fault ExitFailure else Ok (mkFILE (f_words fl) off).

Record ovFile : Type := mkOvFile {
  _bufferLen : Z;
  _bufferPos : Z;
  _bufferMax : Z;
  _buffer : list Z;
  _olapsPerReadAlloc : Z;
  _olapsPerReadLast : Z;
  _olapsPerRead : option (list Z);   (* [None] is the NULL pointer *)
  _isOutput : bool;
  _isSeekable : bool;
  _isNormal : bool;
  _file : FILE
}.

Definition set_bufferLen (n : Z) (f : ovFile) : ovFile :=
  mkOvFile n (_bufferPos f) (_bufferMax f) (_buffer f)
           (_olapsPerReadAlloc f) (_olapsPerReadLast f) (_olapsPerRead f)
           (_isOutput f) (_isSeekable f) (_isNormal f) (_file f).
Definition set_bufferPos (n : Z) (f : ovFile) : ovFile :=
  mkOvFile (_bufferLen f) n (_bufferMax f) (_buffer f)
           (_olapsPerReadAlloc f) (_olapsPerReadLast f) (_olapsPerRead f)
           (_isOutput f) (_isSeekable f) (_isNormal f) (_file f).
Definition set_buffer (b : list Z) (f : ovFile) : ovFile :=
  mkOvFile (_bufferLen f) (_bufferPos f) (_bufferMax f) b
           (_olapsPerReadAlloc f) (_olapsPerReadLast f) (_olapsPerRead f)
           (_isOutput f) (_isSeekable f) (_isNormal f) (_file f).
Definition set_file (fl : FILE) (f : ovFile) : ovFile :=
  mkOvFile (_bufferLen f) (_bufferPos f) (_bufferMax f) (_buffer f)
           (_olapsPerReadAlloc f) (_olapsPerReadLast f) (_olapsPerRead f)
           (_isOutput f) (_isSeekable f) (_isNormal f) fl.
Definition set_olapsPerRead (alloc last : Z) (arr : option (list Z))
           (f : ovFile) : ovFile :=
  mkOvFile (_bufferLen f) (_bufferPos f) (_bufferMax f) (_buffer f)
           alloc last arr
           (_isOutput f) (_isSeekable f) (_isNormal f) (_file f).

(** A freshly allocated array of [n] words, all zero ([new uint32 [n]]
    followed by [memset]).  The word buffer is allocated without being
    cleared; no word of it is read before it has been written, and it is
    taken as zero as well. *)
Definition zeros (n : Z) : list Z := replicate (Z.to_nat n) 0.
Arguments zeros : simpl never.

(** Modelled from the spec: [resizeArray] with [resizeArray_copyData |
    resizeArray_clearNew] (a utility of canu, outside the files modelled
    here): growth preserves the
    first [arrayLen] entries and zero-fills the new slots; a request that is
    not larger than the allocation changes nothing. *)
Definition resizeArray (array : list Z) (arrayLen arrayMax newMax : Z)
  : list Z * Z :=
  if newMax <=? arrayMax then (array, arrayMax)
  else (take (Z.to_nat arrayLen) array ++ zeros (newMax - arrayLen),
        newMax).

(** [while (newmax <= newlast) newmax += newmax / 4;] on [uint32].  There
    are [2 ^ 32] values of [newmax], so a run of [2 ^ 32] rounds that has
    not left the loop has repeated one and never leaves. *)
Definition grow_step (newlast newmax : Z) : Z + Z :=
  if newmax <=? newlast then inl (u32 (newmax + newmax / 4)) else inr newmax.

Definition grow (newmax newlast : Z) : result Z :=
  match loop_upto (2 ^ 32)%positive (grow_step newlast) newmax with
  | inr m => Ok m
  | inl _ => Fault LoopDiverges
  end.

(** [array[i]++] on a [uint32] array. *)
Definition incr (i : Z) (array : list Z) : result (list Z) :=
  match array !! Z.to_nat i with
  | Some c => if 0 <=? i then Ok (<[Z.to_nat i := u32 (c + 1)]> array)
              else Fault BufferOverrun
  | None => Fault BufferOverrun
  end.

(** [_buffer[_bufferLen++] = x] *)
Definition push (x : Z) (f : ovFile) : result ovFile :=
  if (0 <=? _bufferLen f) && (_bufferLen f <? Z.of_nat (length (_buffer f)))
  then Ok (set_bufferLen (u32 (_bufferLen f + 1))
             (set_buffer (<[Z.to_nat (_bufferLen f) := u32 x]> (_buffer f)) f))
  else Fault BufferOverrun.

(** [_buffer[_bufferPos++]] *)
Definition pop (f : ovFile) : result (Z * ovFile) :=
  if (0 <=? _bufferPos f) && (_bufferPos f <? Z.of_nat (length (_buffer f)))
  then Ok (nth (Z.to_nat (_bufferPos f)) (_buffer f) 0,
           set_bufferPos (u32 (_bufferPos f + 1)) f)
  else Fault BufferOverrun.

(** [field = _buffer[_bufferPos++]], the field being set by [upd]. *)
Definition load (upd : Z -> ovOverlap -> ovOverlap) (s : ovOverlap * ovFile)
  : result (ovOverlap * ovFile) :=
  '(x, f) ← pop s.2; Ok (upd x s.1, f).

(** [dat.dat[i] <<= 32] and [dat.dat[i] |= x] on a 64-bit payload word. *)
Definition shl32_dat (i : nat) (o : ovOverlap) : ovOverlap :=
  set_dat i (u64 (Z.shiftl (nth i (dat o) 0) 32)) o.
Definition lor_dat (i : nat) (x : Z) (o : ovOverlap) : ovOverlap :=
  set_dat i (Z.lor (nth i (dat o) 0) x) o.

Section ovFile.

Variable v : ovOverlapVariant.

(** [ovFile::ovFile(name, type, bufferSize)], lines 53-152.  The copy of the
    name into [_prefix] only names the counts file and is left out. *)
Definition ovFile_ctor (name : named_file) (type : ovFileType)
           (bufferSize : Z) : result ovFile :=
  let lcm := u32 ((sizeof_uint32 * 1 + sizeof_ovOverlapDAT v) *
                  (sizeof_uint32 * 2 + sizeof_ovOverlapDAT v)) in
  let bufferSize := if bufferSize <? 16 * 1024 then 16 * 1024 else bufferSize in
  let bufferLen := 0 in
  let bufferPos := u32 (u64 (bufferSize / u64 (lcm * sizeof_uint32) * lcm)) in
  let bufferMax := u32 (u64 (bufferSize / u64 (lcm * sizeof_uint32) * lcm)) in
  let buffer := zeros bufferMax in
  _ ← assert (bufferMax mod (sizeof_uint32 * 1 + sizeof_ovOverlapDAT v) =? 0);
  _ ← assert (bufferMax mod (sizeof_uint32 * 2 + sizeof_ovOverlapDAT v) =? 0);
  let '(alloc, last, counts) :=
    if ovFileType_eqb type ovFileFullWrite
    then (128 * 1024, 0, Some (zeros (128 * 1024)))
    else (0, 0, None) in
  let isNormal := ovFileType_eqb type ovFileNormal
                  || ovFileType_eqb type ovFileNormalWrite in
  let '(file, isOutput, isSeekable) :=
    match type with
    | ovFileNormal | ovFileFull =>
        (mkFILE (n_words name) 0, false, negb (n_isCompressed name))
    | _ => (mkFILE [] 0, true, false)
    end in
  Ok (mkOvFile bufferLen bufferPos bufferMax buffer alloc last counts
               isOutput isSeekable isNormal file).

(** [ovFile::writeBuffer(force)], lines 193-230. *)
Definition writeBuffer (force : bool) (f : ovFile) : ovFile :=
  if negb (_isOutput f) then f
  else if negb force && (_bufferLen f <? _bufferMax f) then f
  else if _bufferLen f =? 0 then f
  else set_bufferLen 0
         (set_file (AS_UTL_safeWrite (_file f)
                      (take (Z.to_nat (_bufferLen f)) (_buffer f))) f).

(** [~ovFile()], lines 156-189, as far as the handle goes: the words the
    overlap stream holds when the writer is deleted and, for a handle with
    a count index, the words then sent to the stream opened as
    [<_prefix>.counts] (header word, then the entries).  The files these
    two streams are, one and the same file when the names coincide, are
    the matter of [ovFile_dtor_at]. *)
Definition ovFile_dtor (f : ovFile) : result (list Z * option (list Z)) :=
  let f := writeBuffer true f in
  match _olapsPerRead f with
  | None => Ok (f_words (_file f), None)
  | Some counts =>
      let last := u32 (_olapsPerReadLast f + 1) in
      if last <=? Z.of_nat (length counts)
      then Ok (f_words (_file f), Some (last :: take (Z.to_nat last) counts))
      else Fault BufferOverrun
  end.

(** The [if (_olapsPerRead) { ... }] block of [writeOverlap], lines
    241-257. *)
Definition count_overlap (overlap : ovOverlap) (f : ovFile) : result ovFile :=
  match _olapsPerRead f with
  | None => Ok f
  | Some counts =>
      let newmax := _olapsPerReadAlloc f in
      let newlast := _olapsPerReadLast f in
      let newlast := Z.max newlast (a_iid overlap) in
      let newlast := Z.max newlast (b_iid overlap) in
      newmax ← grow newmax newlast;
      let '(counts, alloc) :=
        resizeArray counts (u32 (_olapsPerReadLast f + 1))
                    (_olapsPerReadAlloc f) newmax in
      counts ← incr (a_iid overlap) counts;
      counts ← incr (b_iid overlap) counts;
      Ok (set_olapsPerRead alloc newlast (Some counts) f)
  end.

(** The encoding of one record, lines 259-288 (and 330-359): [a_iid] unless
    the handle is normal, [b_iid], then the [#if] branch of the payload. *)
Definition encode_overlap (overlap : ovOverlap) (f : ovFile) : result ovFile :=
  let d i := nth i (dat overlap) 0 in
  f ← (if negb (_isNormal f) then push (a_iid overlap) f else Ok f);
  f ← push (b_iid overlap) f;
  match v with
  | NWORDS5 =>
      f ← push (d 0%nat) f;
      f ← push (d 1%nat) f;
      f ← push (d 2%nat) f;
      f ← push (d 3%nat) f;
      push (d 4%nat) f
  | NWORDS3 =>
      f ← push (Z.land (Z.shiftr (d 0%nat) 32) 0xffffffff) f;
      f ← push (Z.land (Z.shiftr (d 0%nat) 0) 0xffffffff) f;
      f ← push (Z.land (Z.shiftr (d 1%nat) 32) 0xffffffff) f;
      f ← push (Z.land (Z.shiftr (d 1%nat) 0) 0xffffffff) f;
      f ← push (Z.land (Z.shiftr (d 2%nat) 32) 0xffffffff) f;
      push (Z.land (Z.shiftr (d 2%nat) 0) 0xffffffff) f
  | NWORDS8 =>
      f ← push (d 0%nat) f;
      f ← push (d 1%nat) f;
      f ← push (d 2%nat) f;
      f ← push (d 3%nat) f;
      f ← push (d 4%nat) f;
      f ← push (d 5%nat) f;
      f ← push (d 6%nat) f;
      push (d 7%nat) f
  end.

(** [ovFile::writeOverlap(overlap)], lines 234-291. *)
Definition writeOverlap (overlap : ovOverlap) (f : ovFile) : result ovFile :=
  _ ← assert (_isOutput f);
  let f := writeBuffer false f in
  f ← count_overlap overlap f;
  f ← encode_overlap overlap f;
  _ ← assert (_bufferLen f <=? _bufferMax f);
  Ok f.

(** The [for] loop of [writeOverlaps], lines 307-313, over the whole
    batch. *)
Fixpoint scan_batch (overlaps : list ovOverlap) (newmax newlast : Z)
  : result (Z * Z) :=
  match overlaps with
  | [] => Ok (newmax, newlast)
  | o :: rest =>
      let newlast := Z.max newlast (a_iid o) in
      let newlast := Z.max newlast (b_iid o) in
      newmax ← grow newmax newlast;
      scan_batch rest newmax newlast
  end.

(** The [while (nWritten < overlapsLen)] loop of [writeOverlaps], lines
    322-362. *)
Fixpoint writeOverlaps_loop (overlaps : list ovOverlap) (f : ovFile)
  : result ovFile :=
  match overlaps with
  | [] => Ok f
  | o :: rest =>
      let f := writeBuffer false f in
      f ← match _olapsPerRead f with
          | None => Ok f
          | Some counts =>
              counts ← incr (a_iid o) counts;
              counts ← incr (b_iid o) counts;
              Ok (set_olapsPerRead (_olapsPerReadAlloc f)
                                   (_olapsPerReadLast f) (Some counts) f)
          end;
      f ← encode_overlap o f;
      writeOverlaps_loop rest f
  end.

(** [ovFile::writeOverlaps(overlaps, overlapsLen)], lines 295-365; the array
    and its length are the list.  The index [oo] of the [for] loop is a
    [uint32] compared with the [uint64] length, so the loop never leaves
    when the length does not fit 32 bits. *)
Definition writeOverlaps (overlaps : list ovOverlap) (f : ovFile)
  : result ovFile :=
  _ ← assert (_isOutput f);
  f ← match _olapsPerRead f with
      | None => Ok f
      | Some counts =>
          if 2 ^ 32 <=? Z.of_nat (length overlaps) then Fault LoopDiverges
          else
            '(newmax, newlast) ←
              scan_batch overlaps (_olapsPerReadAlloc f) (_olapsPerReadLast f);
            let '(counts, alloc) :=
              resizeArray counts (u32 (_olapsPerReadLast f + 1))
                          (_olapsPerReadAlloc f) newmax in
            Ok (set_olapsPerRead alloc newlast (Some counts) f)
      end;
  f ← writeOverlaps_loop overlaps f;
  _ ← assert (_bufferLen f <=? _bufferMax f);
  Ok f.

(** [ovFile::readBuffer()], lines 369-411. *)
Definition readBuffer (f : ovFile) : ovFile :=
  if _bufferPos f <? _bufferLen f then f
  else
    let '(got, fl) := AS_UTL_safeRead (_file f) (_bufferMax f) in
    set_bufferLen (Z.of_nat (length got))
      (set_buffer (got ++ drop (length got) (_buffer f))
         (set_file fl (set_bufferPos 0 f))).

(** The decoding of one record, lines 427-456 (and 479-508). *)
Definition decode_overlap (s : ovOverlap * ovFile)
  : result (ovOverlap * ovFile) :=
  s ← (if negb (_isNormal s.2) then load set_a_iid s else Ok s);
  s ← load set_b_iid s;
  match v with
  | NWORDS5 =>
      s ← load (set_dat 0) s;
      s ← load (set_dat 1) s;
      s ← load (set_dat 2) s;
      s ← load (set_dat 3) s;
      load (set_dat 4) s
  | NWORDS3 =>
      s ← load (set_dat 0) s;  let s := (shl32_dat 0 s.1, s.2) in
      s ← load (lor_dat 0) s;
      s ← load (set_dat 1) s;  let s := (shl32_dat 1 s.1, s.2) in
      s ← load (lor_dat 1) s;
      s ← load (set_dat 2) s;  let s := (shl32_dat 2 s.1, s.2) in
      load (lor_dat 2) s
  | NWORDS8 =>
      s ← load (set_dat 0) s;
      s ← load (set_dat 1) s;
      s ← load (set_dat 2) s;
      s ← load (set_dat 3) s;
      s ← load (set_dat 4) s;
      s ← load (set_dat 5) s;
      s ← load (set_dat 6) s;
      load (set_dat 7) s
  end.

(** [ovFile::readOverlap(overlap)], lines 415-461: the boolean returned, the
    record the caller passed as it is afterwards, and the handle. *)
Definition readOverlap (overlap : ovOverlap) (f : ovFile)
  : result (bool * ovOverlap * ovFile) :=
  _ ← assert (negb (_isOutput f));
  let f := readBuffer f in
  if _bufferLen f =? 0 then Ok (false, overlap, f)
  else
    _ ← assert (_bufferPos f <? _bufferLen f);
    '(overlap, f) ← decode_overlap (overlap, f);
    _ ← assert (_bufferPos f <=? _bufferLen f);
    Ok (true, overlap, f).

(** The [while (nLoaded < overlapsLen)] loop of [readOverlaps], lines
    471-513, over the part of the array not yet filled: the array part as it
    is afterwards, the number of records loaded into it, and the handle. *)
Fixpoint readOverlaps_loop (overlaps : list ovOverlap) (f : ovFile)
  : result (list ovOverlap * Z * ovFile) :=
  match overlaps with
  | [] => Ok ([], 0, f)
  | o :: rest =>
      let f := readBuffer f in
      if _bufferLen f =? 0 then Ok (o :: rest, 0, f)
      else
        _ ← assert (_bufferPos f <? _bufferLen f);
        '(o, f) ← decode_overlap (o, f);
        _ ← assert (_bufferPos f <=? _bufferLen f);
        '(rest, n, f) ← readOverlaps_loop rest f;
        Ok (o :: rest, n + 1, f)
  end.

(** [ovFile::readOverlaps(overlaps, overlapsLen)], lines 465-516. *)
Definition readOverlaps (overlaps : list ovOverlap) (f : ovFile)
  : result (list ovOverlap * Z * ovFile) :=
  _ ← assert (negb (_isOutput f));
  readOverlaps_loop overlaps f.

(** Modelled from the spec: [ovFile::recordSize()] of [ovStore.H], the size
    of one record in bytes: one or two identifiers and the payload. *)
Definition recordSize (f : ovFile) : Z :=
  sizeof_uint32 * (if _isNormal f then 1 else 2) + sizeof_ovOverlapDAT v.

(** [ovFile::seekOverlap(overlap)], lines 520-531; [overlap] is an [off_t],
    the product with the [uint64] record size is taken on 64 bits. *)
Definition seekOverlap (overlap : Z) (f : ovFile) : result ovFile :=
  if negb (_isSeekable f) then Fault ExitFailure
  else
    fl ← AS_UTL_fseek (_file f) (s64 (u64 (u64 overlap * recordSize f)));
    Ok (set_bufferPos (_bufferLen f) (set_file fl f)).

End ovFile.

(** ** The decompressing byte stream [bzipBuffer]

    The class declaration and its inline members; [fillBuffer], the
    constructor, [seek] and [read] are defined in the implementation file of
    the class, outside the header modelled here, so [fillBuffer] is a
    parameter of the members that call it. *)

Module bzipBuffer.

Record t : Type := mk {
  _filePos : Z;            (* off_t *)
  _eof : bool;
  _bzip2outPos : Z;        (* uint32 *)
  avail_out : Z;           (* _bzip2stream.avail_out, unsigned int *)
  _bzip2out : list Z       (* the decode window, one [char] per entry *)
}.

Definition set_pos (filePos outPos : Z) (b : t) : t :=
  mk filePos (_eof b) outPos (avail_out b) (_bzip2out b).

Section members.

Variable fillBuffer : t -> t.

(** [bzipBuffer::eof()] *)
Definition eof (b : t) : bool := _eof b.

(** [bzipBuffer::next()]: the value returned and the stream afterwards. *)
Definition next (b : t) : bool * t :=
  if _eof b then (true, b)
  else
    let b := set_pos (_filePos b + 1) (u32 (_bzip2outPos b + 1)) b in
    let b := if avail_out b <=? _bzip2outPos b then fillBuffer b else b in
    (_eof b, b).

(** [bzipBuffer::get()]: [_bzip2out[_bzip2outPos]]. *)
Definition get (b : t) : result Z :=
  match _bzip2out b !! Z.to_nat (_bzip2outPos b) with
  | Some x => Ok x
  | None => Fault BufferOverrun
  end.

(** [bzipBuffer::getnext()] *)
Definition getnext (b : t) : result (Z * t) :=
  x ← get b; Ok (x, (next b).2).

(** [bzipBuffer::tell()] *)
Definition tell (b : t) : Z := _filePos b.

(** [n] calls of [next] in a row: the values returned, and the stream
    afterwards. *)
Fixpoint next_n (n : nat) (b : t) : list bool * t :=
  match n with
  | O => ([], b)
  | S m => let '(r, b1) := next b in
           let '(rs, b2) := next_n m b1 in (r :: rs, b2)
  end.

(** [n] calls of [getnext] in a row: the bytes returned, and the stream
    afterwards. *)
Fixpoint getnext_n (n : nat) (b : t) : result (list Z * t) :=
  match n with
  | O => Ok ([], b)
  | S m => '(x, b1) ← getnext b;
           '(xs, b2) ← getnext_n m b1; Ok (x :: xs, b2)
  end.

End members.

End bzipBuffer.

(** ** Vocabulary of the statements *)

(** The product the constructor calls [lcm]: the sizes in bytes of a normal
    and of a full record, multiplied; and the capacity it derives from it
    for a given [bufferSize]. *)
Definition record_bytes_product (v : ovOverlapVariant) : Z :=
  (sizeof_uint32 * 1 + sizeof_ovOverlapDAT v) *
  (sizeof_uint32 * 2 + sizeof_ovOverlapDAT v).

Definition capacity (v : ovOverlapVariant) (bufferSize : Z) : Z :=
  Z.max bufferSize (16 * 1024) / (record_bytes_product v * sizeof_uint32)
  * record_bytes_product v.

Definition is_write (type : ovFileType) : bool :=
  match type with ovFileNormal | ovFileFull => false | _ => true end.

Definition is_normal (type : ovFileType) : bool :=
  match type with ovFileNormal | ovFileNormalWrite => true | _ => false end.

(** The words one record puts on the wire, in order, before their storage
    in the [uint32] buffer. *)
Definition wire (v : ovOverlapVariant) (normal : bool) (o : ovOverlap)
  : list Z :=
  let d i := nth i (dat o) 0 in
  let hi x := Z.land (Z.shiftr x 32) 0xffffffff in
  let lo x := Z.land (Z.shiftr x 0) 0xffffffff in
  (if normal then [] else [a_iid o]) ++ [b_iid o] ++
  match v with
  | NWORDS5 => [d 0; d 1; d 2; d 3; d 4]%nat
  | NWORDS3 => [hi (d 0); lo (d 0); hi (d 1); lo (d 1); hi (d 2); lo (d 2)]%nat
  | NWORDS8 => [d 0; d 1; d 2; d 3; d 4; d 5; d 6; d 7]%nat
  end.

(** The content of a file that holds the records [rs]. *)
Definition wire_all (v : ovOverlapVariant) (normal : bool)
           (rs : list ovOverlap) : list Z :=
  concat (map (fun o => map u32 (wire v normal o)) rs).

(** [xs] pushed one after the other. *)
Fixpoint pushes (xs : list Z) (f : ovFile) : result ovFile :=
  match xs with
  | [] => Ok f
  | x :: rest => f ← push x f; pushes rest f
  end.

(** [n] words popped one after the other. *)
Fixpoint pops (n : nat) (f : ovFile) : result (list Z * ovFile) :=
  match n with
  | O => Ok ([], f)
  | S m => '(x, f) ← pop f; '(xs, f) ← pops m f; Ok (x :: xs, f)
  end.

(** The record a caller holds after the words [ws] of one record were
    decoded into its record [o]. *)
Definition decode_words (v : ovOverlapVariant) (normal : bool)
           (o : ovOverlap) (ws : list Z) : ovOverlap :=
  let o := if normal then o else set_a_iid (nth 0 ws 0) o in
  let ws := if normal then ws else drop 1 ws in
  let o := set_b_iid (nth 0 ws 0) o in
  let g i := nth (S i) ws 0 in
  let word64 i o :=
    lor_dat i (g (2 * i + 1)%nat) (shl32_dat i (set_dat i (g (2 * i)%nat) o)) in
  match v with
  | NWORDS5 =>
      set_dat 4 (g 4%nat) (set_dat 3 (g 3%nat) (set_dat 2 (g 2%nat)
        (set_dat 1 (g 1%nat) (set_dat 0 (g 0%nat) o))))
  | NWORDS3 => word64 2%nat (word64 1%nat (word64 0%nat o))
  | NWORDS8 =>
      set_dat 7 (g 7%nat) (set_dat 6 (g 6%nat) (set_dat 5 (g 5%nat)
        (set_dat 4 (g 4%nat) (set_dat 3 (g 3%nat) (set_dat 2 (g 2%nat)
          (set_dat 1 (g 1%nat) (set_dat 0 (g 0%nat) o)))))))
  end.

(** What a reader hands back for the written record [r] when the caller's
    record was [o]: the normal variant has no [a_iid] on the wire, so the
    caller's stays. *)
Definition merge (normal : bool) (o r : ovOverlap) : ovOverlap :=
  if normal then mkOverlap (a_iid o) (b_iid r) (dat r) else r.

(** Every word a write handle has emitted: the file, then the filled part
    of the buffer. *)
Definition emitted (f : ovFile) : list Z :=
  f_words (_file f) ++ take (Z.to_nat (_bufferLen f)) (_buffer f).

(** Every word a read handle has still to deliver: the unread part of the
    buffer, then the file from its position on. *)
Definition unread (f : ovFile) : list Z :=
  (if _bufferPos f <? _bufferLen f
   then drop (Z.to_nat (_bufferPos f)) (take (Z.to_nat (_bufferLen f)) (_buffer f))
   else [])
  ++ drop (Z.to_nat (f_pos (_file f) / sizeof_uint32)) (f_words (_file f)).

(** Largest identifier of the records [rs], starting from [m]; and the
    number of times [i] is a member of a pair of [rs]. *)
Definition max_id (m : Z) (rs : list ovOverlap) : Z :=
  fold_left (fun m o => Z.max (Z.max m (a_iid o)) (b_iid o)) rs m.

Fixpoint occurrences (i : Z) (rs : list ovOverlap) : Z :=
  match rs with
  | [] => 0
  | o :: rest =>
      (if a_iid o =? i then 1 else 0) + (if b_iid o =? i then 1 else 0)
      + occurrences i rest
  end.

(** The largest identifier for which the growth loop of the count index
    cannot wrap around: [x + x / 4] stays below [2 ^ 32] up to it. *)
Definition grow_safe_last : Z := 3435973836.

(** The facts about the word buffer every handle keeps, for a record width
    of [w] words. *)
Definition buffer_ok (w : Z) (f : ovFile) : Prop :=
  Z.of_nat (length (_buffer f)) = _bufferMax f /\
  0 < _bufferMax f < 2 ^ 32 /\ (w | _bufferMax f) /\
  0 <= _bufferLen f <= _bufferMax f.

(** The count index after the records [rs] were counted. *)
Definition counts_ok (rs : list ovOverlap) (f : ovFile) : Prop :=
  match _olapsPerRead f with
  | None => True
  | Some counts =>
      Z.of_nat (length counts) = _olapsPerReadAlloc f /\
      4 <= _olapsPerReadAlloc f < 2 ^ 32 /\
      0 <= _olapsPerReadLast f < _olapsPerReadAlloc f /\
      max_id 0 rs <= _olapsPerReadLast f /\
      forall (i : nat) (c : Z),
        counts !! i = Some c -> c = u32 (occurrences (Z.of_nat i) rs)
  end.

(** A write handle that has been given the records [rs]. *)
Definition writer_ok (v : ovOverlapVariant) (rs : list ovOverlap)
           (f : ovFile) : Prop :=
  _isOutput f = true /\
  buffer_ok (record_words v (_isNormal f)) f /\
  (record_words v (_isNormal f) | _bufferLen f) /\
  emitted f = wire_all v (_isNormal f) rs /\
  counts_ok rs f /\
  (_olapsPerRead f <> None -> _olapsPerReadLast f = max_id 0 rs).

(** A read handle: when it has unread words in its buffer, its position
    is at the start of a record. *)
Definition reader_ok (v : ovOverlapVariant) (f : ovFile) : Prop :=
  _isOutput f = false /\
  buffer_ok (record_words v (_isNormal f)) f /\
  0 <= _bufferPos f /\
  (_bufferPos f < _bufferLen f ->
   (record_words v (_isNormal f) | _bufferPos f)) /\
  0 <= f_pos (_file f).

(** A read handle over whole records: the filled part of the buffer and
    the rest of the file each hold a whole number of records. *)
Definition stream_ok (v : ovOverlapVariant) (f : ovFile) : Prop :=
  (_bufferPos f < _bufferLen f ->
   (record_words v (_isNormal f) | _bufferLen f)) /\
  (record_words v (_isNormal f)
   | Z.of_nat (length (drop (Z.to_nat (f_pos (_file f) / sizeof_uint32))
                            (f_words (_file f))))).

(** The caller's array [ds] after the written records [rs] were read into
    it: the first records are filled, the others are as they were. *)
Definition merge_all (normal : bool) (ds rs : list ovOverlap)
  : list ovOverlap :=
  zip_with (merge normal) ds rs ++ drop (length rs) ds.

(** A read handle positioned past the last record. *)
Definition at_end_of_data (f : ovFile) : Prop := unread f = [].

(** The calls a writer's client makes, and their run on a handle. *)
Inductive write_call : Type :=
| WriteOne (o : ovOverlap)
| WriteBatch (os : list ovOverlap).

Definition records_of (c : write_call) : list ovOverlap :=
  match c with WriteOne o => [o] | WriteBatch os => os end.

Definition written (cs : list write_call) : list ovOverlap :=
  concat (map records_of cs).

Fixpoint write_calls (v : ovOverlapVariant) (cs : list write_call)
         (f : ovFile) : result ovFile :=
  match cs with
  | [] => Ok f
  | WriteOne o :: rest => f ← writeOverlap v o f; write_calls v rest f
  | WriteBatch os :: rest => f ← writeOverlaps v os f; write_calls v rest f
  end.

(** The handles a client can hold: made by the constructor and used through
    the public members. *)
Inductive reachable (v : ovOverlapVariant) : ovFile -> Prop :=
| reach_ctor name type bufferSize f :
    is_u32 bufferSize ->
    ovFile_ctor v name type bufferSize = Ok f -> reachable v f
| reach_writeOverlap f o f' :
    reachable v f -> wf_overlap v o ->
    writeOverlap v o f = Ok f' -> reachable v f'
| reach_writeOverlaps f os f' :
    reachable v f -> Forall (wf_overlap v) os ->
    writeOverlaps v os f = Ok f' -> reachable v f'
| reach_readOverlap f o b o' f' :
    reachable v f ->
    readOverlap v o f = Ok (b, o', f') -> reachable v f'
| reach_readOverlaps f os os' n f' :
    reachable v f ->
    readOverlaps v os f = Ok (os', n, f') -> reachable v f'
| reach_seekOverlap f k f' :
    reachable v f -> seekOverlap v k f = Ok f' -> reachable v f'.

(** A whole life of a write handle: opened, given the calls [cs], closed.
    What it has written: the words of the overlap stream and, for a handle
    with a count index, the words of the counts stream.  The files that
    hold them are named in [write_session_at]. *)
Definition write_session (v : ovOverlapVariant) (name : named_file)
           (type : ovFileType) (bufferSize : Z) (cs : list write_call)
  : result (list Z * option (list Z)) :=
  f ← ovFile_ctor v name type bufferSize;
  f ← write_calls v cs f;
  ovFile_dtor f.

(** A whole life of a read handle: opened on the words [ws], asked to fill
    the array [ds] by one call of [readOverlaps].  The array afterwards and
    the number of records loaded. *)
Definition read_session (v : ovOverlapVariant) (ws : list Z)
           (type : ovFileType) (bufferSize : Z) (ds : list ovOverlap)
  : result (list ovOverlap * Z) :=
  f ← ovFile_ctor v (mkNamed ws false) type bufferSize;
  '(ds, n, f) ← readOverlaps v ds f;
  Ok (ds, n).

(** Reading sequentially and discarding the first [k] records (into
    [tmp]), then reading one record into [o]. *)
Fixpoint skip_then_read (v : ovOverlapVariant) (k : nat) (tmp o : ovOverlap)
         (f : ovFile) : result (bool * ovOverlap * ovFile) :=
  match k with
  | O => readOverlap v o f
  | S k' =>
      '(b, tmp', f) ← readOverlap v tmp f;
      if (b : bool) then skip_then_read v k' tmp o f else Ok (false, o, f)
  end.

(** The read type that reads what a write type has written. *)
Definition reader_of (type : ovFileType) : ovFileType :=
  if is_normal type then ovFileNormal else ovFileFull.

(** ** The name of the counts file

    Lines 145-151 of the constructor copy the name into [_prefix] and cut it
    at the first dot found at or after the last slash; line 171 of the
    destructor appends [.counts].  A C string is the list of its characters
    before the terminating NUL.  [_prefix] is an array of [FILENAME_MAX]
    characters declared in [ovStore.H]; names are taken to fit. *)

(** [strchr(s, c)]: the offset of the first [c] in [s], [None] for NULL. *)
Fixpoint strchr (s : list ascii) (c : ascii) : option nat :=
  match s with
  | [] => None
  | x :: rest => if Ascii.eqb x c then Some O else S <$> strchr rest c
  end.

(** [strrchr(s, c)]: the offset of the last [c] in [s]. *)
Fixpoint strrchr (s : list ascii) (c : ascii) : option nat :=
  match s with
  | [] => None
  | x :: rest =>
      match strrchr rest c with
      | Some i => Some (S i)
      | None => if Ascii.eqb x c then Some O else None
      end
  end.

(** The content of [_prefix] when the constructor is done. *)
Definition ovFile_prefix (name : list ascii) : list ascii :=
  let slash := strrchr name "/" in
  let from := match slash with None => O | Some i => i end in
  match strchr (drop from name) "." with
  | Some dot => take (from + dot) name
  | None => name
  end.

(** The name the destructor opens: [sprintf(name, "%s.counts", _prefix)]. *)
Definition counts_file_name (name : list ascii) : list ascii :=
  ovFile_prefix name ++ ["."; "c"; "o"; "u"; "n"; "t"; "s"]%char.

(** The characters of [s] before its first dot. *)
Fixpoint until_dot (s : list ascii) : list ascii :=
  match s with
  | [] => []
  | x :: rest => if Ascii.eqb x "." then [] else x :: until_dot rest
  end.

(** ** Files by name

    A handle reaches the file system by name twice.  The constructor opens
    [name], for reading (lines 110, 117) or for writing (lines 127, 134);
    the destructor of a handle with a count index, once the writer is
    deleted (line 161), opens [<_prefix>.counts] with mode ["w"] (lines
    171-174).  These are two files unless the overlap file itself is named
    [<_prefix>.counts]: there is one file then, and the counts replace the
    overlaps in it.  The file system is given by the content of every file
    that exists, an overlap file by its (decompressed) words; a file is
    known by its name, two names being two files (no links). *)

Definition files : Type := list ascii -> option (list Z).

#[local] Instance ascii_eq_decision : EqDecision ascii := ascii_dec.

(** Modelled from the spec: a file opened for writing ([fopen] with mode
    ["w"], or [compressedFileWriter], a utility of canu, outside the files
    modelled here), written and closed: the file [name] is created, or
    emptied if it exists, and holds the words [ws]. *)
Definition put_file (name : list ascii) (ws : list Z) (fs : files) : files :=
  fun q => if decide (q = name) then Some ws else fs q.

(** Modelled from the spec: what [compressedFileReader] and
    [compressedFileWriter] hand to the constructor.  A reader delivers the
    words of the file [name], and a failed open is fatal; a writer starts
    an empty file.  [compressed] is the answer of [isCompressed()], which
    depends on the extension of [name]. *)
Definition open_named (fs : files) (name : list ascii) (compressed : bool)
           (type : ovFileType) : result named_file :=
  if is_write type then Ok (mkNamed [] compressed)
  else match fs name with
       | Some ws => Ok (mkNamed ws compressed)
       | None => Fault ExitFailure
       end.

(** [ovFile::ovFile(name, type, bufferSize)] in the file system [fs]. *)
Definition ovFile_ctor_at (v : ovOverlapVariant) (fs : files)
           (name : list ascii) (compressed : bool) (type : ovFileType)
           (bufferSize : Z) : result ovFile :=
  file ← open_named fs name compressed type;
  ovFile_ctor v file type bufferSize.

(** [~ovFile()] in the file system, lines 156-189, for the handle [f] that
    was constructed on [name].  [_prefix] is what the constructor made of
    [name] (lines 145-151); no member changes it.  Deleting the writer
    leaves the overlap file [name] with the words written to it; then, for
    a handle with a count index, [<_prefix>.counts] is opened with mode
    ["w"] and receives the header and the counts.  The second write is the
    later one: when [<_prefix>.counts] is [name] itself, the file holds the
    counts and the overlaps are gone. *)
Definition ovFile_dtor_at (name : list ascii) (f : ovFile) (fs : files)
  : result files :=
  let _prefix := ovFile_prefix name in
  '(words, counts) ← ovFile_dtor f;
  let fs := if _isOutput f then put_file name words fs else fs in
  match counts with
  | None => Ok fs
  | Some counts =>
      Ok (put_file (_prefix ++ ["."; "c"; "o"; "u"; "n"; "t"; "s"]%char)
                   counts fs)
  end.

(** A whole life of a write handle on the file [name]: constructed, given
    the calls [cs], destroyed.  The file system afterwards. *)
Definition write_session_at (v : ovOverlapVariant) (fs : files)
           (name : list ascii) (compressed : bool) (type : ovFileType)
           (bufferSize : Z) (cs : list write_call) : result files :=
  f ← ovFile_ctor_at v fs name compressed type bufferSize;
  f ← write_calls v cs f;
  ovFile_dtor_at name f fs.

(** A whole life of a read handle on the file [name]: constructed, asked to
    fill the array [ds] by one call of [readOverlaps].  The array
    afterwards and the number of records loaded. *)
Definition read_session_at (v : ovOverlapVariant) (fs : files)
           (name : list ascii) (compressed : bool) (type : ovFileType)
           (bufferSize : Z) (ds : list ovOverlap)
  : result (list ovOverlap * Z) :=
  f ← ovFile_ctor_at v fs name compressed type bufferSize;
  '(ds, n, f) ← readOverlaps v ds f;
  Ok (ds, n).

(** The file system after a write session that was given the records [rs]:
    the overlap file, then the counts file of a handle with a count index. *)
Definition files_written (v : ovOverlapVariant) (fs : files)
           (name : list ascii) (type : ovFileType) (rs : list ovOverlap)
  : files :=
  let fs := put_file name (wire_all v (is_normal type) rs) fs in
  if ovFileType_eqb type ovFileFullWrite
  then put_file (counts_file_name name)
         (max_id 0 rs + 1 ::
          map (fun i => u32 (occurrences i rs)) (seqZ 0 (max_id 0 rs + 1)))
         fs
  else fs.

(** * Properties *)

(** ** Integers, the result monad and the bounded loop *)

Lemma u32_small x : is_u32 x -> u32 x = x.
Proof. unfold is_u32, u32. intros H. apply Z.mod_small. lia. Qed.

Lemma u64_small x : 0 <= x < 2 ^ 64 -> u64 x = x.
Proof. unfold u64. intros H. apply Z.mod_small. lia. Qed.

Lemma u32_range x : is_u32 (u32 x).
Proof. unfold is_u32, u32. apply Z.mod_pos_bound. lia. Qed.

Lemma s64_small x : 0 <= x < 2 ^ 63 -> s64 x = x.
Proof.
  intros H. unfold s64. rewrite u64_small by lia.
  destruct (Z.ltb_spec x (2 ^ 63)); lia.
Qed.

Lemma bind_Ok_inv {A B} (m : result A) (k : A -> result B) (b : B) :
  m ≫= k = Ok b -> exists a, m = Ok a /\ k a = Ok b.
Proof. destruct m as [a|e]; cbn; [eauto | discriminate]. Qed.

Lemma assert_Ok_inv (c : bool) : assert c = Ok tt -> c = true.
Proof. destruct c; [reflexivity | discriminate]. Qed.

Lemma loop_nat_add {A B} (n m : nat) (body : A -> A + B) (a : A) :
  loop_nat (n + m) body a =
  match loop_nat n body a with
  | inl a' => loop_nat m body a'
  | inr b => inr b
  end.
Proof.
  revert a. induction n as [|n IH]; intros a; cbn; [reflexivity|].
  destruct (body a); [apply IH | reflexivity].
Qed.

Lemma loop_upto_nat {A B} (p : positive) (body : A -> A + B) (a : A) :
  loop_upto p body a = loop_nat (Pos.to_nat p) body a.
Proof.
  revert a. induction p as [q IH|q IH|]; intros a.
  - rewrite Pos2Nat.inj_xI. cbn [loop_upto loop_nat].
    destruct (body a) as [a'|b]; [|reflexivity].
    replace (2 * Pos.to_nat q)%nat with (Pos.to_nat q + Pos.to_nat q)%nat by lia.
    rewrite loop_nat_add, <- IH.
    destruct (loop_upto q body a'); [apply IH | reflexivity].
  - rewrite Pos2Nat.inj_xO.
    replace (2 * Pos.to_nat q)%nat with (Pos.to_nat q + Pos.to_nat q)%nat by lia.
    rewrite loop_nat_add, <- IH. cbn [loop_upto].
    destruct (loop_upto q body a); [apply IH | reflexivity].
  - change (Pos.to_nat 1) with 1%nat. cbn. destruct (body a); reflexivity.
Qed.

(** A loop that has left did so from a state the body leaves, and every
    state on the way kept what the body keeps. *)
Lemma loop_nat_exit {A B} (P : A -> Prop) (body : A -> A + B) :
  (forall a a', P a -> body a = inl a' -> P a') ->
  forall n a b, P a -> loop_nat n body a = inr b ->
    exists a', P a' /\ body a' = inr b.
Proof.
  intros Hstep. induction n as [|n IH]; intros a b Ha; cbn; [discriminate|].
  destruct (body a) as [a'|b'] eqn:E.
  - intros H. eapply IH; [|exact H]. eauto.
  - intros [= <-]. eauto.
Qed.

(** A loop whose body always continues never leaves. *)
Lemma loop_nat_stuck {A B} (P : A -> Prop) (body : A -> A + B) :
  (forall a, P a -> exists a', body a = inl a' /\ P a') ->
  forall n a, P a -> exists a', loop_nat n body a = inl a'.
Proof.
  intros Hstep. induction n as [|n IH]; intros a Ha; cbn; [eauto|].
  destruct (Hstep a Ha) as (a' & -> & Ha'). eauto.
Qed.

(** A loop whose continuing rounds each lower a measure has left once the
    rounds outnumber the measure. *)
Lemma loop_nat_measure {A B} (P : A -> Prop) (mu : A -> nat)
      (body : A -> A + B) :
  (forall a a', P a -> body a = inl a' -> P a' /\ (mu a' < mu a)%nat) ->
  forall n a, P a -> (mu a < n)%nat -> exists b, loop_nat n body a = inr b.
Proof.
  intros Hstep. induction n as [|n IH]; intros a Ha Hn; [lia|]. cbn.
  destruct (body a) as [a'|b] eqn:E; [|eauto].
  destruct (Hstep a a' Ha E) as [Ha' Hlt]. apply IH; [exact Ha' | lia].
Qed.

(** ** The growth loop of the count index *)

Lemma grow_Ok_inv newmax newlast m :
  is_u32 newmax -> grow newmax newlast = Ok m ->
  is_u32 m /\ newlast < m /\ (m = newmax \/ newmax <= newlast).
Proof.
  intros Hu. unfold grow. rewrite loop_upto_nat.
  destruct (loop_nat _ _ _) as [a|b] eqn:E; [discriminate|]. intros [= ->].
  apply (loop_nat_exit (fun a => is_u32 a /\ (a = newmax \/ newmax <= newlast)))
    in E.
  - destruct E as (a' & [Ha' Hor] & Hb). unfold grow_step in Hb.
    destruct (Z.leb_spec a' newlast); [discriminate|].
    injection Hb as <-. auto.
  - intros a a' [Ha Hor] Hb. unfold grow_step in Hb.
    destruct (Z.leb_spec a newlast); [|discriminate].
    injection Hb as <-. split; [apply u32_range|]. right. lia.
  - auto.
Qed.

Lemma grow_returns newmax newlast :
  4 <= newmax < 2 ^ 32 -> newlast <= grow_safe_last ->
  exists m, grow newmax newlast = Ok m.
Proof.
  intros Hm Hl. unfold grow. rewrite loop_upto_nat.
  destruct (loop_nat_measure (fun a => 4 <= a < 2 ^ 32)
              (fun a => Z.to_nat (newlast + 1 - a)) (grow_step newlast))
    with (n := Pos.to_nat (2 ^ 32)) (a := newmax) as [b Hb].
  - intros a a' Ha Hb. unfold grow_step in Hb.
    destruct (Z.leb_spec a newlast); [|discriminate]. injection Hb as <-.
    unfold grow_safe_last in Hl.
    assert (Hq : a / 4 <= a) by (apply Z.div_le_upper_bound; lia).
    assert (Hq1 : 1 <= a / 4) by (apply Z.div_le_lower_bound; lia).
    assert (Hq4 : 4 * (a / 4) <= a) by (apply Z.mul_div_le; lia).
    rewrite u32_small by (unfold is_u32; lia). lia.
  - exact Hm.
  - unfold grow_safe_last in Hl. lia.
  - rewrite Hb. eauto.
Qed.

(** An identifier of [2 ^ 32 - 1] is never exceeded by a [uint32]. *)
Lemma grow_diverges newmax :
  is_u32 newmax -> grow newmax (2 ^ 32 - 1) = Fault LoopDiverges.
Proof.
  intros Hu. unfold grow. rewrite loop_upto_nat.
  destruct (loop_nat_stuck is_u32 (grow_step (2 ^ 32 - 1)))
    with (n := Pos.to_nat (2 ^ 32)) (a := newmax) as [a' ->];
    [|exact Hu|reflexivity].
  intros a Ha. unfold grow_step.
  destruct (Z.leb_spec a (2 ^ 32 - 1)); [|unfold is_u32 in Ha; lia].
  eexists. split; [reflexivity | apply u32_range].
Qed.

(** ** The constructor *)

Lemma record_bytes_product_words v :
  record_bytes_product v =
  16 * record_words v true * record_words v false.
Proof. destruct v; reflexivity. Qed.

Lemma record_words_pos v normal : 6 <= record_words v normal <= 10.
Proof. destruct v, normal; unfold record_words, payload_wire_words; lia. Qed.

Lemma recordSize_words v f :
  recordSize v f = sizeof_uint32 * record_words v (_isNormal f).
Proof. unfold recordSize. destruct v, (_isNormal f); reflexivity. Qed.

Ltac concrete_sizes :=
  repeat match goal with
    | |- context [record_bytes_product ?v * sizeof_uint32] =>
        let c := eval vm_compute in (record_bytes_product v * sizeof_uint32) in
        change (record_bytes_product v * sizeof_uint32) with c
    | |- context [sizeof_uint32 * ?k + sizeof_ovOverlapDAT ?v] =>
        let c := eval vm_compute in (sizeof_uint32 * k + sizeof_ovOverlapDAT v) in
        change (sizeof_uint32 * k + sizeof_ovOverlapDAT v) with c
    | |- context [record_bytes_product ?v] =>
        let c := eval vm_compute in (record_bytes_product v) in
        change (record_bytes_product v) with c
    | |- context [sizeof_ovOverlapDAT ?v] =>
        let c := eval vm_compute in (sizeof_ovOverlapDAT v) in
        change (sizeof_ovOverlapDAT v) with c
    | |- context [record_words ?v ?n] =>
        let c := eval vm_compute in (record_words v n) in
        change (record_words v n) with c
    end;
  unfold sizeof_uint32; change (16 * 1024) with 16384.

Ltac zlia := Z.to_euclidean_division_equations; lia.

Lemma capacity_range v bufferSize :
  is_u32 bufferSize ->
  0 < capacity v bufferSize /\ 4 * capacity v bufferSize <= Z.max bufferSize (16 * 1024)
  /\ Z.max bufferSize (16 * 1024) < 4 * capacity v bufferSize + 4 * record_bytes_product v.
Proof.
  intros Hu. unfold capacity, is_u32 in *.
  destruct v; concrete_sizes; zlia.
Qed.

Lemma capacity_divide v normal bufferSize :
  (record_words v normal | capacity v bufferSize).
Proof.
  unfold capacity. rewrite record_bytes_product_words.
  destruct normal.
  - exists (Z.max bufferSize (16 * 1024)
            / (16 * record_words v true * record_words v false * sizeof_uint32)
            * 16 * record_words v false). lia.
  - exists (Z.max bufferSize (16 * 1024)
            / (16 * record_words v true * record_words v false * sizeof_uint32)
            * 16 * record_words v true). lia.
Qed.

Lemma ctor_capacity v bufferSize :
  is_u32 bufferSize ->
  u32 (u64 ((if bufferSize <? 16 * 1024 then 16 * 1024 else bufferSize)
            / u64 (u32 (record_bytes_product v) * sizeof_uint32)
            * u32 (record_bytes_product v)))
  = capacity v bufferSize.
Proof.
  intros Hu. pose proof (capacity_range v bufferSize Hu) as Hc.
  replace (if bufferSize <? 16 * 1024 then 16 * 1024 else bufferSize)
    with (Z.max bufferSize (16 * 1024))
    by (destruct (Z.ltb_spec bufferSize (16 * 1024)); lia).
  assert (Hp : u64 (u32 (record_bytes_product v) * sizeof_uint32)
               = record_bytes_product v * sizeof_uint32
               /\ u32 (record_bytes_product v) = record_bytes_product v)
    by (destruct v; split; reflexivity).
  destruct Hp as [-> ->]. fold (capacity v bufferSize).
  unfold is_u32 in Hu.
  rewrite u64_small by lia. apply u32_small. unfold is_u32. lia.
Qed.

Lemma ovFile_ctor_ok v name type bufferSize :
  is_u32 bufferSize ->
  exists f,
    ovFile_ctor v name type bufferSize = Ok f /\
    _bufferLen f = 0 /\
    _bufferPos f = capacity v bufferSize /\
    _bufferMax f = capacity v bufferSize /\
    _buffer f = zeros (capacity v bufferSize) /\
    _isOutput f = is_write type /\
    _isNormal f = is_normal type /\
    _isSeekable f = negb (is_write type) && negb (n_isCompressed name) /\
    _file f = mkFILE (if is_write type then [] else n_words name) 0 /\
    _olapsPerReadLast f = 0 /\
    _olapsPerReadAlloc f = (if ovFileType_eqb type ovFileFullWrite then 128 * 1024 else 0) /\
    _olapsPerRead f = (if ovFileType_eqb type ovFileFullWrite
                       then Some (zeros (128 * 1024)) else None).
Proof.
  intros Hu. unfold ovFile_ctor. cbv zeta.
  fold (record_bytes_product v). rewrite (ctor_capacity v bufferSize Hu).
  destruct (capacity_divide v true bufferSize) as [k1 Hk1].
  destruct (capacity_divide v false bufferSize) as [k2 Hk2].
  assert (H1 : (capacity v bufferSize mod (sizeof_uint32 * 1 + sizeof_ovOverlapDAT v) =? 0) = true).
  { apply Z.eqb_eq. unfold capacity. destruct v; concrete_sizes; zlia. }
  assert (H2 : (capacity v bufferSize mod (sizeof_uint32 * 2 + sizeof_ovOverlapDAT v) =? 0) = true).
  { apply Z.eqb_eq. unfold capacity. destruct v; concrete_sizes; zlia. }
  rewrite H1, H2. cbn [assert mbind result_bind].
  destruct type; cbn; eexists; (split; [reflexivity|]); cbn;
    repeat split; try reflexivity; destruct (n_isCompressed name); reflexivity.
Qed.

(** C5 (buffer alignment).  For every [bufferSize] the constructor returns a
    handle whose buffer capacity is positive and divisible both by the width
    in words of a normal record (1 + payload wire words) and by the width of
    a full record (2 + payload wire words): a full buffer holds a whole
    number of records of either variant. *)
Theorem ctor_capacity_aligned v name type bufferSize :
  is_u32 bufferSize ->
  exists f,
    ovFile_ctor v name type bufferSize = Ok f /\
    0 < _bufferMax f /\
    _bufferMax f mod (1 + payload_wire_words v) = 0 /\
    _bufferMax f mod (2 + payload_wire_words v) = 0.
Proof.
  intros Hu.
  destruct (ovFile_ctor_ok v name type bufferSize Hu) as (f & Hf & _ & _ & Hmax & _).
  exists f. split; [exact Hf|]. rewrite Hmax.
  pose proof (capacity_range v bufferSize Hu) as [Hpos _].
  split; [exact Hpos|].
  pose proof (record_words_pos v true). pose proof (record_words_pos v false).
  split; apply Z.mod_divide;
    try apply (capacity_divide v true); try apply (capacity_divide v false);
    unfold record_words in *; lia.
Qed.

Lemma ctor_capacity_aligned_witness :
  is_u32 100000 /\
  exists f,
    ovFile_ctor NWORDS3 (mkNamed [] false) ovFileFull 100000 = Ok f /\
    0 < _bufferMax f /\
    _bufferMax f mod (1 + payload_wire_words NWORDS3) = 0 /\
    _bufferMax f mod (2 + payload_wire_words NWORDS3) = 0.
Proof.
  assert (H : is_u32 100000) by (unfold is_u32; lia).
  split; [exact H | apply (ctor_capacity_aligned NWORDS3 _ _ 100000 H)].
Defined.

(** C4, as stated, fails: with [bufferSize] at the minimum of 16 Ki the
    capacity of the 3-word build is 3584 words, far below 16 Ki words. *)
Lemma ctor_capacity_below_16Ki_words :
  match ovFile_ctor NWORDS3 (mkNamed [] false) ovFileNormalWrite (16 * 1024) with
  | Ok f => _bufferMax f = 3584 /\ _bufferMax f < 16 * 1024
  | Fault _ => False
  end.
Proof. vm_compute. split; reflexivity. Qed.

(** C4, amended.  The capacity in words is the product of the sizes in
    bytes of a normal and of a full record (16 times the product of their
    widths in words, a common multiple of the two widths), taken as many
    times as it fits, in bytes, in [bufferSize] raised to at least 16 Ki:
    the minimum of 16 Ki bounds [bufferSize], counted in bytes, and the
    capacity in bytes never exceeds it. *)
Theorem ctor_capacity_value v name type bufferSize :
  is_u32 bufferSize ->
  exists f,
    ovFile_ctor v name type bufferSize = Ok f /\
    _bufferMax f =
      Z.max bufferSize (16 * 1024) / (record_bytes_product v * sizeof_uint32)
      * record_bytes_product v /\
    record_bytes_product v = 16 * (record_words v true * record_words v false) /\
    (Z.lcm (record_words v true) (record_words v false) | _bufferMax f) /\
    0 < _bufferMax f /\
    sizeof_uint32 * _bufferMax f <= Z.max bufferSize (16 * 1024).
Proof.
  intros Hu.
  destruct (ovFile_ctor_ok v name type bufferSize Hu) as (f & Hf & _ & _ & Hmax & _).
  exists f. split; [exact Hf|]. rewrite Hmax.
  pose proof (capacity_range v bufferSize Hu) as (Hpos & Hle & _).
  split; [reflexivity|].
  split; [rewrite record_bytes_product_words; lia|].
  split; [apply Z.lcm_least; apply capacity_divide|].
  split; [exact Hpos | unfold sizeof_uint32; lia].
Qed.

Lemma ctor_capacity_value_witness :
  is_u32 0 /\
  exists f,
    ovFile_ctor NWORDS5 (mkNamed [] false) ovFileFullWrite 0 = Ok f /\
    _bufferMax f =
      Z.max 0 (16 * 1024) / (record_bytes_product NWORDS5 * sizeof_uint32)
      * record_bytes_product NWORDS5 /\
    record_bytes_product NWORDS5
      = 16 * (record_words NWORDS5 true * record_words NWORDS5 false) /\
    (Z.lcm (record_words NWORDS5 true) (record_words NWORDS5 false) | _bufferMax f) /\
    0 < _bufferMax f /\
    sizeof_uint32 * _bufferMax f <= Z.max 0 (16 * 1024).
Proof.
  assert (H : is_u32 0) by (unfold is_u32; lia).
  split; [exact H | apply (ctor_capacity_value NWORDS5 _ _ 0 H)].
Defined.

(** ** The byte stream [bzipBuffer] *)

(** C9 (idempotence past the end of the stream).  Once [_eof] is set, every
    later call of [next], however many, returns true and leaves the stream
    as it was; in particular [tell] reports the same position. *)
Theorem next_after_eof fillBuffer (b : bzipBuffer.t) (n : nat) :
  bzipBuffer._eof b = true ->
  bzipBuffer.next_n fillBuffer n b = (replicate n true, b) /\
  bzipBuffer.next fillBuffer b = (true, b) /\
  bzipBuffer.tell (bzipBuffer.next_n fillBuffer n b).2 = bzipBuffer.tell b /\
  bzipBuffer.eof (bzipBuffer.next_n fillBuffer n b).2 = true.
Proof.
  intros He.
  assert (H1 : bzipBuffer.next fillBuffer b = (true, b))
    by (unfold bzipBuffer.next; rewrite He; reflexivity).
  assert (Hn : bzipBuffer.next_n fillBuffer n b = (replicate n true, b)).
  { induction n as [|n IH]; [reflexivity|].
    cbn [bzipBuffer.next_n replicate]. rewrite H1, IH. reflexivity. }
  rewrite Hn. cbn. auto.
Qed.

Lemma next_after_eof_witness :
  let b := bzipBuffer.mk 10 true 3 7 [1; 2; 3; 4; 5; 6; 7] in
  let refill := bzipBuffer.set_pos 0 0 in
  bzipBuffer._eof b = true /\
  bzipBuffer.next_n refill 3 b = (replicate 3 true, b) /\
  bzipBuffer.next refill b = (true, b) /\
  bzipBuffer.tell (bzipBuffer.next_n refill 3 b).2 = bzipBuffer.tell b /\
  bzipBuffer.eof (bzipBuffer.next_n refill 3 b).2 = true.
Proof.
  intros b refill. split; [reflexivity|].
  apply (next_after_eof refill b 3). reflexivity.
Defined.

(** ** The word buffer *)

Lemma push_Ok x f :
  0 <= _bufferLen f < Z.of_nat (length (_buffer f)) ->
  Z.of_nat (length (_buffer f)) < 2 ^ 32 ->
  push x f = Ok (set_bufferLen (_bufferLen f + 1)
                   (set_buffer (<[Z.to_nat (_bufferLen f) := u32 x]> (_buffer f)) f)).
Proof.
  intros H Hm. unfold push.
  destruct (Z.leb_spec 0 (_bufferLen f)); [|lia].
  destruct (Z.ltb_spec (_bufferLen f) (Z.of_nat (length (_buffer f)))); [|lia].
  cbn. rewrite u32_small by (unfold is_u32; lia). reflexivity.
Qed.

Lemma push_not_overrun x f e :
  0 <= _bufferLen f < Z.of_nat (length (_buffer f)) -> push x f <> Fault e.
Proof.
  intros H. unfold push.
  destruct (Z.leb_spec 0 (_bufferLen f)); [|lia].
  destruct (Z.ltb_spec (_bufferLen f) (Z.of_nat (length (_buffer f)))); [|lia].
  discriminate.
Qed.

Lemma take_S_middle {A} (l : list A) x l' n :
  length l = n -> take (S n) (l ++ x :: l') = l ++ [x].
Proof.
  intros <-. induction l as [|y l IH]; cbn; [by rewrite take_0|].
  f_equal. exact IH.
Qed.

Lemma drop_S_middle {A} (l : list A) x l' n k :
  length l = n -> drop (S (n + k)) (l ++ x :: l') = drop k l'.
Proof. intros <-. induction l as [|y l IH]; cbn; [reflexivity | exact IH]. Qed.

Lemma pushes_Ok xs : forall f (n : nat),
  _bufferLen f = Z.of_nat n ->
  (n + length xs <= length (_buffer f))%nat ->
  Z.of_nat (length (_buffer f)) < 2 ^ 32 ->
  pushes xs f =
  Ok (set_bufferLen (Z.of_nat (n + length xs))
        (set_buffer (take n (_buffer f) ++ map u32 xs
                       ++ drop (n + length xs) (_buffer f)) f)).
Proof.
  induction xs as [|x xs IH]; intros f n Hn Hle Hm; cbn [pushes].
  - cbn [length map app]. rewrite Nat.add_0_r, take_drop, <- Hn.
    destruct f; reflexivity.
  - cbn [length] in Hle.
    rewrite push_Ok by lia. cbn [mbind result_bind].
    rewrite (IH _ (S n)); cbn;
      [| lia | rewrite length_insert; lia | rewrite length_insert; lia].
    rewrite Hn, Nat2Z.id.
    f_equal. unfold set_bufferLen, set_buffer; cbn. f_equal; [f_equal; lia|].
    rewrite insert_take_drop by lia.
    rewrite take_S_middle, drop_S_middle by (rewrite length_take; lia).
    rewrite <- app_assoc. cbn. rewrite drop_drop. do 4 f_equal. lia.
Qed.

Lemma pop_Ok f :
  0 <= _bufferPos f < Z.of_nat (length (_buffer f)) ->
  Z.of_nat (length (_buffer f)) < 2 ^ 32 ->
  pop f = Ok (nth (Z.to_nat (_bufferPos f)) (_buffer f) 0,
              set_bufferPos (_bufferPos f + 1) f).
Proof.
  intros H Hm. unfold pop.
  destruct (Z.leb_spec 0 (_bufferPos f)); [|lia].
  destruct (Z.ltb_spec (_bufferPos f) (Z.of_nat (length (_buffer f)))); [|lia].
  cbn. rewrite u32_small by (unfold is_u32; lia). reflexivity.
Qed.

Lemma pops_Ok (k : nat) : forall f (n : nat),
  _bufferPos f = Z.of_nat n ->
  (n + k <= length (_buffer f))%nat ->
  Z.of_nat (length (_buffer f)) < 2 ^ 32 ->
  pops k f = Ok (take k (drop n (_buffer f)),
                 set_bufferPos (Z.of_nat (n + k)) f).
Proof.
  induction k as [|k IH]; intros f n Hn Hle Hm; cbn [pops].
  - rewrite take_0, Nat.add_0_r, <- Hn. destruct f; reflexivity.
  - rewrite pop_Ok by lia. cbn [mbind result_bind].
    rewrite (IH _ (S n)); cbn; [| lia | lia | lia].
    rewrite Hn, Nat2Z.id. f_equal. f_equal.
    + destruct (lookup_lt_is_Some_2 (_buffer f) n) as [y Hy]; [lia|].
      rewrite (drop_S _ _ _ Hy), (nth_lookup_Some _ _ _ _ Hy). reflexivity.
    + unfold set_bufferPos; cbn. f_equal. lia.
Qed.

(** The straight-line code that encodes a record pushes its wire words,
    and the code that decodes one pops as many words and assembles them. *)
Lemma encode_overlap_pushes v o f :
  encode_overlap v o f = pushes (wire v (_isNormal f) o) f.
Proof.
  unfold encode_overlap, wire.
  destruct (_isNormal f); cbn [negb app pushes mbind result_bind].
  - destruct (push (b_iid o) f) as [f1|]; [|reflexivity]. cbn.
    destruct v; cbn [pushes];
      repeat match goal with
        | |- context [push ?x ?g] =>
            destruct (push x g); cbn [mbind result_bind]; [|reflexivity]
        end; reflexivity.
  - destruct (push (a_iid o) f) as [f0|]; [|reflexivity]. cbn.
    destruct (push (b_iid o) f0) as [f1|]; [|reflexivity]. cbn.
    destruct v; cbn [pushes];
      repeat match goal with
        | |- context [push ?x ?g] =>
            destruct (push x g); cbn [mbind result_bind]; [|reflexivity]
        end; reflexivity.
Qed.

Lemma pop_isNormal f x f' : pop f = Ok (x, f') -> _isNormal f' = _isNormal f.
Proof.
  unfold pop. destruct (_ && _); [|discriminate]. intros [= _ <-]. reflexivity.
Qed.

Lemma decode_overlap_pops v o f :
  decode_overlap v (o, f) =
  '(ws, f') ← pops (Z.to_nat (record_words v (_isNormal f))) f;
  Ok (decode_words v (_isNormal f) o ws, f').
Proof.
  unfold decode_overlap, decode_words, load. cbn [fst snd].
  destruct (_isNormal f), v; cbn [negb fst snd];
    repeat match goal with
      | |- context [Z.to_nat ?z] =>
          let c := eval vm_compute in (Z.to_nat z) in
          change (Z.to_nat z) with c
      end;
    cbn [pops mbind result_bind fst snd];
    repeat match goal with
      | |- context [pop ?g] =>
          destruct (pop g) as [[? ?]|]; cbn [mbind result_bind fst snd];
          [|reflexivity]
      end; reflexivity.
Qed.

(** ** The record codec *)

Lemma land_low32 x : Z.land x 0xffffffff = x mod 2 ^ 32.
Proof. change 0xffffffff with (Z.ones 32). apply Z.land_ones. lia. Qed.

(** A 64-bit word is the high half shifted back, or-ed with the low half. *)
Lemma word64_split_join d :
  0 <= d < 2 ^ 64 ->
  Z.lor (u64 (Z.shiftl (u32 (Z.land (Z.shiftr d 32) 0xffffffff)) 32))
        (u32 (Z.land (Z.shiftr d 0) 0xffffffff)) = d.
Proof.
  intros Hd. rewrite !land_low32, Z.shiftr_0_r, Z.shiftr_div_pow2 by lia.
  unfold u32, u64. rewrite !Z.mod_mod by lia.
  assert (Hh : 0 <= d / 2 ^ 32 < 2 ^ 32).
  { split; [apply Z.div_pos; lia | apply Z.div_lt_upper_bound; lia]. }
  rewrite (Z.mod_small (d / 2 ^ 32)) by lia.
  rewrite Z.shiftl_mul_pow2 by lia.
  rewrite (Z.mod_small (d / 2 ^ 32 * 2 ^ 32)) by lia.
  rewrite <- Z.lxor_lor, <- Z.add_nocarry_lxor.
  - rewrite (Z.div_mod d (2 ^ 32)) at 3 by lia. lia.
  - apply Z.bits_inj'. intros n Hn. rewrite Z.land_spec, Z.bits_0.
    destruct (Z.lt_ge_cases n 32).
    + rewrite Z.mul_pow2_bits_low by lia. reflexivity.
    + rewrite (Z.mod_pow2_bits_high d 32 n) by lia. apply andb_false_r.
  - apply Z.bits_inj'. intros n Hn. rewrite Z.land_spec, Z.bits_0.
    destruct (Z.lt_ge_cases n 32).
    + rewrite Z.mul_pow2_bits_low by lia. reflexivity.
    + rewrite (Z.mod_pow2_bits_high d 32 n) by lia. apply andb_false_r.
Qed.

Lemma length_wire v normal o :
  Z.of_nat (length (wire v normal o)) = record_words v normal.
Proof. destruct v, normal; reflexivity. Qed.

(** Decoding the wire words of a record gives the record back, up to the
    [a_iid] that the normal variant does not carry. *)
Lemma decode_words_wire v normal o r :
  wf_overlap v r -> length (dat o) = ovOverlapNWORDS v ->
  decode_words v normal o (map u32 (wire v normal r)) = merge normal o r.
Proof.
  intros (Ha & Hb & Hlen & Hd) Hlo.
  destruct r as [a b d], o as [a' b' d']. cbn in *.
  unfold decode_words, wire, merge.
  destruct v; cbn in Hlen, Hlo, Hd;
    repeat (destruct d as [|? d]; try discriminate Hlen);
    repeat (destruct d' as [|? d']; try discriminate Hlo);
    repeat match goal with
      | H : Forall _ (_ :: _) |- _ =>
          apply Forall_cons in H; destruct H as [? H]
      end;
    destruct normal; cbn;
    unfold set_dat, set_b_iid, set_a_iid, lor_dat, shl32_dat, set_dat; cbn;
    rewrite ?word64_split_join by assumption;
    rewrite ?u32_small by (unfold is_u32 in *; assumption);
    reflexivity.
Qed.

(** ** The count index *)

Lemma max_id_app m rs os : max_id m (rs ++ os) = max_id (max_id m rs) os.
Proof. unfold max_id. apply fold_left_app. Qed.

Lemma max_id_ge m rs : m <= max_id m rs.
Proof.
  revert m. induction rs as [|o rs IH]; intros m; cbn; [lia|].
  specialize (IH (Z.max (Z.max m (a_iid o)) (b_iid o))). unfold max_id in IH. lia.
Qed.

Lemma max_id_mono m m' rs : m <= m' -> max_id m rs <= max_id m' rs.
Proof.
  revert m m'. induction rs as [|o rs IH]; intros m m' H; cbn; [lia|].
  apply IH. lia.
Qed.

Lemma max_id_bounds m rs :
  Forall (fun o => a_iid o <= max_id m rs /\ b_iid o <= max_id m rs) rs.
Proof.
  revert m. induction rs as [|o rs IH]; intros m; constructor.
  - cbn. pose proof (max_id_ge (Z.max (Z.max m (a_iid o)) (b_iid o)) rs).
    unfold max_id in *. lia.
  - apply IH.
Qed.

Lemma max_id_least m rs bound :
  m <= bound -> Forall (fun o => a_iid o <= bound /\ b_iid o <= bound) rs ->
  max_id m rs <= bound.
Proof.
  revert m. induction rs as [|o rs IH]; intros m Hm H; cbn; [lia|].
  apply Forall_cons in H. destruct H as [[Ha Hb] H]. apply IH; [lia | exact H].
Qed.

Lemma occurrences_app i rs os :
  occurrences i (rs ++ os) = occurrences i rs + occurrences i os.
Proof. induction rs as [|o rs IH]; cbn; [reflexivity | rewrite IH; lia]. Qed.

Lemma occurrences_nonneg i rs : 0 <= occurrences i rs.
Proof.
  induction rs as [|o rs IH]; cbn; [lia|].
  destruct (a_iid o =? i), (b_iid o =? i); lia.
Qed.

Lemma occurrences_le_length i rs :
  occurrences i rs <= 2 * Z.of_nat (length rs).
Proof.
  induction rs as [|o rs IH]; cbn [occurrences length]; [lia|].
  destruct (a_iid o =? i), (b_iid o =? i); lia.
Qed.

Lemma occurrences_absent i rs :
  Forall (fun o => a_iid o <> i /\ b_iid o <> i) rs -> occurrences i rs = 0.
Proof.
  induction 1 as [|o rs [Ha Hb] _ IH]; [reflexivity|]. cbn.
  destruct (Z.eqb_spec (a_iid o) i); [contradiction|].
  destruct (Z.eqb_spec (b_iid o) i); [contradiction|]. lia.
Qed.

Lemma occurrences_above i m rs : max_id m rs < i -> occurrences i rs = 0.
Proof.
  intros H. apply occurrences_absent.
  eapply Forall_impl; [apply (max_id_bounds m rs)|]. cbn. intros o [? ?]. lia.
Qed.

Lemma u32_succ_u32 x : u32 (u32 x + 1) = u32 (x + 1).
Proof. unfold u32. apply Zplus_mod_idemp_l. Qed.

(** [array[i]++] inside the allocation counts one more occurrence of [i]. *)
Lemma incr_Ok (g : Z -> Z) i array :
  0 <= i < Z.of_nat (length array) ->
  (forall (j : nat) c, array !! j = Some c -> c = u32 (g (Z.of_nat j))) ->
  exists array',
    incr i array = Ok array' /\ length array' = length array /\
    forall (j : nat) c, array' !! j = Some c ->
      c = u32 (g (Z.of_nat j) + (if i =? Z.of_nat j then 1 else 0)).
Proof.
  intros Hi Hg. unfold incr.
  destruct (lookup_lt_is_Some_2 array (Z.to_nat i)) as [c Hc]; [lia|].
  rewrite Hc. destruct (Z.leb_spec 0 i); [|lia].
  eexists. split; [reflexivity|]. split; [apply length_insert|].
  intros j c' Hj. destruct (decide (Z.to_nat i = j)) as [<-|Hne].
  - rewrite list_lookup_insert_eq in Hj by lia. injection Hj as <-.
    rewrite (Hg _ _ Hc), Z2Nat.id, Z.eqb_refl by lia. apply u32_succ_u32.
  - rewrite list_lookup_insert_ne in Hj by exact Hne.
    destruct (Z.eqb_spec i (Z.of_nat j)); [lia|].
    rewrite Z.add_0_r. apply Hg, Hj.
Qed.

Lemma length_zeros n : length (zeros n) = Z.to_nat n.
Proof. apply length_replicate. Qed.

Lemma lookup_zeros n (j : nat) c : zeros n !! j = Some c -> c = 0.
Proof. unfold zeros. intros H. apply lookup_replicate in H. tauto. Qed.

(** Growing the count index keeps the counts of the records seen, which
    all lie at or below [last]. *)
Lemma resizeArray_counts rs counts last alloc newMax :
  Z.of_nat (length counts) = alloc -> 0 <= last < alloc ->
  max_id 0 rs <= last ->
  (forall (j : nat) c, counts !! j = Some c ->
     c = u32 (occurrences (Z.of_nat j) rs)) ->
  let '(counts', alloc') := resizeArray counts (last + 1) alloc newMax in
  Z.of_nat (length counts') = alloc' /\ alloc' = Z.max alloc newMax /\
  forall (j : nat) c, counts' !! j = Some c ->
    c = u32 (occurrences (Z.of_nat j) rs).
Proof.
  intros Hlen Hlast Hmax Hc. unfold resizeArray.
  destruct (Z.leb_spec newMax alloc) as [Hle|Hgt].
  - split; [exact Hlen|]. split; [lia | exact Hc].
  - split; [|split; [lia|]].
    + rewrite length_app, length_take, length_zeros. lia.
    + intros j c Hj. apply lookup_app_Some in Hj.
      destruct Hj as [Hj | [Hge Hj]].
      * apply lookup_take_Some in Hj. apply Hc, Hj.
      * apply lookup_zeros in Hj. subst c.
        rewrite length_take in Hge.
        rewrite (occurrences_above _ 0 rs) by lia. reflexivity.
Qed.

Lemma set_olapsPerRead_id f :
  set_olapsPerRead (_olapsPerReadAlloc f) (_olapsPerReadLast f)
                   (_olapsPerRead f) f = f.
Proof. destruct f; reflexivity. Qed.

Lemma grow_faults newmax newlast e :
  grow newmax newlast = Fault e -> e = LoopDiverges.
Proof.
  unfold grow. destruct (loop_upto _ _ _); [|discriminate]. congruence.
Qed.

(** The count block of [writeOverlap]: unless the growth loop diverges, it
    only touches the count index, which then counts [o] as well. *)
Lemma count_overlap_spec rs o f :
  counts_ok rs f ->
  (_olapsPerRead f <> None -> _olapsPerReadLast f = max_id 0 rs) ->
  is_u32 (a_iid o) -> is_u32 (b_iid o) ->
  (count_overlap o f = Fault LoopDiverges /\
   grow_safe_last < max_id 0 (rs ++ [o]) /\ _olapsPerRead f <> None)
  \/
  exists alloc last counts,
    count_overlap o f = Ok (set_olapsPerRead alloc last counts f) /\
    counts_ok (rs ++ [o]) (set_olapsPerRead alloc last counts f) /\
    (counts = None <-> _olapsPerRead f = None) /\
    (counts <> None -> last = max_id 0 (rs ++ [o])).
Proof.
  intros Hc Hlast Ha Hb. unfold count_overlap, counts_ok in *.
  destruct (_olapsPerRead f) as [counts|] eqn:E.
  2:{ right. exists (_olapsPerReadAlloc f), (_olapsPerReadLast f), None.
      rewrite <- E at 1. rewrite set_olapsPerRead_id. cbn. tauto. }
  destruct Hc as (Hlen & Halloc & Hl & Hmax & Hcnt).
  specialize (Hlast ltac:(discriminate)).
  assert (Hnl : Z.max (Z.max (_olapsPerReadLast f) (a_iid o)) (b_iid o)
                = max_id 0 (rs ++ [o])).
  { rewrite max_id_app, <- Hlast. reflexivity. }
  rewrite Hnl.
  destruct (grow (_olapsPerReadAlloc f) (max_id 0 (rs ++ [o]))) as [m|e] eqn:G.
  2:{ left. cbn. rewrite (grow_faults _ _ _ G). split; [reflexivity|].
      split; [|discriminate].
      destruct (Z.lt_ge_cases grow_safe_last (max_id 0 (rs ++ [o]))) as [|Hs];
        [assumption|].
      destruct (grow_returns (_olapsPerReadAlloc f) (max_id 0 (rs ++ [o])))
        as [m Hm]; [lia | lia | congruence]. }
  right. cbn [mbind result_bind].
  apply grow_Ok_inv in G; [|unfold is_u32; lia]. destruct G as (Hm & Hgt & _).
  rewrite u32_small by (unfold is_u32; lia).
  pose proof (resizeArray_counts rs counts (_olapsPerReadLast f)
                (_olapsPerReadAlloc f) m Hlen Hl Hmax Hcnt) as R.
  destruct (resizeArray counts (_olapsPerReadLast f + 1) (_olapsPerReadAlloc f) m)
    as [counts1 alloc1].
  destruct R as (Hlen1 & Halloc1 & Hcnt1).
  unfold is_u32 in *.
  destruct (incr_Ok (fun i => occurrences i rs) (a_iid o) counts1 ltac:(lia) Hcnt1)
    as (counts2 & -> & Hlen2 & Hcnt2).
  cbn [mbind result_bind].
  destruct (incr_Ok (fun i => occurrences i rs + (if a_iid o =? i then 1 else 0))
              (b_iid o) counts2 ltac:(lia) Hcnt2)
    as (counts3 & -> & Hlen3 & Hcnt3).
  cbn [mbind result_bind].
  exists alloc1, (max_id 0 (rs ++ [o])), (Some counts3).
  split; [reflexivity|]. cbn.
  split; [|split; [split; discriminate | reflexivity]].
  split; [lia|]. split; [lia|].
  split; [pose proof (max_id_ge 0 (rs ++ [o])); lia|]. split; [lia|].
  intros j c Hj. rewrite (Hcnt3 j c Hj), occurrences_app. cbn. f_equal. lia.
Qed.

Lemma scan_batch_spec os : forall newmax newlast,
  4 <= newmax < 2 ^ 32 -> newlast < newmax ->
  (scan_batch os newmax newlast = Fault LoopDiverges /\
   grow_safe_last < max_id newlast os)
  \/
  exists m, scan_batch os newmax newlast = Ok (m, max_id newlast os) /\
            newmax <= m < 2 ^ 32 /\ max_id newlast os < m.
Proof.
  induction os as [|o os IH]; intros newmax newlast Hm Hl; cbn [scan_batch].
  - right. exists newmax. cbn. split; [reflexivity | lia].
  - cbn [max_id fold_left].
    fold (max_id (Z.max (Z.max newlast (a_iid o)) (b_iid o)) os).
    set (nl := Z.max (Z.max newlast (a_iid o)) (b_iid o)).
    destruct (grow newmax nl) as [m|e] eqn:G.
    + cbn [mbind result_bind].
      apply grow_Ok_inv in G; [|unfold is_u32; lia].
      destruct G as (Hu & Hgt & Hor). unfold is_u32 in Hu.
      destruct (IH m nl ltac:(lia) Hgt) as [[-> Hs] | (m' & -> & Hm' & Hgt')].
      * left. split; [reflexivity | exact Hs].
      * right. exists m'. split; [reflexivity | lia].
    + left. cbn. rewrite (grow_faults _ _ _ G). split; [reflexivity|].
      destruct (Z.lt_ge_cases grow_safe_last nl) as [Hs|Hs].
      * pose proof (max_id_ge nl os). lia.
      * destruct (grow_returns newmax nl) as [m Hm']; [lia | lia | congruence].
Qed.

(** ** Writing *)

Lemma writeBuffer_cases force f :
  writeBuffer force f = f \/
  (_isOutput f = true /\ (force = true \/ _bufferMax f <= _bufferLen f) /\
   _bufferLen f <> 0 /\
   writeBuffer force f =
   set_bufferLen 0
     (set_file (AS_UTL_safeWrite (_file f)
                  (take (Z.to_nat (_bufferLen f)) (_buffer f))) f)).
Proof.
  unfold writeBuffer. destruct (_isOutput f); cbn; [|auto].
  destruct force; cbn.
  - destruct (Z.eqb_spec (_bufferLen f) 0); auto.
  - destruct (Z.ltb_spec (_bufferLen f) (_bufferMax f)); [auto|].
    destruct (Z.eqb_spec (_bufferLen f) 0); [auto|]. right. repeat split; auto.
Qed.

Lemma writeBuffer_emitted force f : emitted (writeBuffer force f) = emitted f.
Proof.
  destruct (writeBuffer_cases force f) as [-> | (_ & _ & _ & ->)];
    [reflexivity|].
  unfold emitted. cbn. rewrite take_0, app_nil_r. reflexivity.
Qed.

(** What [writeBuffer] leaves alone. *)
Lemma writeBuffer_frame force f :
  let g := writeBuffer force f in
  _buffer g = _buffer f /\ _bufferMax g = _bufferMax f /\
  _bufferPos g = _bufferPos f /\
  _isOutput g = _isOutput f /\ _isNormal g = _isNormal f /\
  _isSeekable g = _isSeekable f /\
  _olapsPerRead g = _olapsPerRead f /\
  _olapsPerReadAlloc g = _olapsPerReadAlloc f /\
  _olapsPerReadLast g = _olapsPerReadLast f.
Proof.
  cbv zeta.
  destruct (writeBuffer_cases force f) as [-> | (_ & _ & _ & ->)];
    cbn; repeat split; reflexivity.
Qed.

Lemma divide_room w a b : 0 < w -> (w | a) -> (w | b) -> a < b -> a + w <= b.
Proof.
  intros Hw [p ->] [q ->] H.
  assert (Hpq : p < q) by (apply (Z.mul_lt_mono_pos_r w); assumption).
  assert (Hm : (p + 1) * w <= q * w) by (apply Z.mul_le_mono_nonneg_r; lia).
  lia.
Qed.

(** The flush at the head of a write leaves room for one more record. *)
Lemma writeBuffer_room w f :
  0 < w -> _isOutput f = true -> buffer_ok w f -> (w | _bufferLen f) ->
  let g := writeBuffer false f in
  buffer_ok w g /\ (w | _bufferLen g) /\ _bufferLen g + w <= _bufferMax g /\
  (_bufferLen f < _bufferMax f -> g = f) /\
  (_bufferLen f = _bufferMax f -> _bufferLen g = 0 /\
     f_words (_file g) = f_words (_file f) ++ take (Z.to_nat (_bufferMax f)) (_buffer f)).
Proof.
  intros Hw Ho (Hlen & Hmax & Hdiv & Hl) Hd. cbv zeta.
  destruct (writeBuffer_cases false f) as [E | (_ & Hor & Hne & E)]; rewrite E.
  - assert (Hlt : _bufferLen f < _bufferMax f).
    { unfold writeBuffer in E. rewrite Ho in E. cbn in E.
      destruct (Z.ltb_spec (_bufferLen f) (_bufferMax f)); [assumption|].
      destruct (Z.eqb_spec (_bufferLen f) 0); [lia|].
      apply (f_equal _bufferLen) in E. cbn in E. lia. }
    split; [repeat split; assumption || lia|].
    split; [assumption|]. split; [apply divide_room; assumption|].
    split; [reflexivity | lia].
  - destruct Hor as [|Hge]; [discriminate|]. cbn.
    split; [unfold buffer_ok; cbn; repeat split; assumption || lia|].
    split; [apply Z.divide_0_r|].
    split; [apply (divide_room w 0); [assumption | apply Z.divide_0_r | assumption | lia]|].
    split; [lia|]. intros Heq. rewrite Heq. split; reflexivity.
Qed.

(** Encoding a record into a buffer that has room for it. *)
Lemma encode_overlap_Ok v o g :
  let w := record_words v (_isNormal g) in
  buffer_ok w g -> _bufferLen g + w <= _bufferMax g ->
  exists b,
    encode_overlap v o g = Ok (set_bufferLen (_bufferLen g + w) (set_buffer b g)) /\
    length b = length (_buffer g) /\
    take (Z.to_nat (_bufferLen g + w)) b
    = take (Z.to_nat (_bufferLen g)) (_buffer g) ++ map u32 (wire v (_isNormal g) o).
Proof.
  intros w (Hlen & Hmax & Hdiv & Hl) Hroom.
  pose proof (length_wire v (_isNormal g) o) as Hw. fold w in Hw.
  rewrite encode_overlap_pushes.
  rewrite (pushes_Ok _ g (Z.to_nat (_bufferLen g))) by lia.
  eexists. split; [f_equal; f_equal; lia|].
  assert (Hn : (Z.to_nat (_bufferLen g) <= length (_buffer g))%nat) by lia.
  split.
  - rewrite !length_app, length_take, length_map, length_drop. lia.
  - rewrite app_assoc. rewrite take_app_length'; [reflexivity|].
    rewrite length_app, length_take, length_map. lia.
Qed.

Lemma emitted_set_olapsPerRead a l c f :
  emitted (set_olapsPerRead a l c f) = emitted f.
Proof. reflexivity. Qed.

Lemma wire_all_app v normal rs os :
  wire_all v normal (rs ++ os) = wire_all v normal rs ++ wire_all v normal os.
Proof. unfold wire_all. rewrite map_app, concat_app. reflexivity. Qed.

Lemma wire_all_one v normal o :
  wire_all v normal [o] = map u32 (wire v normal o).
Proof. unfold wire_all. cbn. apply app_nil_r. Qed.

Lemma length_wire_all v normal rs :
  Z.of_nat (length (wire_all v normal rs))
  = Z.of_nat (length rs) * record_words v normal.
Proof.
  induction rs as [|o rs IH]; [reflexivity|].
  change (o :: rs) with ([o] ++ rs).
  rewrite wire_all_app, wire_all_one, length_app, length_map.
  rewrite Nat2Z.inj_add, IH, length_wire. cbn [length app]. lia.
Qed.

(** One record through the flush, the count update and the encoding, as
    both [writeOverlap] and the loop of [writeOverlaps] do it. *)
Lemma write_record v o f a l c :
  let w := record_words v (_isNormal f) in
  _isOutput f = true -> buffer_ok w f -> (w | _bufferLen f) ->
  exists f',
    encode_overlap v o (set_olapsPerRead a l c (writeBuffer false f)) = Ok f' /\
    _isOutput f' = true /\ _isNormal f' = _isNormal f /\
    _isSeekable f' = _isSeekable f /\
    _bufferMax f' = _bufferMax f /\
    buffer_ok w f' /\ (w | _bufferLen f') /\ 0 < _bufferLen f' /\
    emitted f' = emitted f ++ map u32 (wire v (_isNormal f) o) /\
    _olapsPerReadAlloc f' = a /\ _olapsPerReadLast f' = l /\
    _olapsPerRead f' = c /\
    (_bufferLen f < _bufferMax f ->
       _bufferLen f' = _bufferLen f + w /\
       f_words (_file f') = f_words (_file f)) /\
    (_bufferLen f = _bufferMax f ->
       _bufferLen f' = w /\
       f_words (_file f')
       = f_words (_file f) ++ take (Z.to_nat (_bufferMax f)) (_buffer f)).
Proof.
  intros w Ho Hb Hd.
  pose proof (record_words_pos v (_isNormal f)) as Hw. fold w in Hw.
  pose proof (writeBuffer_frame false f) as Hf. cbv zeta in Hf.
  destruct Hf as (Hbuf & Hmax & _ & Hout & Hnorm & Hseek & _).
  pose proof (writeBuffer_emitted false f) as He.
  destruct (writeBuffer_room w f ltac:(lia) Ho Hb Hd)
    as (Hb' & Hd' & Hroom & Hsame & Hfull).
  set (g := writeBuffer false f) in *.
  set (h := set_olapsPerRead a l c g).
  destruct (encode_overlap_Ok v o h) as (b & -> & Hlb & Htake).
  { change (_isNormal h) with (_isNormal g). rewrite Hnorm. exact Hb'. }
  { change (_isNormal h) with (_isNormal g). rewrite Hnorm. exact Hroom. }
  change (_isNormal h) with (_isNormal g) in *. rewrite Hnorm in *. fold w in Htake |- *.
  change (_bufferLen h) with (_bufferLen g) in *.
  change (_buffer h) with (_buffer g) in *.
  destruct Hb' as (Hlen' & Hmax' & Hdiv' & Hl').
  eexists. split; [reflexivity|]. cbn.
  split; [congruence|]. split; [congruence|]. split; [congruence|].
  split; [congruence|].
  split; [unfold buffer_ok; cbn; repeat split; try lia; try assumption;
          rewrite Hlb; lia|].
  split; [apply Z.divide_add_r; [assumption | apply Z.divide_refl]|].
  split; [lia|].
  split.
  { unfold emitted in *. cbn. rewrite Htake, app_assoc. f_equal. exact He. }
  split; [reflexivity|]. split; [reflexivity|]. split; [reflexivity|].
  split.
  - intros Hlt. rewrite (Hsame Hlt). split; reflexivity.
  - intros Heq. destruct (Hfull Heq) as [-> ->]. split; [lia | reflexivity].
Qed.

(** [writeOverlap] on a write handle: unless the growth loop of the count
    index diverges, the call returns and the handle has one more record. *)
Lemma writeOverlap_spec v rs o f :
  writer_ok v rs f -> wf_overlap v o ->
  (writeOverlap v o f = Fault LoopDiverges /\
   grow_safe_last < max_id 0 (rs ++ [o]) /\ _olapsPerRead f <> None)
  \/
  exists f',
    writeOverlap v o f = Ok f' /\ writer_ok v (rs ++ [o]) f' /\
    _isNormal f' = _isNormal f /\ _isSeekable f' = _isSeekable f /\
    _bufferMax f' = _bufferMax f /\
    0 < _bufferLen f' <= _bufferMax f' /\
    (_olapsPerRead f' = None <-> _olapsPerRead f = None) /\
    (_bufferLen f < _bufferMax f ->
       _bufferLen f' = _bufferLen f + record_words v (_isNormal f) /\
       f_words (_file f') = f_words (_file f)) /\
    (_bufferLen f = _bufferMax f ->
       _bufferLen f' = record_words v (_isNormal f) /\
       f_words (_file f')
       = f_words (_file f) ++ take (Z.to_nat (_bufferMax f)) (_buffer f)).
Proof.
  intros (Ho & Hb & Hd & He & Hc & Hlast) (Ha & Hbi & _).
  unfold writeOverlap. rewrite Ho. cbn [assert mbind result_bind].
  pose proof (writeBuffer_frame false f) as Hf. cbv zeta in Hf.
  destruct Hf as (_ & _ & _ & _ & _ & _ & Hcnt & Hal & Hla).
  destruct (count_overlap_spec rs o (writeBuffer false f))
    as [(-> & Hs & Hn) | (a & l & c & -> & Hc' & Hnone & Hl')].
  - unfold counts_ok. rewrite Hcnt, Hal, Hla. exact Hc.
  - rewrite Hcnt, Hla. exact Hlast.
  - exact Ha.
  - exact Hbi.
  - left. rewrite Hcnt in Hn. auto.
  - right. cbn [mbind result_bind].
    destruct (write_record v o f a l c Ho Hb Hd)
      as (f' & -> & Ho' & Hn' & Hs' & Hm' & Hb' & Hd' & Hpos & He' & Ha' & Hl'' &
          Hc'' & Hlt & Hfull).
    cbn [mbind result_bind].
    destruct Hb' as (Hlen' & Hmax' & Hdiv' & Hle').
    destruct (Z.leb_spec (_bufferLen f') (_bufferMax f')); [|lia].
    cbn [assert mbind result_bind].
    exists f'. split; [reflexivity|].
    split.
    { unfold writer_ok. rewrite Hn'. split; [exact Ho'|].
      split; [repeat split; assumption || lia|]. split; [exact Hd'|].
      split; [rewrite He', He, wire_all_app, wire_all_one; reflexivity|].
      split.
      - unfold counts_ok in *. rewrite Hc'', Ha', Hl''. exact Hc'.
      - rewrite Hc'', Hl''. exact Hl'. }
    split; [exact Hn'|]. split; [exact Hs'|]. split; [exact Hm'|].
    split; [lia|].
    split; [rewrite Hc'', <- Hcnt; exact Hnone|].
    split; assumption.
Qed.

Lemma writeOverlaps_loop_spec v os : forall rs f,
  _isOutput f = true ->
  buffer_ok (record_words v (_isNormal f)) f ->
  (record_words v (_isNormal f) | _bufferLen f) ->
  emitted f = wire_all v (_isNormal f) rs ->
  counts_ok rs f -> Forall (wf_overlap v) os ->
  (_olapsPerRead f <> None ->
   Forall (fun o => a_iid o <= _olapsPerReadLast f /\
                    b_iid o <= _olapsPerReadLast f) os) ->
  exists f',
    writeOverlaps_loop v os f = Ok f' /\
    _isOutput f' = true /\ _isNormal f' = _isNormal f /\
    _isSeekable f' = _isSeekable f /\ _bufferMax f' = _bufferMax f /\
    buffer_ok (record_words v (_isNormal f)) f' /\
    (record_words v (_isNormal f) | _bufferLen f') /\
    emitted f' = wire_all v (_isNormal f) (rs ++ os) /\
    counts_ok (rs ++ os) f' /\
    _olapsPerReadLast f' = _olapsPerReadLast f /\
    (_olapsPerRead f' = None <-> _olapsPerRead f = None) /\
    (0 < _bufferLen f \/ os <> [] -> 0 < _bufferLen f').
Proof.
  induction os as [|o os IH]; intros rs f Ho Hb Hd He Hc Hwf Hids.
  - exists f. rewrite app_nil_r. cbn.
    repeat (split; [solve [reflexivity | assumption | tauto]|]).
    intros [H|H]; [exact H | exfalso; apply H; reflexivity].
  - apply Forall_cons in Hwf. destruct Hwf as [(Ha & Hbi & _) Hwf].
    cbn [writeOverlaps_loop].
    pose proof (writeBuffer_frame false f) as Hf. cbv zeta in Hf.
    destruct Hf as (_ & _ & _ & _ & _ & _ & Hcnt & Hal & Hla).
    set (g := writeBuffer false f) in *.
    assert (Hstep : exists c,
      match _olapsPerRead g with
      | None => Ok g
      | Some counts =>
          counts ← incr (a_iid o) counts;
          counts ← incr (b_iid o) counts;
          Ok (set_olapsPerRead (_olapsPerReadAlloc g) (_olapsPerReadLast g)
                               (Some counts) g)
      end = Ok (set_olapsPerRead (_olapsPerReadAlloc f) (_olapsPerReadLast f) c g)
      /\ (c = None <-> _olapsPerRead f = None)
      /\ counts_ok (rs ++ [o])
           (set_olapsPerRead (_olapsPerReadAlloc f) (_olapsPerReadLast f) c g)).
    { unfold counts_ok in *. rewrite Hcnt. cbn.
      destruct (_olapsPerRead f) as [counts|] eqn:E.
      - destruct Hc as (Hlen & Halloc & Hl & Hmax & Hp).
        specialize (Hids ltac:(discriminate)).
        apply Forall_cons in Hids. destruct Hids as [[Hai Hbii] _].
        unfold is_u32 in *.
        destruct (incr_Ok (fun i => occurrences i rs) (a_iid o) counts
                    ltac:(lia) Hp) as (c2 & -> & Hlen2 & Hp2).
        cbn [mbind result_bind].
        destruct (incr_Ok (fun i => occurrences i rs
                                    + (if a_iid o =? i then 1 else 0))
                    (b_iid o) c2 ltac:(lia) Hp2) as (c3 & -> & Hlen3 & Hp3).
        cbn [mbind result_bind]. rewrite Hal, Hla.
        exists (Some c3). split; [reflexivity|].
        split; [split; discriminate|].
        split; [lia|]. split; [lia|]. split; [lia|].
        split; [rewrite max_id_app; cbn; lia|].
        intros j c Hj. rewrite (Hp3 j c Hj), occurrences_app. cbn. f_equal. lia.
      - exists None. split; [|tauto]. f_equal.
        rewrite <- Hal, <- Hla, <- Hcnt. symmetry. apply set_olapsPerRead_id. }
    destruct Hstep as (c & -> & Hnone & Hc'). cbn [mbind result_bind].
    subst g.
    destruct (write_record v o f (_olapsPerReadAlloc f) (_olapsPerReadLast f) c
                Ho Hb Hd)
      as (f1 & -> & Ho1 & Hn1 & Hs1 & Hm1 & Hb1 & Hd1 & Hpos1 & He1 & Ha1 & Hl1 &
          Hc1 & _ & _).
    cbn [mbind result_bind].
    destruct (IH (rs ++ [o]) f1) as (f' & -> & Ho' & Hn' & Hs' & Hm' & Hb' & Hd' &
                                      He' & Hc'' & Hl' & Hnone' & Hpos').
    + exact Ho1.
    + rewrite Hn1. exact Hb1.
    + rewrite Hn1. exact Hd1.
    + rewrite Hn1, He1, He, wire_all_app, wire_all_one. reflexivity.
    + unfold counts_ok in *. rewrite Hc1, Ha1, Hl1. exact Hc'.
    + exact Hwf.
    + rewrite Hc1, Hl1. intros Hne.
      assert (Hne' : _olapsPerRead f <> None) by tauto.
      specialize (Hids Hne'). apply Forall_cons in Hids. tauto.
    + rewrite Hn1 in *. rewrite <- app_assoc in *. cbn [app] in *.
      exists f'. split; [reflexivity|].
      repeat (split; [congruence || assumption|]).
      split; [rewrite Hc1 in Hnone'; tauto|].
      intros _. apply Hpos'. left. exact Hpos1.
Qed.

(** [writeOverlaps] on a write handle: unless a loop over the count index
    diverges, the call returns and the handle has the batch in addition. *)
Lemma writeOverlaps_spec v rs os f :
  writer_ok v rs f -> Forall (wf_overlap v) os ->
  (writeOverlaps v os f = Fault LoopDiverges /\ _olapsPerRead f <> None /\
   (2 ^ 32 <= Z.of_nat (length os) \/ grow_safe_last < max_id 0 (rs ++ os)))
  \/
  exists f',
    writeOverlaps v os f = Ok f' /\ writer_ok v (rs ++ os) f' /\
    _isNormal f' = _isNormal f /\ _isSeekable f' = _isSeekable f /\
    _bufferMax f' = _bufferMax f /\
    (_olapsPerRead f' = None <-> _olapsPerRead f = None) /\
    (0 < _bufferLen f \/ os <> [] -> 0 < _bufferLen f').
Proof.
  intros (Ho & Hb & Hd & He & Hc & Hlast) Hwf.
  unfold writeOverlaps. rewrite Ho. cbn [assert mbind result_bind].
  assert (Hpre :
    (match _olapsPerRead f with
     | None => Ok f
     | Some counts =>
         if 2 ^ 32 <=? Z.of_nat (length os) then Fault LoopDiverges
         else
           '(newmax, newlast) ←
             scan_batch os (_olapsPerReadAlloc f) (_olapsPerReadLast f);
           let '(counts, alloc) :=
             resizeArray counts (u32 (_olapsPerReadLast f + 1))
                         (_olapsPerReadAlloc f) newmax in
           Ok (set_olapsPerRead alloc newlast (Some counts) f)
     end = Fault LoopDiverges /\ _olapsPerRead f <> None /\
     (2 ^ 32 <= Z.of_nat (length os) \/ grow_safe_last < max_id 0 (rs ++ os)))
    \/
    exists a l c,
      match _olapsPerRead f with
      | None => Ok f
      | Some counts =>
          if 2 ^ 32 <=? Z.of_nat (length os) then Fault LoopDiverges
          else
            '(newmax, newlast) ←
              scan_batch os (_olapsPerReadAlloc f) (_olapsPerReadLast f);
            let '(counts, alloc) :=
              resizeArray counts (u32 (_olapsPerReadLast f + 1))
                          (_olapsPerReadAlloc f) newmax in
            Ok (set_olapsPerRead alloc newlast (Some counts) f)
      end = Ok (set_olapsPerRead a l c f) /\
      counts_ok rs (set_olapsPerRead a l c f) /\
      (c = None <-> _olapsPerRead f = None) /\
      (c <> None -> l = max_id 0 (rs ++ os))).
  { unfold counts_ok in *.
    destruct (_olapsPerRead f) as [counts|] eqn:E.
    2:{ right. exists (_olapsPerReadAlloc f), (_olapsPerReadLast f), None.
        rewrite <- E at 1. rewrite set_olapsPerRead_id. cbn. tauto. }
    destruct Hc as (Hlen & Halloc & Hl & Hmax & Hp).
    specialize (Hlast ltac:(discriminate)).
    destruct (Z.leb_spec (2 ^ 32) (Z.of_nat (length os))) as [Hbig|Hsmall].
    { left. split; [reflexivity|]. split; [discriminate | left; exact Hbig]. }
    rewrite max_id_app, <- Hlast.
    destruct (scan_batch_spec os (_olapsPerReadAlloc f) (_olapsPerReadLast f))
      as [[-> Hs] | (m & -> & Hm & Hgt)]; [lia | lia | |].
    { left. split; [reflexivity|]. split; [discriminate | right; exact Hs]. }
    right. cbn [mbind result_bind].
    rewrite u32_small by (unfold is_u32; lia).
    pose proof (resizeArray_counts rs counts (_olapsPerReadLast f)
                  (_olapsPerReadAlloc f) m Hlen Hl Hmax Hp) as R.
    destruct (resizeArray counts (_olapsPerReadLast f + 1)
                          (_olapsPerReadAlloc f) m) as [counts1 alloc1].
    destruct R as (Hlen1 & Halloc1 & Hp1).
    exists alloc1, (max_id (_olapsPerReadLast f) os), (Some counts1).
    split; [reflexivity|]. cbn.
    pose proof (max_id_ge (_olapsPerReadLast f) os).
    split; [|split; [split; discriminate | reflexivity]].
    split; [lia|]. split; [lia|]. split; [lia|]. split; [lia | exact Hp1]. }
  destruct Hpre as [(-> & Hn & Hwhy) | (a & l & c & -> & Hc1 & Hnone & Hl1)];
    [left; auto|].
  right. cbn [mbind result_bind].
  destruct (writeOverlaps_loop_spec v os rs (set_olapsPerRead a l c f))
    as (f' & -> & Ho' & Hn' & Hs' & Hm' & Hb' & Hd' & He' & Hc' & Hl' & Hnone' & Hpos');
    try assumption.
  { cbn. intros Hne. assert (Hne' : _olapsPerRead f <> None) by tauto.
    rewrite (Hl1 Hne), max_id_app, <- (Hlast Hne'). apply max_id_bounds. }
  cbn in Hn', Hs', Hm', Hb', Hd', He', Hl', Hnone', Hpos'.
  cbn [mbind result_bind].
  destruct Hb' as (Hlen' & Hmax' & Hdiv' & Hle').
  destruct (Z.leb_spec (_bufferLen f') (_bufferMax f')); [|lia].
  cbn [assert mbind result_bind].
  exists f'. split; [reflexivity|].
  split.
  { unfold writer_ok. rewrite Hn'. split; [exact Ho'|].
    split; [repeat split; assumption || lia|]. split; [exact Hd'|].
    split; [exact He'|]. split; [exact Hc'|].
    intros Hne. rewrite Hl'. apply Hl1. tauto. }
  split; [exact Hn'|]. split; [exact Hs'|]. split; [exact Hm'|].
  split; [tauto | exact Hpos'].
Qed.

Lemma writeBuffer_true_len f :
  _isOutput f = true -> _bufferLen (writeBuffer true f) = 0.
Proof.
  intros Ho. unfold writeBuffer. rewrite Ho. cbn.
  destruct (Z.eqb_spec (_bufferLen f) 0); [assumption | reflexivity].
Qed.

(** What the destructor of a write handle writes. *)
Lemma ovFile_dtor_spec v rs f :
  writer_ok v rs f ->
  ovFile_dtor f =
  Ok (wire_all v (_isNormal f) rs,
      match _olapsPerRead f with
      | None => None
      | Some _ =>
          Some (max_id 0 rs + 1 ::
                map (fun i => u32 (occurrences i rs)) (seqZ 0 (max_id 0 rs + 1)))
      end).
Proof.
  intros (Ho & Hb & Hd & He & Hc & Hlast). unfold ovFile_dtor.
  pose proof (writeBuffer_frame true f) as Hf. cbv zeta in Hf.
  destruct Hf as (_ & _ & _ & _ & _ & _ & Hcnt & Hal & Hla).
  pose proof (writeBuffer_emitted true f) as Hem.
  pose proof (writeBuffer_true_len f Ho) as Hz.
  assert (Hw : f_words (_file (writeBuffer true f)) = wire_all v (_isNormal f) rs).
  { rewrite <- He, <- Hem. unfold emitted. rewrite Hz. cbn.
    rewrite take_0, app_nil_r. reflexivity. }
  rewrite Hcnt, Hla, Hw. unfold counts_ok in Hc.
  destruct (_olapsPerRead f) as [counts|]; [|reflexivity].
  destruct Hc as (Hlen & Halloc & Hl & Hmax & Hp).
  specialize (Hlast ltac:(discriminate)).
  rewrite u32_small by (unfold is_u32; lia).
  destruct (Z.leb_spec (_olapsPerReadLast f + 1) (Z.of_nat (length counts)));
    [|lia].
  rewrite <- Hlast. do 4 f_equal.
  apply list_eq. intros j.
  rewrite list_lookup_fmap.
  destruct (decide (j < Z.to_nat (_olapsPerReadLast f + 1))%nat) as [Hj|Hj].
  - rewrite lookup_take_lt by exact Hj.
    rewrite lookup_seqZ_lt by lia. cbn.
    destruct (lookup_lt_is_Some_2 counts j) as [c Hc]; [lia|].
    rewrite Hc, (Hp j c Hc). cbn. repeat f_equal.
  - rewrite lookup_take_ge by lia. rewrite lookup_seqZ_ge by lia. reflexivity.
Qed.

(** A handle opened for writing has been given no record yet. *)
Lemma ovFile_ctor_writer v name type bufferSize :
  is_u32 bufferSize -> is_write type = true ->
  exists f,
    ovFile_ctor v name type bufferSize = Ok f /\ writer_ok v [] f /\
    _isNormal f = is_normal type /\ _bufferMax f = capacity v bufferSize /\
    _bufferLen f = 0 /\ f_words (_file f) = [] /\
    _olapsPerRead f = (if ovFileType_eqb type ovFileFullWrite
                       then Some (zeros (128 * 1024)) else None).
Proof.
  intros Hu Hw.
  destruct (ovFile_ctor_ok v name type bufferSize Hu)
    as (f & Hf & Hlen & Hpos & Hmax & Hbuf & Hout & Hnorm & Hseek & Hfile & Hlast &
        Halloc & Hcnt).
  pose proof (capacity_range v bufferSize Hu) as (Hc0 & Hc4 & _).
  exists f. split; [exact Hf|]. rewrite Hw in *.
  split; [|repeat split; try assumption; rewrite Hfile; reflexivity].
  unfold writer_ok. split; [exact Hout|].
  split.
  { unfold buffer_ok. rewrite Hbuf, Hmax, Hlen, length_zeros, Hnorm.
    unfold is_u32 in Hu.
    split; [lia|]. split; [lia|]. split; [apply capacity_divide | lia]. }
  split; [rewrite Hlen; apply Z.divide_0_r|].
  split; [unfold emitted; rewrite Hfile, Hlen; reflexivity|].
  split; [|intros _; exact Hlast].
  unfold counts_ok. rewrite Hcnt, Halloc, Hlast.
  destruct (ovFileType_eqb type ovFileFullWrite); [|exact I].
  rewrite length_zeros. split; [lia|]. split; [lia|]. split; [lia|].
  split; [cbn; lia|]. intros j c Hj. rewrite (lookup_zeros _ _ _ Hj). reflexivity.
Qed.

(** A sequence of write calls on a write handle: unless a loop over the
    count index diverges, every call returns and the handle has been given
    all their records in order. *)
Lemma write_calls_spec v cs : forall rs f,
  writer_ok v rs f -> Forall (wf_overlap v) (written cs) ->
  (write_calls v cs f = Fault LoopDiverges /\ _olapsPerRead f <> None /\
   (grow_safe_last < max_id 0 (rs ++ written cs) \/
    Exists (fun c => 2 ^ 32 <= Z.of_nat (length (records_of c))) cs))
  \/
  exists f',
    write_calls v cs f = Ok f' /\ writer_ok v (rs ++ written cs) f' /\
    _isNormal f' = _isNormal f /\ _bufferMax f' = _bufferMax f /\
    (_olapsPerRead f' = None <-> _olapsPerRead f = None).
Proof.
  induction cs as [|c cs IH]; intros rs f Hok Hwf.
  - right. exists f. cbn. rewrite app_nil_r. tauto.
  - unfold written in Hwf. cbn [map concat] in Hwf. fold (written cs) in Hwf.
    apply Forall_app in Hwf. destruct Hwf as [Hwf1 Hwf2].
    assert (Hstep :
      (write_calls v (c :: cs) f = Fault LoopDiverges /\ _olapsPerRead f <> None /\
       (grow_safe_last < max_id 0 (rs ++ records_of c) \/
        2 ^ 32 <= Z.of_nat (length (records_of c))))
      \/
      exists f1,
        write_calls v (c :: cs) f = write_calls v cs f1 /\
        writer_ok v (rs ++ records_of c) f1 /\
        _isNormal f1 = _isNormal f /\ _bufferMax f1 = _bufferMax f /\
        (_olapsPerRead f1 = None <-> _olapsPerRead f = None)).
    { destruct c as [o|os]; cbn [write_calls records_of].
      - apply Forall_cons in Hwf1. destruct Hwf1 as [Hwo _].
        destruct (writeOverlap_spec v rs o f Hok Hwo)
          as [(-> & Hs & Hn) | (f1 & -> & Hok1 & Hn1 & _ & Hm1 & _ & Hnone1 & _)].
        + left. cbn. auto.
        + right. exists f1. cbn. auto.
      - destruct (writeOverlaps_spec v rs os f Hok Hwf1)
          as [(-> & Hn & Hwhy) | (f1 & -> & Hok1 & Hn1 & _ & Hm1 & Hnone1 & _)].
        + left. cbn. split; [reflexivity|]. split; [exact Hn|]. tauto.
        + right. exists f1. cbn. auto. }
    unfold written. cbn [map concat]. fold (written cs). rewrite app_assoc.
    destruct Hstep as [(-> & Hn & Hwhy) | (f1 & -> & Hok1 & Hn1 & Hm1 & Hnone1)].
    + left. split; [reflexivity|]. split; [exact Hn|].
      destruct Hwhy as [Hs|Hbig].
      * left. rewrite max_id_app.
        pose proof (max_id_ge (max_id 0 (rs ++ records_of c)) (written cs)). lia.
      * right. apply Exists_cons. left. exact Hbig.
    + destruct (IH _ f1 Hok1 Hwf2)
        as [(-> & Hn & Hwhy) | (f' & -> & Hok' & Hn' & Hm' & Hnone')].
      * left. split; [reflexivity|]. split; [tauto|].
        destruct Hwhy as [Hs|Hbig]; [left; exact Hs|].
        right. apply Exists_cons. right. exact Hbig.
      * right. exists f'. split; [reflexivity|]. split; [exact Hok'|].
        split; [congruence|]. split; [congruence | tauto].
Qed.

(** ** Reading *)

Lemma take_drop_length_take {A} (n : nat) (l : list A) :
  take n l ++ drop (length (take n l)) l = l.
Proof.
  rewrite length_take. destruct (Nat.le_ge_cases n (length l)).
  - rewrite Nat.min_l by assumption. apply take_drop.
  - rewrite Nat.min_r by assumption.
    rewrite take_ge, drop_ge by lia. apply app_nil_r.
Qed.

Lemma unread_alt f :
  0 <= _bufferPos f -> 0 <= _bufferLen f ->
  unread f =
  drop (Z.to_nat (_bufferPos f)) (take (Z.to_nat (_bufferLen f)) (_buffer f))
  ++ drop (Z.to_nat (f_pos (_file f) / sizeof_uint32)) (f_words (_file f)).
Proof.
  intros Hp Hl. unfold unread.
  destruct (Z.ltb_spec (_bufferPos f) (_bufferLen f)); [reflexivity|].
  rewrite (drop_ge (take _ _)); [reflexivity|]. rewrite length_take. lia.
Qed.

Lemma readBuffer_cases f :
  (_bufferPos f < _bufferLen f /\ readBuffer f = f) \/
  (_bufferLen f <= _bufferPos f /\
   readBuffer f =
   let got := take (Z.to_nat (_bufferMax f))
                (drop (Z.to_nat (f_pos (_file f) / sizeof_uint32))
                      (f_words (_file f))) in
   set_bufferLen (Z.of_nat (length got))
     (set_buffer (got ++ drop (length got) (_buffer f))
        (set_file (mkFILE (f_words (_file f))
                     (f_pos (_file f) + sizeof_uint32 * Z.of_nat (length got)))
           (set_bufferPos 0 f)))).
Proof.
  unfold readBuffer.
  destruct (Z.ltb_spec (_bufferPos f) (_bufferLen f)); [left; auto|].
  right. split; [assumption | reflexivity].
Qed.

Lemma divide_min w a b : (w | a) -> (w | b) -> (w | Z.min a b).
Proof. intros Ha Hb. destruct (Z.min_spec a b) as [[_ ->]|[_ ->]]; assumption. Qed.

(** [readBuffer] keeps a read handle a read handle and delivers the same
    words; its buffer is empty afterwards exactly at the end of the data. *)
Lemma readBuffer_ok v f :
  reader_ok v f ->
  let g := readBuffer f in
  reader_ok v g /\ unread g = unread f /\
  (stream_ok v f -> stream_ok v g) /\
  _isNormal g = _isNormal f /\ _isSeekable g = _isSeekable f /\
  _bufferMax g = _bufferMax f /\
  f_words (_file g) = f_words (_file f) /\
  (_bufferLen g = 0 <-> unread f = []) /\
  (0 < _bufferLen g -> _bufferPos g < _bufferLen g).
Proof.
  intros H. pose proof H as (Ho & (Hlen & Hmax & Hdiv & Hl) & Hp & Hal & Hfp).
  cbv zeta.
  destruct (readBuffer_cases f) as [[Hlt ->] | [Hge ->]].
  - split; [exact H|]. split; [reflexivity|].
    split; [auto|]. repeat (split; [reflexivity|]).
    split; [|auto]. split; [lia|].
    intros Hu. rewrite unread_alt in Hu by lia.
    apply (f_equal length) in Hu. rewrite length_app, length_drop, length_take in Hu.
    cbn in Hu. lia.
  - cbv zeta.
    set (fp := drop (Z.to_nat (f_pos (_file f) / sizeof_uint32)) (f_words (_file f))).
    set (got := take (Z.to_nat (_bufferMax f)) fp).
    assert (Hn : length got = Nat.min (Z.to_nat (_bufferMax f)) (length fp))
      by apply length_take.
    assert (Hfp' : drop (Z.to_nat ((f_pos (_file f)
                      + sizeof_uint32 * Z.of_nat (length got)) / sizeof_uint32))
                     (f_words (_file f)) = drop (length got) fp).
    { unfold fp. rewrite drop_drop. f_equal.
      rewrite (Z.mul_comm sizeof_uint32), Z.div_add by (unfold sizeof_uint32; lia).
      assert (0 <= f_pos (_file f) / sizeof_uint32)
        by (apply Z.div_pos; unfold sizeof_uint32; lia).
      lia. }
    assert (Hun : unread f = fp).
    { rewrite unread_alt by lia. rewrite (drop_ge (take _ _)); [reflexivity|].
      rewrite length_take. lia. }
    split.
    { unfold reader_ok, buffer_ok. cbn.
      split; [exact Ho|]. split.
      - rewrite length_app, length_drop. repeat split; try assumption; lia.
      - split; [lia|]. split; [intros _; apply Z.divide_0_r|].
        unfold sizeof_uint32. lia. }
    split.
    { rewrite Hun. unfold unread. cbn. rewrite Hfp'.
      destruct (Z.ltb_spec 0 (Z.of_nat (length got))).
      - rewrite Nat2Z.id, drop_0, take_app_length. apply take_drop_length_take.
      - pose proof (take_drop_length_take (Z.to_nat (_bufferMax f)) fp) as E.
        fold got in E.
        assert (Hg : got = []) by (apply nil_length_inv; lia).
        rewrite Hg in E |- *. exact E. }
    split.
    { intros [_ Hs]. fold fp in Hs. unfold stream_ok. cbn. rewrite Hfp'.
      split.
      - intros _. rewrite Hn, Nat2Z.inj_min, Z2Nat.id by lia.
        apply divide_min; assumption.
      - rewrite length_drop, Hn.
        destruct (Nat.le_ge_cases (Z.to_nat (_bufferMax f)) (length fp)).
        + rewrite Nat.min_l by assumption.
          rewrite Nat2Z.inj_sub, Z2Nat.id by lia.
          apply Z.divide_sub_r; assumption.
        + rewrite Nat.min_r by assumption. rewrite Nat.sub_diag.
          apply Z.divide_0_r. }
    cbn. repeat (split; [reflexivity|]).
    split; [|lia]. rewrite Hun. split.
    + intros Hz. destruct fp; [reflexivity|]. cbn in Hn. lia.
    + intros E. rewrite Hn, E. cbn. lia.
Qed.

(** Decoding a record out of a buffer that holds [w] more words. *)
Lemma decode_overlap_Ok v o g :
  let w := record_words v (_isNormal g) in
  buffer_ok w g -> 0 <= _bufferPos g -> _bufferPos g + w <= _bufferMax g ->
  decode_overlap v (o, g) =
  Ok (decode_words v (_isNormal g) o
        (take (Z.to_nat w) (drop (Z.to_nat (_bufferPos g)) (_buffer g))),
      set_bufferPos (_bufferPos g + w) g).
Proof.
  intros w (Hlen & Hmax & Hdiv & Hl) Hp Hroom.
  pose proof (record_words_pos v (_isNormal g)) as Hw. fold w in Hw.
  rewrite decode_overlap_pops. fold w.
  rewrite (pops_Ok _ g (Z.to_nat (_bufferPos g))) by lia.
  cbn [mbind result_bind]. do 2 f_equal. f_equal. lia.
Qed.

(** The three ways a call of [readOverlap] on a read handle can go: end of
    data, a record delivered, or a buffer that ends inside a record. *)
Lemma readOverlap_cases v o f :
  reader_ok v f ->
  let w := record_words v (_isNormal f) in
  let g := readBuffer f in
  (unread f = [] /\ readOverlap v o f = Ok (false, o, g) /\
   reader_ok v g /\ unread g = [] /\ (stream_ok v f -> stream_ok v g))
  \/
  (_bufferPos g + w <= _bufferLen g /\
   w <= Z.of_nat (length (unread f)) /\
   readOverlap v o f =
     Ok (true, decode_words v (_isNormal f) o (take (Z.to_nat w) (unread f)),
         set_bufferPos (_bufferPos g + w) g) /\
   reader_ok v (set_bufferPos (_bufferPos g + w) g) /\
   unread (set_bufferPos (_bufferPos g + w) g) = drop (Z.to_nat w) (unread f) /\
   (stream_ok v f -> stream_ok v (set_bufferPos (_bufferPos g + w) g)))
  \/
  (_bufferPos g < _bufferLen g < _bufferPos g + w /\
   readOverlap v o f = Fault AssertionFailure).
Proof.
  intros H. cbv zeta.
  pose proof (record_words_pos v (_isNormal f)) as Hw.
  destruct (readBuffer_ok v f H)
    as (Hg & Hun & Hst & Hnorm & Hseek & Hmaxg & Hwords & Hzero & Hposlt).
  unfold readOverlap. destruct H as (Ho & _). rewrite Ho.
  cbn [negb assert mbind result_bind].
  set (g := readBuffer f) in *.
  pose proof Hg as (Hog & (Hlen & Hmax & Hdiv & Hl) & Hp & Hal & Hfp).
  pose proof (proj1 (proj2 Hg)) as Hbg.
  rewrite Hnorm in Hdiv, Hal.
  destruct (Z.eqb_spec (_bufferLen g) 0) as [Hz|Hnz].
  { left. split; [tauto|]. split; [reflexivity|]. split; [exact Hg|].
    split; [rewrite Hun; tauto | exact Hst]. }
  right. specialize (Hposlt ltac:(lia)). specialize (Hal Hposlt).
  destruct (Z.ltb_spec (_bufferPos g) (_bufferLen g)); [|lia].
  cbn [assert mbind result_bind].
  assert (Hroom : _bufferPos g + record_words v (_isNormal f) <= _bufferMax g).
  { apply divide_room; [lia | assumption | assumption | lia]. }
  rewrite (decode_overlap_Ok v o g);
    [| exact Hbg | exact Hp | rewrite Hnorm; exact Hroom].
  rewrite Hnorm.
  cbn [mbind result_bind]. cbn [_bufferPos _bufferLen set_bufferPos].
  destruct (Z.leb_spec (_bufferPos g + record_words v (_isNormal f)) (_bufferLen g))
    as [Hfit|Hcut]; cbn [assert mbind result_bind]; [left | right; split; [lia | reflexivity]].
  assert (Hu : unread g =
    drop (Z.to_nat (_bufferPos g)) (take (Z.to_nat (_bufferLen g)) (_buffer g))
    ++ drop (Z.to_nat (f_pos (_file g) / sizeof_uint32)) (f_words (_file g)))
    by (apply unread_alt; lia).
  assert (Hfirst : (Z.to_nat (record_words v (_isNormal f))
                    <= length (drop (Z.to_nat (_bufferPos g))
                                    (take (Z.to_nat (_bufferLen g)) (_buffer g))))%nat).
  { rewrite length_drop, length_take. lia. }
  split; [exact Hfit|].
  split; [rewrite <- Hun, Hu, length_app; lia|].
  split.
  { do 3 f_equal. rewrite <- Hun, Hu.
    rewrite take_app_le by exact Hfirst.
    replace (Z.to_nat (_bufferLen g))
      with (Z.to_nat (_bufferPos g) + Z.to_nat (_bufferLen g - _bufferPos g))%nat
      by lia.
    rewrite <- take_drop_commute, take_take. do 2 f_equal. lia. }
  split.
  { unfold reader_ok, buffer_ok. cbn. rewrite Hnorm.
    repeat split; try assumption; try lia.
    intros _. apply Z.divide_add_r; [assumption | apply Z.divide_refl]. }
  split.
  { rewrite <- Hun, Hu. rewrite unread_alt by (cbn; lia). cbn.
    rewrite drop_app_le by exact Hfirst. rewrite drop_drop.
    do 2 f_equal. lia. }
  intros Hs. destruct (Hst Hs) as [Hs1 Hs2]. unfold stream_ok. cbn.
  rewrite Hnorm in *. split; [intros _; apply Hs1; assumption | exact Hs2].
Qed.

(** [readOverlap] on a handle over whole records that has a record left. *)
Lemma readOverlap_record v o f ws rest :
  reader_ok v f -> stream_ok v f ->
  unread f = ws ++ rest ->
  Z.of_nat (length ws) = record_words v (_isNormal f) ->
  exists f',
    readOverlap v o f = Ok (true, decode_words v (_isNormal f) o ws, f') /\
    reader_ok v f' /\ stream_ok v f' /\ unread f' = rest /\
    _isNormal f' = _isNormal f /\ _isSeekable f' = _isSeekable f /\
    _bufferMax f' = _bufferMax f /\
    f_words (_file f') = f_words (_file f).
Proof.
  intros H Hs Hu Hlw.
  pose proof (record_words_pos v (_isNormal f)) as Hw.
  destruct (readBuffer_ok v f H)
    as (Hg & _ & Hst & Hnorm & Hseek & Hmaxg & Hwords & _ & _).
  destruct (readOverlap_cases v o f H)
    as [(He & _) | [(Hfit & Hlen & -> & Hok & Hun & Hso) | ([Hlt Hcut] & _)]].
  - rewrite Hu in He. apply (f_equal length) in He.
    rewrite length_app in He. cbn in He. lia.
  - eexists. split.
    { do 3 f_equal. rewrite Hu, take_app_length'; [reflexivity | lia]. }
    split; [exact Hok|]. split; [exact (Hso Hs)|].
    split; [rewrite Hun, Hu, drop_app_length'; [reflexivity | lia]|].
    cbn. auto.
  - exfalso. destruct (Hst Hs) as [Hs1 _].
    destruct Hg as (_ & (_ & _ & _ & _) & _ & Hal & _).
    rewrite Hnorm in *.
    assert (H0 : 0 < record_words v (_isNormal f)) by lia.
    pose proof (divide_room _ _ _ H0 (Hal Hlt) (Hs1 Hlt) Hlt). lia.
Qed.

(** [readOverlap] at the end of the data. *)
Lemma readOverlap_eof v o f :
  reader_ok v f -> unread f = [] ->
  exists f',
    readOverlap v o f = Ok (false, o, f') /\ reader_ok v f' /\ unread f' = [] /\
    (stream_ok v f -> stream_ok v f') /\
    _isNormal f' = _isNormal f /\ _isSeekable f' = _isSeekable f /\
    _bufferMax f' = _bufferMax f /\ f_words (_file f') = f_words (_file f).
Proof.
  intros H Hu.
  destruct (readBuffer_ok v f H)
    as (Hg & _ & Hst & Hnorm & Hseek & Hmaxg & Hwords & _ & _).
  pose proof (record_words_pos v (_isNormal f)) as Hw.
  destruct (readOverlap_cases v o f H)
    as [(_ & -> & Hok & Hun & Hso) | [(_ & Hlen & _) | ([Hlt Hcut] & _)]].
  - eexists. split; [reflexivity|]. auto 10.
  - rewrite Hu in Hlen. cbn in Hlen. lia.
  - exfalso. destruct (readBuffer_ok v f H) as (_ & _ & _ & _ & _ & _ & _ & Hz & _).
    apply Hz in Hu. destruct Hg as (_ & _ & Hp & _). lia.
Qed.

(** A handle opened for reading delivers the words of the file. *)
Lemma ovFile_ctor_reader v name type bufferSize :
  is_u32 bufferSize -> is_write type = false ->
  exists f,
    ovFile_ctor v name type bufferSize = Ok f /\ reader_ok v f /\
    unread f = n_words name /\
    ((record_words v (is_normal type) | Z.of_nat (length (n_words name))) ->
     stream_ok v f) /\
    _isNormal f = is_normal type /\
    _isSeekable f = negb (n_isCompressed name) /\
    _bufferMax f = capacity v bufferSize /\
    f_words (_file f) = n_words name.
Proof.
  intros Hu Hw.
  destruct (ovFile_ctor_ok v name type bufferSize Hu)
    as (f & Hf & Hlen & Hpos & Hmax & Hbuf & Hout & Hnorm & Hseek & Hfile & _).
  pose proof (capacity_range v bufferSize Hu) as (Hc0 & Hc4 & _).
  rewrite Hw in *. unfold is_u32 in Hu.
  exists f. split; [exact Hf|].
  split.
  { unfold reader_ok, buffer_ok.
    rewrite Hout, Hbuf, Hmax, Hlen, Hpos, Hnorm, Hfile, length_zeros. cbn.
    repeat split; try lia. apply capacity_divide. }
  split; [unfold unread; rewrite Hpos, Hlen, Hfile; cbn;
          destruct (Z.ltb_spec (capacity v bufferSize) 0); [lia | reflexivity]|].
  split.
  { intros Hd. unfold stream_ok. rewrite Hpos, Hlen, Hnorm, Hfile. cbn.
    split; [lia | exact Hd]. }
  rewrite Hfile. cbn. auto.
Qed.

(** One round of the loop of [readOverlaps] is a call of [readOverlap]. *)
Lemma readOverlaps_loop_cons v o rest f :
  _isOutput f = false ->
  readOverlaps_loop v (o :: rest) f =
  '(b, o', f') ← readOverlap v o f;
  if (b : bool)
  then '(rest', n, f'') ← readOverlaps_loop v rest f'; Ok (o' :: rest', n + 1, f'')
  else Ok (o :: rest, 0, f').
Proof.
  intros Ho. cbn [readOverlaps_loop]. unfold readOverlap. rewrite Ho.
  cbn [negb assert mbind result_bind].
  destruct (_bufferLen (readBuffer f) =? 0); [reflexivity|].
  destruct (assert (_bufferPos (readBuffer f) <? _bufferLen (readBuffer f)));
    [|reflexivity].
  cbn [mbind result_bind].
  destruct (decode_overlap v (o, readBuffer f)) as [[o' f']|]; [|reflexivity].
  cbn [mbind result_bind].
  destruct (assert (_bufferPos f' <=? _bufferLen f')); reflexivity.
Qed.

Lemma merge_all_cons normal d ds r rs :
  merge_all normal (d :: ds) (r :: rs) = merge normal d r :: merge_all normal ds rs.
Proof. reflexivity. Qed.

Lemma length_merge_all normal ds rs :
  length (merge_all normal ds rs) = length ds.
Proof.
  unfold merge_all. rewrite length_app, length_zip_with, length_drop. lia.
Qed.

(** [readOverlaps] on a handle whose unread words are the records [rs]:
    the array is filled with as many of them as it can hold. *)
Lemma readOverlaps_loop_spec v : forall ds rs f,
  reader_ok v f -> stream_ok v f ->
  unread f = wire_all v (_isNormal f) rs ->
  Forall (wf_overlap v) rs ->
  Forall (fun d => length (dat d) = ovOverlapNWORDS v) ds ->
  exists f',
    readOverlaps_loop v ds f
    = Ok (merge_all (_isNormal f) ds rs,
          Z.of_nat (Nat.min (length ds) (length rs)), f') /\
    reader_ok v f' /\ stream_ok v f' /\
    unread f' = wire_all v (_isNormal f) (drop (length ds) rs) /\
    _isNormal f' = _isNormal f /\ _isSeekable f' = _isSeekable f /\
    f_words (_file f') = f_words (_file f).
Proof.
  induction ds as [|d ds IH]; intros rs f H Hs Hu Hwf Hds.
  - exists f. unfold merge_all. rewrite drop_nil. cbn. auto 10.
  - pose proof H as (Ho & _). rewrite (readOverlaps_loop_cons v d ds f Ho).
    apply Forall_cons in Hds. destruct Hds as [Hd Hds].
    destruct rs as [|r rs].
    + destruct (readOverlap_eof v d f H Hu)
        as (f' & -> & H' & Hu' & Hs' & Hn' & Hk' & _ & Hw').
      cbn [mbind result_bind]. exists f'. unfold merge_all. cbn.
      split; [reflexivity|]. auto 10.
    + apply Forall_cons in Hwf. destruct Hwf as [Hr Hwf].
      change (r :: rs) with ([r] ++ rs) in Hu.
      rewrite wire_all_app, wire_all_one in Hu.
      destruct (readOverlap_record v d f _ _ H Hs Hu)
        as (f1 & -> & H1 & Hs1 & Hu1 & Hn1 & Hk1 & _ & Hw1).
      { rewrite length_map. apply length_wire. }
      cbn [mbind result_bind].
      rewrite <- Hn1 in Hu1.
      destruct (IH rs f1 H1 Hs1 Hu1 Hwf Hds)
        as (f' & -> & H' & Hs' & Hu' & Hn' & Hk' & Hw').
      cbn [mbind result_bind]. rewrite Hn1 in *.
      exists f'. rewrite merge_all_cons, decode_words_wire by assumption.
      split; [do 3 f_equal; cbn [length]; lia|].
      cbn [length drop].
      split; [exact H'|]. split; [exact Hs'|]. split; [exact Hu'|].
      split; [exact Hn'|]. split; congruence.
Qed.

(** ** Whole sessions *)

(** Open for writing, write, close: unless a loop over the count index
    diverges, the overlap file holds the records in order and the counts
    file, if any, the header and one count per identifier. *)
Lemma write_session_spec v name type bufferSize cs :
  is_u32 bufferSize -> is_write type = true ->
  Forall (wf_overlap v) (written cs) ->
  (write_session v name type bufferSize cs = Fault LoopDiverges /\
   type = ovFileFullWrite /\
   (grow_safe_last < max_id 0 (written cs) \/
    Exists (fun c => 2 ^ 32 <= Z.of_nat (length (records_of c))) cs))
  \/
  write_session v name type bufferSize cs =
  Ok (wire_all v (is_normal type) (written cs),
      if ovFileType_eqb type ovFileFullWrite
      then Some (max_id 0 (written cs) + 1 ::
                 map (fun i => u32 (occurrences i (written cs)))
                     (seqZ 0 (max_id 0 (written cs) + 1)))
      else None).
Proof.
  intros Hu Hw Hwf. unfold write_session.
  destruct (ovFile_ctor_writer v name type bufferSize Hu Hw)
    as (f & -> & Hok & Hn & _ & _ & _ & Hc).
  cbn [mbind result_bind].
  destruct (write_calls_spec v cs [] f Hok Hwf)
    as [(-> & Hne & Hwhy) | (f' & -> & Hok' & Hn' & _ & Hnone)].
  - left. split; [reflexivity|]. split; [|exact Hwhy].
    rewrite Hc in Hne. destruct type; cbn in Hne; congruence.
  - right. cbn [mbind result_bind app] in *.
    rewrite (ovFile_dtor_spec v _ f' Hok'), Hn', Hn. do 2 f_equal.
    rewrite Hc in Hnone.
    destruct (ovFileType_eqb type ovFileFullWrite), (_olapsPerRead f');
      try reflexivity; exfalso; destruct Hnone as [H1 H2];
      first [discriminate (H1 eq_refl) | discriminate (H2 eq_refl)].
Qed.

(** Open for reading a file that holds the records [rs], fill the array
    [ds]: as many records as the array or the file has are delivered. *)
Lemma read_session_spec v type bufferSize rs ds :
  is_u32 bufferSize -> is_write type = false ->
  Forall (wf_overlap v) rs ->
  Forall (fun d => length (dat d) = ovOverlapNWORDS v) ds ->
  read_session v (wire_all v (is_normal type) rs) type bufferSize ds
  = Ok (merge_all (is_normal type) ds rs,
        Z.of_nat (Nat.min (length ds) (length rs))).
Proof.
  intros Hu Hw Hwf Hds. unfold read_session.
  destruct (ovFile_ctor_reader v (mkNamed (wire_all v (is_normal type) rs) false)
              type bufferSize Hu Hw)
    as (f & -> & Hok & Hun & Hs & Hn & _ & _ & _).
  cbn [mbind result_bind]. cbn [n_words] in *.
  unfold readOverlaps. destruct Hok as (Ho & Hrest). rewrite Ho.
  cbn [negb assert mbind result_bind].
  destruct (readOverlaps_loop_spec v ds rs f) as (f' & -> & _);
    [exact (conj Ho Hrest) | | rewrite Hn; exact Hun | exact Hwf | exact Hds |].
  - apply Hs. rewrite length_wire_all. apply Z.divide_factor_r.
  - cbn [mbind result_bind]. rewrite Hn. reflexivity.
Qed.

Lemma merge_all_full ds rs :
  length ds = length rs -> merge_all false ds rs = rs.
Proof.
  unfold merge_all, merge. revert rs.
  induction ds as [|d ds IH]; intros [|r rs] Hl; try discriminate Hl;
    [reflexivity|].
  cbn. f_equal. apply IH. cbn in Hl. lia.
Qed.

Lemma merge_all_normal ds rs :
  length ds = length rs ->
  merge_all true ds rs
  = zip_with (fun d r => mkOverlap (a_iid d) (b_iid r) (dat r)) ds rs.
Proof.
  intros Hl. unfold merge_all, merge.
  rewrite drop_ge by lia. apply app_nil_r.
Qed.

(** ** Sessions in the file system *)

Lemma put_file_eq name ws fs : put_file name ws fs name = Some ws.
Proof. unfold put_file. rewrite decide_True; reflexivity. Qed.

Lemma put_file_ne name ws fs q : q <> name -> put_file name ws fs q = fs q.
Proof. intros H. unfold put_file. rewrite decide_False; [reflexivity | exact H]. Qed.

(** Open the file [name] for writing, write, close: unless a loop over the
    count index diverges, [name] holds the records in order and then, for
    a handle with a count index, the counts file holds the header and one
    count per identifier. *)
Lemma write_session_at_spec v fs name compressed type bufferSize cs :
  is_u32 bufferSize -> is_write type = true ->
  Forall (wf_overlap v) (written cs) ->
  (write_session_at v fs name compressed type bufferSize cs
   = Fault LoopDiverges /\
   type = ovFileFullWrite /\
   (grow_safe_last < max_id 0 (written cs) \/
    Exists (fun c => 2 ^ 32 <= Z.of_nat (length (records_of c))) cs))
  \/
  write_session_at v fs name compressed type bufferSize cs
  = Ok (files_written v fs name type (written cs)).
Proof.
  intros Hu Hw Hwf. unfold write_session_at, ovFile_ctor_at, open_named.
  rewrite Hw. cbn [mbind result_bind].
  destruct (ovFile_ctor_writer v (mkNamed [] compressed) type bufferSize Hu Hw)
    as (f & -> & Hok & Hn & _ & _ & _ & Hc).
  cbn [mbind result_bind].
  destruct (write_calls_spec v cs [] f Hok Hwf)
    as [(-> & Hne & Hwhy) | (f' & -> & Hok' & Hn' & _ & Hnone)].
  - left. split; [reflexivity|]. split; [|exact Hwhy].
    rewrite Hc in Hne. destruct type; cbn in Hne; congruence.
  - right. cbn [mbind result_bind app] in *.
    unfold ovFile_dtor_at. rewrite (ovFile_dtor_spec v _ f' Hok').
    cbn [mbind result_bind].
    pose proof Hok' as (-> & _). rewrite Hn', Hn.
    unfold files_written, counts_file_name. rewrite Hc in Hnone.
    destruct (ovFileType_eqb type ovFileFullWrite), (_olapsPerRead f');
      try reflexivity; exfalso; destruct Hnone as [H1 H2];
      first [discriminate (H1 eq_refl) | discriminate (H2 eq_refl)].
Qed.

Lemma write_session_at_returns v fs name compressed type bufferSize cs :
  is_u32 bufferSize -> is_write type = true ->
  Forall (wf_overlap v) (written cs) ->
  type <> ovFileFullWrite \/
  (max_id 0 (written cs) <= grow_safe_last /\
   Forall (fun c => Z.of_nat (length (records_of c)) < 2 ^ 32) cs) ->
  write_session_at v fs name compressed type bufferSize cs
  = Ok (files_written v fs name type (written cs)).
Proof.
  intros Hu Hw Hwf Hsafe.
  destruct (write_session_at_spec v fs name compressed type bufferSize cs
              Hu Hw Hwf)
    as [(_ & Ht & Hwhy) | ->]; [|reflexivity].
  exfalso. destruct Hsafe as [Hne | [Hm Hl]]; [contradiction|].
  destruct Hwhy as [Hs | Hbig]; [lia|].
  apply Exists_exists in Hbig. destruct Hbig as (c & Hin & Hc).
  rewrite Forall_forall in Hl. specialize (Hl c Hin). lia.
Qed.

(** Open for reading the file [name], which holds the records [rs], and
    fill the array [ds]: as many records as the array or the file has are
    delivered. *)
Lemma read_session_at_spec v fs name compressed type bufferSize rs ds :
  is_u32 bufferSize -> is_write type = false ->
  Forall (wf_overlap v) rs ->
  Forall (fun d => length (dat d) = ovOverlapNWORDS v) ds ->
  fs name = Some (wire_all v (is_normal type) rs) ->
  read_session_at v fs name compressed type bufferSize ds
  = Ok (merge_all (is_normal type) ds rs,
        Z.of_nat (Nat.min (length ds) (length rs))).
Proof.
  intros Hu Hw Hwf Hds Hfs.
  unfold read_session_at, ovFile_ctor_at, open_named.
  rewrite Hw, Hfs. cbn [mbind result_bind].
  destruct (ovFile_ctor_reader v
              (mkNamed (wire_all v (is_normal type) rs) compressed)
              type bufferSize Hu Hw)
    as (f & -> & Hok & Hun & Hs & Hn & _ & _ & _).
  cbn [mbind result_bind]. cbn [n_words] in *.
  unfold readOverlaps. destruct Hok as (Ho & Hrest). rewrite Ho.
  cbn [negb assert mbind result_bind].
  destruct (readOverlaps_loop_spec v ds rs f) as (f' & -> & _);
    [exact (conj Ho Hrest) | | rewrite Hn; exact Hun | exact Hwf | exact Hds |].
  - apply Hs. rewrite length_wire_all. apply Z.divide_factor_r.
  - cbn [mbind result_bind]. rewrite Hn. reflexivity.
Qed.

(** ** Round trip *)

Lemma reader_of_facts type :
  is_write (reader_of type) = false /\
  is_normal (reader_of type) = is_normal type.
Proof. destruct type; split; reflexivity. Qed.

Lemma write_session_returns v name type bufferSize cs :
  is_u32 bufferSize -> is_write type = true ->
  Forall (wf_overlap v) (written cs) ->
  type <> ovFileFullWrite \/
  (max_id 0 (written cs) <= grow_safe_last /\
   Forall (fun c => Z.of_nat (length (records_of c)) < 2 ^ 32) cs) ->
  exists ws counts, write_session v name type bufferSize cs = Ok (ws, counts).
Proof.
  intros Hu Hw Hwf Hsafe.
  destruct (write_session_spec v name type bufferSize cs Hu Hw Hwf)
    as [(_ & Ht & Hwhy) | ->]; [|eauto].
  exfalso. destruct Hsafe as [Hne | [Hm Hl]]; [contradiction|].
  destruct Hwhy as [Hs | Hbig]; [lia|].
  apply Exists_exists in Hbig. destruct Hbig as (c & Hin & Hc).
  rewrite Forall_forall in Hl. specialize (Hl c Hin). lia.
Qed.

Ltac solve_is_u32 := unfold is_u32; lia.

Ltac solve_wf :=
  repeat first
    [ apply Forall_nil_2
    | apply Forall_cons_2
    | split ];
  cbn; try reflexivity; try solve_is_u32; try lia.


(** C1, as stated, fails for the normal variant: [a_iid] is not on the
    wire, so a record written to the file [ovl] with [a_iid = 7] comes
    back from that file with the [a_iid] the caller's record had, here 0. *)
Lemma roundtrip_normal_drops_a_iid :
  let name := ["o"; "v"; "l"]%char in
  match write_session_at NWORDS3 (fun _ => None) name false ovFileNormalWrite 0
          [WriteBatch [mkOverlap 7 9 [1; 2; 3]]] with
  | Ok fs =>
      read_session_at NWORDS3 fs name false ovFileNormal 0
        [mkOverlap 0 0 [0; 0; 0]]
      = Ok ([mkOverlap 0 9 [1; 2; 3]], 1) /\
      [mkOverlap 0 9 [1; 2; 3]] <> [mkOverlap 7 9 [1; 2; 3]]
  | Fault _ => False
  end.
Proof. vm_compute. split; [reflexivity | discriminate]. Qed.

(** C1, amended.  Records written to the file [name] through
    [writeOverlaps] (or [writeOverlap]) on a write handle, the handle
    destroyed, and read back from [name] by [readOverlaps] on a read handle
    of the same variant into an array of as many records: for the full
    variant the records read are the records written, element for element,
    the 64-bit payload words being split in two wire words and joined
    again; for the normal variant [b_iid] and the payload are those written
    and [a_iid], which is not on the wire, is the one the caller's array
    had.  This is for a file the destructor does not write the counts
    into: the handle has no count index, or [name] is not the name
    [<_prefix>.counts] of its counts file.  The write returns for every
    handle without a count index, and with one whenever no identifier
    exceeds [grow_safe_last] and every batch has fewer than [2 ^ 32]
    records. *)
Theorem write_read_roundtrip v fs name compressed wtype bufferSize bufferSize'
        cs ds :
  is_u32 bufferSize -> is_u32 bufferSize' -> is_write wtype = true ->
  Forall (wf_overlap v) (written cs) ->
  Forall (fun d => length (dat d) = ovOverlapNWORDS v) ds ->
  length ds = length (written cs) ->
  (wtype = ovFileFullWrite -> counts_file_name name <> name) ->
  (forall fs',
     write_session_at v fs name compressed wtype bufferSize cs = Ok fs' ->
     read_session_at v fs' name compressed (reader_of wtype) bufferSize' ds
     = Ok (if is_normal wtype
           then zip_with (fun d r => mkOverlap (a_iid d) (b_iid r) (dat r))
                         ds (written cs)
           else written cs,
           Z.of_nat (length (written cs)))) /\
  (wtype <> ovFileFullWrite \/
   (max_id 0 (written cs) <= grow_safe_last /\
    Forall (fun c => Z.of_nat (length (records_of c)) < 2 ^ 32) cs) ->
   exists fs',
     write_session_at v fs name compressed wtype bufferSize cs = Ok fs').
Proof.
  intros Hu Hu' Hw Hwf Hds Hlen Hname.
  split;
    [|intros Hsafe; eexists;
      apply write_session_at_returns; assumption].
  intros fs' Hs.
  destruct (write_session_at_spec v fs name compressed wtype bufferSize cs
              Hu Hw Hwf)
    as [(Hf & _) | Hok]; [congruence|].
  rewrite Hok in Hs. injection Hs as <-.
  destruct (reader_of_facts wtype) as [Hrw Hrn].
  assert (Hfile : files_written v fs name wtype (written cs) name
                  = Some (wire_all v (is_normal (reader_of wtype)) (written cs))).
  { rewrite Hrn. unfold files_written.
    destruct (ovFileType_eqb wtype ovFileFullWrite) eqn:Et.
    - rewrite put_file_ne; [apply put_file_eq|].
      intros Heq. apply Hname; [|symmetry; exact Heq].
      destruct wtype; try discriminate Et; reflexivity.
    - apply put_file_eq. }
  rewrite (read_session_at_spec v _ name compressed (reader_of wtype)
             bufferSize' (written cs) ds Hu' Hrw Hwf Hds Hfile).
  rewrite Hlen, Nat.min_id, Hrn. f_equal. f_equal.
  destruct (is_normal wtype);
    [apply merge_all_normal | apply merge_all_full]; exact Hlen.
Qed.

Lemma write_read_roundtrip_witness :
  let name := ["r"; "."; "o"; "v"; "b"]%char in
  let rs := [mkOverlap 7 9 [2 ^ 63 + 5; 3; 2 ^ 40]; mkOverlap 1 5 [1; 2; 3]] in
  let ds := [mkOverlap 0 0 [0; 0; 0]; mkOverlap 0 0 [0; 0; 0]] in
  (forall fs',
     write_session_at NWORDS3 (fun _ => None) name false ovFileFullWrite 0
       [WriteBatch rs] = Ok fs' ->
     read_session_at NWORDS3 fs' name false ovFileFull 0 ds = Ok (rs, 2)) /\
  (exists fs',
     write_session_at NWORDS3 (fun _ => None) name false ovFileFullWrite 0
       [WriteBatch rs] = Ok fs').
Proof.
  intros name rs ds.
  assert (Hu : is_u32 0) by solve_is_u32.
  assert (Hwf : Forall (wf_overlap NWORDS3) (written [WriteBatch rs]))
    by solve_wf.
  assert (Hds : Forall (fun d => length (dat d) = ovOverlapNWORDS NWORDS3) ds)
    by solve_wf.
  assert (Hname : ovFileFullWrite = ovFileFullWrite ->
                  counts_file_name name <> name)
    by (intros _; vm_compute; discriminate).
  destruct (write_read_roundtrip NWORDS3 (fun _ => None) name false
              ovFileFullWrite 0 0 [WriteBatch rs] ds
              Hu Hu eq_refl Hwf Hds eq_refl Hname)
    as [Hread Hret].
  split; [exact Hread|]. apply Hret. right. unfold grow_safe_last. solve_wf.
Defined.

(** ** The counts file *)

(** C2 (count index serialization).  A full-write handle that is given
    records through [writeOverlap] and [writeOverlaps] and then destroyed
    leaves a counts file made of the header word [lastId + 1], [lastId]
    being the largest identifier seen (0 when there is none), followed by
    exactly [lastId + 1] entries, the entry at index [i] being the number of
    times [i] was the [a_iid] or the [b_iid] of a record written (twice for
    a record with both equal to [i]); the entries are [uint32], so each
    count is below [2 ^ 32].  The session returns whenever no identifier
    exceeds [grow_safe_last] and every batch has fewer than [2 ^ 32]
    records. *)
Theorem counts_file_contents v name bufferSize cs :
  is_u32 bufferSize ->
  Forall (wf_overlap v) (written cs) ->
  (forall i, occurrences i (written cs) < 2 ^ 32) ->
  (forall ws counts,
     write_session v name ovFileFullWrite bufferSize cs = Ok (ws, counts) ->
     exists entries,
       counts = Some (max_id 0 (written cs) + 1 :: entries) /\
       Z.of_nat (length entries) = max_id 0 (written cs) + 1 /\
       forall i, 0 <= i <= max_id 0 (written cs) ->
         entries !! Z.to_nat i = Some (occurrences i (written cs))) /\
  (max_id 0 (written cs) <= grow_safe_last ->
   Forall (fun c => Z.of_nat (length (records_of c)) < 2 ^ 32) cs ->
   exists ws counts,
     write_session v name ovFileFullWrite bufferSize cs = Ok (ws, counts)).
Proof.
  intros Hu Hwf Hocc.
  split; [|intros Hs Hl; apply write_session_returns; auto; discriminate].
  intros ws counts Hs.
  destruct (write_session_spec v name ovFileFullWrite bufferSize cs Hu eq_refl Hwf)
    as [(Hf & _) | Hok]; [congruence|].
  rewrite Hok in Hs. injection Hs as _ <-. cbn [ovFileType_eqb].
  pose proof (max_id_ge 0 (written cs)) as Hge.
  eexists. split; [reflexivity|].
  split; [rewrite length_map, length_seqZ; lia|].
  intros i Hi. rewrite list_lookup_fmap, lookup_seqZ_lt by lia. cbn.
  rewrite Z2Nat.id by lia. f_equal. apply u32_small.
  split; [apply occurrences_nonneg | apply Hocc].
Qed.

Lemma counts_file_contents_witness :
  let cs := [WriteOne (mkOverlap 0 1 [1; 2; 3]);
             WriteBatch [mkOverlap 5 5 [4; 5; 6]; mkOverlap 1 5 [7; 8; 9]]] in
  (forall ws counts,
     write_session NWORDS3 (mkNamed [] false) ovFileFullWrite 0 cs
     = Ok (ws, counts) ->
     exists entries,
       counts = Some (max_id 0 (written cs) + 1 :: entries) /\
       Z.of_nat (length entries) = max_id 0 (written cs) + 1 /\
       forall i, 0 <= i <= max_id 0 (written cs) ->
         entries !! Z.to_nat i = Some (occurrences i (written cs))) /\
  (exists ws counts,
     write_session NWORDS3 (mkNamed [] false) ovFileFullWrite 0 cs
     = Ok (ws, counts)).
Proof.
  intros cs.
  assert (Hu : is_u32 0) by solve_is_u32.
  assert (Hwf : Forall (wf_overlap NWORDS3) (written cs)) by solve_wf.
  assert (Hocc : forall i, occurrences i (written cs) < 2 ^ 32).
  { intros i. pose proof (occurrences_le_length i (written cs)) as H.
    change (length (written cs)) with 3%nat in H. lia. }
  destruct (counts_file_contents NWORDS3 (mkNamed [] false) 0 cs Hu Hwf Hocc)
    as [Hc Hret].
  split; [exact Hc|]. apply Hret; [unfold grow_safe_last; cbn; lia | solve_wf].
Defined.

(** C3, as stated, fails: after one record with the identifiers 0 and 5 the
    header of the counts file is 6, the largest identifier plus one, and
    not 7. *)
Lemma counts_header_is_not_lastId_plus_2 :
  match write_session NWORDS3 (mkNamed [] false) ovFileFullWrite 0
          [WriteOne (mkOverlap 0 5 [1; 2; 3])] with
  | Ok (_, Some (header :: entries)) =>
      header = 6 /\ header <> 5 + 2 /\ length entries = 6%nat
  | _ => False
  end.
Proof. vm_compute. repeat split; discriminate. Qed.

(** C3, amended.  A full-write handle that is given records and then
    destroyed leaves a counts file, and the count-of-entries field at its
    start is the largest identifier seen plus one (the value of
    [_olapsPerReadLast] after the increment applied at close); that many
    counts follow it.  The session returns, and so leaves that file,
    whenever no identifier exceeds [grow_safe_last] and every batch has
    fewer than [2 ^ 32] records. *)
Theorem counts_file_header v name bufferSize cs :
  is_u32 bufferSize ->
  Forall (wf_overlap v) (written cs) ->
  (forall ws counts,
     write_session v name ovFileFullWrite bufferSize cs = Ok (ws, counts) ->
     exists header entries,
       counts = Some (header :: entries) /\
       header = max_id 0 (written cs) + 1 /\
       Z.of_nat (length entries) = header) /\
  (max_id 0 (written cs) <= grow_safe_last ->
   Forall (fun c => Z.of_nat (length (records_of c)) < 2 ^ 32) cs ->
   exists ws header entries,
     write_session v name ovFileFullWrite bufferSize cs
     = Ok (ws, Some (header :: entries)) /\
     header = max_id 0 (written cs) + 1 /\
     Z.of_nat (length entries) = header).
Proof.
  intros Hu Hwf.
  assert (Hall : forall ws counts,
     write_session v name ovFileFullWrite bufferSize cs = Ok (ws, counts) ->
     exists header entries,
       counts = Some (header :: entries) /\
       header = max_id 0 (written cs) + 1 /\
       Z.of_nat (length entries) = header).
  { intros ws counts Hs.
    destruct (write_session_spec v name ovFileFullWrite bufferSize cs
                Hu eq_refl Hwf)
      as [(Hf & _) | Hok]; [congruence|].
    rewrite Hok in Hs. cbn [ovFileType_eqb] in Hs. injection Hs as _ <-.
    pose proof (max_id_ge 0 (written cs)).
    eexists _, _. split; [reflexivity|]. split; [reflexivity|].
    rewrite length_map, length_seqZ. lia. }
  split; [exact Hall|].
  intros Hm Hl.
  destruct (write_session_returns v name ovFileFullWrite bufferSize cs
              Hu eq_refl Hwf (or_intror (conj Hm Hl)))
    as (ws & counts & Hs).
  destruct (Hall ws counts Hs) as (header & entries & -> & Hh & He).
  exists ws, header, entries. auto.
Qed.

Lemma counts_file_header_witness :
  let cs := [WriteBatch [mkOverlap 2 3 [1; 2; 3; 4; 5]]] in
  (forall ws counts,
     write_session NWORDS5 (mkNamed [] false) ovFileFullWrite 0 cs
     = Ok (ws, counts) ->
     exists header entries,
       counts = Some (header :: entries) /\
       header = max_id 0 (written cs) + 1 /\
       Z.of_nat (length entries) = header) /\
  (exists ws header entries,
     write_session NWORDS5 (mkNamed [] false) ovFileFullWrite 0 cs
     = Ok (ws, Some (header :: entries)) /\
     header = 3 + 1 /\
     Z.of_nat (length entries) = header).
Proof.
  intros cs.
  assert (Hu : is_u32 0) by solve_is_u32.
  assert (Hwf : Forall (wf_overlap NWORDS5) (written cs)) by solve_wf.
  destruct (counts_file_header NWORDS5 (mkNamed [] false) 0 cs Hu Hwf)
    as [Hall Hret].
  split; [exact Hall|].
  apply Hret; [unfold grow_safe_last; cbn; lia | solve_wf].
Defined.

(** ** Handles in the hands of a client *)

Lemma readOverlaps_loop_reader v os : forall f,
  reader_ok v f ->
  (exists os' n f',
     readOverlaps_loop v os f = Ok (os', n, f') /\ reader_ok v f' /\
     length os' = length os /\ 0 <= n <= Z.of_nat (length os))
  \/ readOverlaps_loop v os f = Fault AssertionFailure.
Proof.
  induction os as [|o os IH]; intros f H.
  - left. exists [], 0, f. cbn. auto with lia.
  - pose proof H as (Ho & _). rewrite (readOverlaps_loop_cons v o os f Ho).
    destruct (readOverlap_cases v o f H)
      as [(_ & -> & Hok & _) | [(_ & _ & -> & Hok & _) | (_ & ->)]];
      cbn [mbind result_bind].
    + left. eexists _, _, _. split; [reflexivity|]. cbn [length]. auto with lia.
    + destruct (IH _ Hok) as [(os' & n & f' & -> & Hok' & Hl & Hn) | ->];
        cbn [mbind result_bind]; [left | right; reflexivity].
      eexists _, _, _. split; [reflexivity|]. cbn [length].
      split; [exact Hok'|]. split; lia.
    + right. reflexivity.
Qed.

Lemma seekOverlap_cases v k f :
  (_isSeekable f = false /\ seekOverlap v k f = Fault ExitFailure) \/
  (_isSeekable f = true /\ s64 (u64 (u64 k * recordSize v f)) < 0 /\
   seekOverlap v k f = Fault ExitFailure) \/
  (_isSeekable f = true /\ 0 <= s64 (u64 (u64 k * recordSize v f)) /\
   seekOverlap v k f =
   Ok (set_bufferPos (_bufferLen f)
         (set_file (mkFILE (f_words (_file f))
                      (s64 (u64 (u64 k * recordSize v f)))) f))).
Proof.
  unfold seekOverlap, AS_UTL_fseek.
  destruct (_isSeekable f); cbn [negb]; [right | left; auto].
  destruct (Z.ltb_spec (s64 (u64 (u64 k * recordSize v f))) 0);
    cbn [mbind result_bind]; [left | right]; auto.
Qed.

(** Every handle a client can hold is a write handle that was given some
    records, or a read handle. *)
Lemma reachable_inv v f :
  reachable v f ->
  (_isOutput f = true /\ exists rs, writer_ok v rs f) \/ reader_ok v f.
Proof.
  induction 1 as [name type bufferSize f Hu Hc
                 | f o f' _ IH Hwf Hw
                 | f os f' _ IH Hwf Hw
                 | f o b o' f' _ IH Hr
                 | f os os' n f' _ IH Hr
                 | f k f' _ IH Hs].
  - destruct (is_write type) eqn:Ew.
    + destruct (ovFile_ctor_writer v name type bufferSize Hu Ew)
        as (g & Hg & Hok & _).
      rewrite Hg in Hc. injection Hc as <-.
      left. split; [apply Hok | eauto].
    + destruct (ovFile_ctor_reader v name type bufferSize Hu Ew)
        as (g & Hg & Hok & _).
      rewrite Hg in Hc. injection Hc as <-. right. exact Hok.
  - destruct IH as [(Ho & rs & Hok) | (Ho & _)].
    + destruct (writeOverlap_spec v rs o f Hok Hwf)
        as [(Hf & _) | (g & Hg & Hok' & _)]; [congruence|].
      rewrite Hg in Hw. injection Hw as <-.
      left. split; [apply Hok' | eauto].
    + unfold writeOverlap in Hw. rewrite Ho in Hw. discriminate.
  - destruct IH as [(Ho & rs & Hok) | (Ho & _)].
    + destruct (writeOverlaps_spec v rs os f Hok Hwf)
        as [(Hf & _) | (g & Hg & Hok' & _)]; [congruence|].
      rewrite Hg in Hw. injection Hw as <-.
      left. split; [apply Hok' | eauto].
    + unfold writeOverlaps in Hw. rewrite Ho in Hw. discriminate.
  - destruct IH as [(Ho & _) | Hok].
    + unfold readOverlap in Hr. rewrite Ho in Hr. discriminate.
    + right.
      destruct (readOverlap_cases v o f Hok)
        as [(_ & Hg & Hok' & _) | [(_ & _ & Hg & Hok' & _) | (_ & Hg)]];
        rewrite Hg in Hr; [| |discriminate];
        injection Hr as _ _ <-; exact Hok'.
  - destruct IH as [(Ho & _) | Hok].
    + unfold readOverlaps in Hr. rewrite Ho in Hr. discriminate.
    + right. pose proof Hok as (Ho & _).
      unfold readOverlaps in Hr. rewrite Ho in Hr.
      cbn [negb assert mbind result_bind] in Hr.
      destruct (readOverlaps_loop_reader v os f Hok)
        as [(os1 & n1 & f1 & Hg & Hok' & _) | Hg];
        rewrite Hg in Hr; [|discriminate].
      injection Hr as _ _ <-. exact Hok'.
  - destruct (seekOverlap_cases v k f)
      as [(_ & Hg) | [(_ & _ & Hg) | (_ & Hoff & Hg)]];
      rewrite Hg in Hs; try discriminate.
    injection Hs as <-.
    destruct IH as [(Ho & rs & Hok) | Hok].
    + left. split; [exact Ho|]. exists rs. exact Hok.
    + right. destruct Hok as (Ho & Hb & Hp & Hal & Hfp).
      destruct Hb as (Hlen & Hmax & Hdiv & Hl).
      unfold reader_ok, buffer_ok. cbn.
      repeat split; try assumption; try lia.
Qed.

(** C8, as stated, fails: the 288th [writeOverlap] on a fresh full-write
    handle of the 8-word build (capacity 2880 words, 10 words a record)
    fills the buffer, and it returns with the fill length equal to the
    capacity and nothing written to the file. *)
Lemma writeOverlap_returns_with_full_buffer :
  match (f ← ovFile_ctor NWORDS8 (mkNamed [] false) ovFileFullWriteNoCounts 0;
         write_calls NWORDS8
           (replicate 288 (WriteOne (mkOverlap 1 2 [1; 2; 3; 4; 5; 6; 7; 8]))) f)
  with
  | Ok f => _bufferLen f = 2880 /\ _bufferMax f = 2880 /\ f_words (_file f) = []
  | Fault _ => False
  end.
Proof. vm_compute. repeat split. Qed.

(** Write calls keep a handle among those a client can hold. *)
Lemma write_calls_reachable v cs : forall f f',
  reachable v f -> Forall (wf_overlap v) (written cs) ->
  write_calls v cs f = Ok f' -> reachable v f'.
Proof.
  induction cs as [|c cs IH]; intros f f' Hr Hwf Hw.
  - cbn in Hw. injection Hw as <-. exact Hr.
  - unfold written in Hwf. cbn [map concat] in Hwf. fold (written cs) in Hwf.
    apply Forall_app in Hwf. destruct Hwf as [Hwf1 Hwf2].
    destruct c as [o|os]; cbn [write_calls records_of] in *.
    + destruct (writeOverlap v o f) as [g|e] eqn:Hg;
        cbn [mbind result_bind] in Hw; [|discriminate].
      apply (IH g f'); [|exact Hwf2|exact Hw].
      eapply reach_writeOverlap; [exact Hr| |exact Hg].
      apply Forall_cons in Hwf1. apply Hwf1.
    + destruct (writeOverlaps v os f) as [g|e] eqn:Hg;
        cbn [mbind result_bind] in Hw; [|discriminate].
      apply (IH g f'); [|exact Hwf2|exact Hw].
      eapply reach_writeOverlaps; [exact Hr|exact Hwf1|exact Hg].
Qed.

(** A handle whose buffer is full: 288 records of 10 words each on a fresh
    full-write handle of the 8-word build, whose capacity is 2880 words. *)
Lemma full_buffer_handle :
  exists f,
    reachable NWORDS8 f /\ _isOutput f = true /\ _olapsPerRead f = None /\
    _bufferLen f = 2880 /\ _bufferMax f = 2880 /\ f_words (_file f) = [].
Proof.
  pose (o := mkOverlap 1 2 [1; 2; 3; 4; 5; 6; 7; 8]).
  pose (cs := replicate 288 (WriteOne o)).
  assert (Hu : is_u32 0) by solve_is_u32.
  assert (Hwf : Forall (wf_overlap NWORDS8) (written cs)).
  { unfold written. apply Forall_concat, Forall_map, Forall_replicate.
    cbn. solve_wf. }
  destruct (ovFile_ctor_writer NWORDS8 (mkNamed [] false)
              ovFileFullWriteNoCounts 0 Hu eq_refl)
    as (g & Hg & Hok & _ & _ & _ & _ & Hcnt).
  cbn [ovFileType_eqb] in Hcnt.
  destruct (write_calls_spec NWORDS8 cs [] g Hok Hwf)
    as [(_ & Hne & _) | (f & Hf & Hok' & _ & _ & Hnone)];
    [contradiction|].
  exists f.
  assert (Hrun :
    (g ← ovFile_ctor NWORDS8 (mkNamed [] false) ovFileFullWriteNoCounts 0;
     write_calls NWORDS8 cs g) = Ok f)
    by (rewrite Hg; exact Hf).
  assert (Hval :
    match (g ← ovFile_ctor NWORDS8 (mkNamed [] false) ovFileFullWriteNoCounts 0;
           write_calls NWORDS8 cs g) with
    | Ok f => _bufferLen f = 2880 /\ _bufferMax f = 2880 /\
              f_words (_file f) = []
    | Fault _ => False
    end) by (vm_compute; repeat split).
  rewrite Hrun in Hval.
  split; [|split; [apply Hok'|split; [apply Hnone; exact Hcnt|exact Hval]]].
  eapply write_calls_reachable; [|exact Hwf|exact Hf].
  exact (reach_ctor _ _ _ _ _ Hu Hg).
Qed.

(** C8, amended.  [writeOverlap] flushes at its start, before it encodes
    the record, and not after: a buffer found full is written to the file
    and the record then starts a new one, a buffer found with room is left
    in place and gets the record appended.  When the call returns the fill
    length is positive and at most the capacity; it is equal to the
    capacity when the record has filled the buffer, which the next write or
    the destructor flushes.  The call returns on every write handle
    without a count index, and on one with a count index whenever neither
    identifier of the record nor any identifier seen before exceeds
    [grow_safe_last]. *)
Theorem writeOverlap_flushes_before_encoding v f o :
  reachable v f -> wf_overlap v o ->
  (forall f', writeOverlap v o f = Ok f' ->
     0 < _bufferLen f' <= _bufferMax f' /\
     (_bufferLen f < _bufferMax f ->
        _bufferLen f' = _bufferLen f + record_words v (_isNormal f) /\
        f_words (_file f') = f_words (_file f)) /\
     (_bufferLen f = _bufferMax f ->
        _bufferLen f' = record_words v (_isNormal f) /\
        f_words (_file f')
        = f_words (_file f) ++ take (Z.to_nat (_bufferMax f)) (_buffer f))) /\
  (_isOutput f = true ->
   _olapsPerRead f = None \/
   Z.max (Z.max (_olapsPerReadLast f) (a_iid o)) (b_iid o) <= grow_safe_last ->
   exists f', writeOverlap v o f = Ok f').
Proof.
  intros Hr Hwf.
  destruct (reachable_inv v f Hr) as [(Ho & rs & Hok) | (Ho & _)].
  - destruct (writeOverlap_spec v rs o f Hok Hwf)
      as [(Hf & Hbig & Hcnt) | (g & Hg & _ & _ & _ & _ & Hlen & _ & Hlt & Hfull)].
    + split; [intros f' Hw; congruence|].
      intros _ [Hnone | Hsafe]; [contradiction|]. exfalso.
      destruct Hok as (_ & _ & _ & _ & _ & Hlast).
      rewrite max_id_app, <- (Hlast Hcnt) in Hbig. cbn in Hbig. lia.
    + split; [|intros _ _; exists g; exact Hg].
      intros f' Hw. rewrite Hg in Hw. injection Hw as <-. auto.
  - split; [|intros Ho'; congruence].
    intros f' Hw. unfold writeOverlap in Hw. rewrite Ho in Hw. discriminate.
Qed.

Lemma writeOverlap_flushes_before_encoding_witness :
  let o := mkOverlap 3 4 [8; 7; 6; 5; 4; 3; 2; 1] in
  exists f f',
    reachable NWORDS8 f /\ _bufferLen f = _bufferMax f /\
    writeOverlap NWORDS8 o f = Ok f' /\
    0 < _bufferLen f' <= _bufferMax f' /\
    _bufferLen f' = record_words NWORDS8 (_isNormal f) /\
    f_words (_file f')
    = f_words (_file f) ++ take (Z.to_nat (_bufferMax f)) (_buffer f).
Proof.
  intros o.
  assert (Hwf : wf_overlap NWORDS8 o) by solve_wf.
  destruct full_buffer_handle as (f & Hr & Ho & Hnone & Hlen & Hmax & _).
  assert (Hfull : _bufferLen f = _bufferMax f) by congruence.
  destruct (writeOverlap_flushes_before_encoding NWORDS8 f o Hr Hwf)
    as [Hall Hret].
  destruct (Hret Ho (or_introl Hnone)) as (f' & Hw).
  destruct (Hall f' Hw) as (Hpos & _ & Hflush).
  destruct (Hflush Hfull) as [Hl Hfw].
  exists f, f'. auto 10.
Defined.

(** C10 (buffer safety).  For every handle made by the constructor and
    used through the public members, the fill length never exceeds the
    capacity, the buffer has [capacity] words, and no call of
    [writeOverlap], [writeOverlaps], [readOverlap] or [readOverlaps] ever
    indexes the buffer (or the count index) outside its allocation. *)
Theorem buffer_indices_in_bounds v f :
  reachable v f ->
  0 <= _bufferLen f <= _bufferMax f /\
  Z.of_nat (length (_buffer f)) = _bufferMax f /\
  (forall o, wf_overlap v o -> writeOverlap v o f <> Fault BufferOverrun) /\
  (forall os, Forall (wf_overlap v) os ->
              writeOverlaps v os f <> Fault BufferOverrun) /\
  (forall o, readOverlap v o f <> Fault BufferOverrun) /\
  (forall os, readOverlaps v os f <> Fault BufferOverrun).
Proof.
  intros Hr.
  destruct (reachable_inv v f Hr) as [(Ho & rs & Hok) | Hok].
  - pose proof Hok as (_ & (Hlen & _ & _ & Hl) & _).
    split; [exact Hl|]. split; [exact Hlen|].
    split; [|split; [|split]].
    + intros o Hwf.
      destruct (writeOverlap_spec v rs o f Hok Hwf) as [(-> & _) | (g & -> & _)];
        discriminate.
    + intros os Hwf.
      destruct (writeOverlaps_spec v rs os f Hok Hwf) as [(-> & _) | (g & -> & _)];
        discriminate.
    + intros o. unfold readOverlap. rewrite Ho. discriminate.
    + intros os. unfold readOverlaps. rewrite Ho. discriminate.
  - pose proof Hok as (Ho & (Hlen & _ & _ & Hl) & _).
    split; [exact Hl|]. split; [exact Hlen|].
    split; [|split; [|split]].
    + intros o _. unfold writeOverlap. rewrite Ho. discriminate.
    + intros os _. unfold writeOverlaps. rewrite Ho. discriminate.
    + intros o.
      destruct (readOverlap_cases v o f Hok)
        as [(_ & -> & _) | [(_ & _ & -> & _) | (_ & ->)]]; discriminate.
    + intros os. unfold readOverlaps. rewrite Ho.
      cbn [negb assert mbind result_bind].
      destruct (readOverlaps_loop_reader v os f Hok)
        as [(os1 & n1 & f1 & -> & _) | ->]; discriminate.
Qed.

Lemma buffer_indices_in_bounds_witness :
  exists f,
    reachable NWORDS3 f /\
    0 <= _bufferLen f <= _bufferMax f /\
    Z.of_nat (length (_buffer f)) = _bufferMax f /\
    (forall o, wf_overlap NWORDS3 o ->
               writeOverlap NWORDS3 o f <> Fault BufferOverrun) /\
    (forall os, Forall (wf_overlap NWORDS3) os ->
                writeOverlaps NWORDS3 os f <> Fault BufferOverrun) /\
    (forall o, readOverlap NWORDS3 o f <> Fault BufferOverrun) /\
    (forall os, readOverlaps NWORDS3 os f <> Fault BufferOverrun).
Proof.
  assert (Hu : is_u32 0) by solve_is_u32.
  destruct (ovFile_ctor_writer NWORDS3 (mkNamed [] false) ovFileFullWrite 0
              Hu eq_refl) as (f & Hc & Hok & _).
  assert (Hwf : wf_overlap NWORDS3 (mkOverlap 1 2 [1; 2; 3])) by solve_wf.
  destruct (writeOverlap_spec NWORDS3 [] _ f Hok Hwf)
    as [(_ & Hs & _) | (f' & Hw & _)].
  - exfalso. unfold grow_safe_last in Hs. cbn in Hs. lia.
  - assert (Hr : reachable NWORDS3 f').
    { eapply reach_writeOverlap; [|exact Hwf|exact Hw].
      eapply reach_ctor; eassumption. }
    exists f'. split; [exact Hr|].
    exact (buffer_indices_in_bounds NWORDS3 f' Hr).
Defined.

(** ** Seeking and the end of the data *)

Lemma wire_all_cons v normal r rs :
  wire_all v normal (r :: rs) = map u32 (wire v normal r) ++ wire_all v normal rs.
Proof. reflexivity. Qed.

Lemma drop_wire_all v normal : forall (k : nat) rs,
  drop (Z.to_nat (Z.of_nat k * record_words v normal)) (wire_all v normal rs)
  = wire_all v normal (drop k rs).
Proof.
  pose proof (record_words_pos v normal) as Hw.
  induction k as [|k IH]; intros rs; [reflexivity|].
  destruct rs as [|r rs]; [cbn; apply drop_nil|].
  rewrite wire_all_cons. cbn [drop]. rewrite <- IH.
  replace (Z.to_nat (Z.of_nat (S k) * record_words v normal))
    with (length (map u32 (wire v normal r))
          + Z.to_nat (Z.of_nat k * record_words v normal))%nat.
  - rewrite <- drop_drop, drop_app_length. reflexivity.
  - rewrite length_map. pose proof (length_wire v normal r). nia.
Qed.

(** [seekOverlap] on a seekable read handle. *)
Lemma seekOverlap_reader v k f :
  reader_ok v f -> _isSeekable f = true ->
  0 <= k -> k * recordSize v f < 2 ^ 63 ->
  exists f',
    seekOverlap v k f = Ok f' /\
    f_pos (_file f') = k * recordSize v f /\
    _bufferPos f' = _bufferLen f' /\
    reader_ok v f' /\
    unread f' = drop (Z.to_nat (k * record_words v (_isNormal f)))
                     (f_words (_file f)) /\
    _isNormal f' = _isNormal f /\ _isSeekable f' = true /\
    f_words (_file f') = f_words (_file f).
Proof.
  intros Hok Hseek Hk Hoff.
  pose proof (record_words_pos v (_isNormal f)) as Hw.
  pose proof (recordSize_words v f) as Hrs. unfold sizeof_uint32 in Hrs.
  assert (Hs : s64 (u64 (u64 k * recordSize v f)) = k * recordSize v f).
  { rewrite (u64_small k) by nia. rewrite u64_small by nia.
    apply s64_small. nia. }
  destruct (seekOverlap_cases v k f)
    as [(Hn & _) | [(_ & Hneg & _) | (_ & _ & ->)]];
    [congruence | rewrite Hs in Hneg; nia |].
  rewrite Hs. eexists. split; [reflexivity|]. cbn.
  split; [reflexivity|]. split; [reflexivity|].
  destruct Hok as (Ho & (Hlen & Hmax & Hdiv & Hl) & Hp & Hal & Hfp).
  split.
  { unfold reader_ok, buffer_ok. cbn. repeat split; try assumption; try lia. }
  split; [|auto].
  unfold unread. cbn. rewrite Z.ltb_irrefl. cbn [app].
  f_equal. f_equal. rewrite Hrs. unfold sizeof_uint32.
  rewrite (Z.mul_comm 4), Z.mul_assoc, Z.div_mul by lia. reflexivity.
Qed.

Lemma seekOverlap_stream v k f f' rs :
  reader_ok v f -> _isSeekable f = true ->
  0 <= k -> k * recordSize v f < 2 ^ 63 ->
  f_words (_file f) = wire_all v (_isNormal f) rs ->
  seekOverlap v k f = Ok f' ->
  reader_ok v f' /\ stream_ok v f' /\
  unread f' = wire_all v (_isNormal f') (drop (Z.to_nat k) rs) /\
  _isNormal f' = _isNormal f.
Proof.
  intros Hok Hseek Hk Hoff Hfile Hs.
  destruct (seekOverlap_reader v k f Hok Hseek Hk Hoff)
    as (g & Hg & Hpos & Hbp & Hok' & Hun & Hn & _ & Hw).
  rewrite Hg in Hs. injection Hs as <-.
  assert (Hun' : unread g = wire_all v (_isNormal g) (drop (Z.to_nat k) rs)).
  { rewrite Hun, Hfile, Hn, <- drop_wire_all, Z2Nat.id by lia. reflexivity. }
  split; [exact Hok'|]. split; [|split; [exact Hun' | exact Hn]].
  unfold stream_ok. split; [lia|].
  unfold unread in Hun'. rewrite Hbp, Z.ltb_irrefl in Hun'. cbn [app] in Hun'.
  rewrite Hun', length_wire_all. apply Z.divide_factor_r.
Qed.

Lemma skip_then_read_spec v (k : nat) : forall rs f r tmp o,
  reader_ok v f -> stream_ok v f ->
  unread f = wire_all v (_isNormal f) rs ->
  Forall (wf_overlap v) rs -> rs !! k = Some r ->
  length (dat tmp) = ovOverlapNWORDS v -> length (dat o) = ovOverlapNWORDS v ->
  exists f',
    skip_then_read v k tmp o f = Ok (true, merge (_isNormal f) o r, f').
Proof.
  induction k as [|k IH]; intros rs f r tmp o Hok Hs Hun Hwf Hk Htmp Ho;
    destruct rs as [|r0 rs]; try discriminate Hk;
    apply Forall_cons in Hwf; destruct Hwf as [Hr0 Hwf];
    rewrite wire_all_cons in Hun; cbn [skip_then_read].
  - injection Hk as <-.
    destruct (readOverlap_record v o f _ _ Hok Hs Hun)
      as (f' & -> & _); [rewrite length_map; apply length_wire|].
    rewrite decode_words_wire by assumption. eauto.
  - destruct (readOverlap_record v tmp f _ _ Hok Hs Hun)
      as (f1 & -> & Hok1 & Hs1 & Hun1 & Hn1 & _);
      [rewrite length_map; apply length_wire|].
    cbn [mbind result_bind]. rewrite <- Hn1 in Hun1 |- *.
    exact (IH rs f1 r tmp o Hok1 Hs1 Hun1 Hwf Hk Htmp Ho).
Qed.

Lemma ovFile_ctor_seekable v name type bufferSize f :
  ovFile_ctor v name type bufferSize = Ok f ->
  _isSeekable f = negb (is_write type) && negb (n_isCompressed name).
Proof.
  unfold ovFile_ctor. cbv zeta. intros H.
  apply bind_Ok_inv in H. destruct H as ([] & _ & H).
  apply bind_Ok_inv in H. destruct H as ([] & _ & H).
  destruct type; cbn in H; injection H as <-; cbn;
    destruct (n_isCompressed name); reflexivity.
Qed.

(** C6 (seek correctness).  On a handle that is not seekable, as is every
    handle opened on a compressed file, [seekOverlap] aborts.  On a
    seekable read handle over a file of whole records, [seekOverlap(k)]
    with [k] below the number of records puts the file at the byte offset
    [k] times the record size and the buffer position at the fill length,
    so that the next read refills, and the [readOverlap] that follows
    delivers the record that reading the file from its start and discarding
    [k] records delivers. *)
Theorem seek_then_read v f rs (k : nat) r o :
  reachable v f -> _isOutput f = false -> _isSeekable f = true ->
  f_words (_file f) = wire_all v (_isNormal f) rs ->
  Forall (wf_overlap v) rs -> rs !! k = Some r ->
  Z.of_nat k * recordSize v f < 2 ^ 63 ->
  length (dat o) = ovOverlapNWORDS v ->
  (exists f1 f2,
     seekOverlap v (Z.of_nat k) f = Ok f1 /\
     f_pos (_file f1) = Z.of_nat k * recordSize v f /\
     _bufferPos f1 = _bufferLen f1 /\
     readOverlap v o f1 = Ok (true, merge (_isNormal f) o r, f2)) /\
  (forall bufferSize tmp,
     is_u32 bufferSize -> length (dat tmp) = ovOverlapNWORDS v ->
     exists f0 f3,
       ovFile_ctor v (mkNamed (f_words (_file f)) false)
                   (if _isNormal f then ovFileNormal else ovFileFull)
                   bufferSize = Ok f0 /\
       skip_then_read v k tmp o f0 = Ok (true, merge (_isNormal f) o r, f3)) /\
  (forall g k', _isSeekable g = false -> seekOverlap v k' g = Fault ExitFailure) /\
  (forall name type bufferSize g k',
     ovFile_ctor v name type bufferSize = Ok g -> n_isCompressed name = true ->
     seekOverlap v k' g = Fault ExitFailure).
Proof.
  intros Hr Ho Hseek Hfile Hwf Hk Hoff Hlo.
  assert (Hno : forall g k', _isSeekable g = false ->
                             seekOverlap v k' g = Fault ExitFailure).
  { intros g k' Hg. unfold seekOverlap. rewrite Hg. reflexivity. }
  destruct (reachable_inv v f Hr) as [(Ho' & _) | Hok]; [congruence|].
  assert (Hsplit : drop k rs = r :: drop (S k) rs) by (apply drop_S; exact Hk).
  assert (Hwr : wf_overlap v r) by (exact (Forall_lookup_1 _ _ _ _ Hwf Hk)).
  split; [|split; [|split; [exact Hno|]]].
  - destruct (seekOverlap_reader v (Z.of_nat k) f Hok Hseek ltac:(lia) Hoff)
      as (f1 & Hs & Hpos & Hbp & _).
    destruct (seekOverlap_stream v (Z.of_nat k) f f1 rs Hok Hseek ltac:(lia)
                Hoff Hfile Hs) as (Hok1 & Hs1 & Hun1 & Hn1).
    rewrite Nat2Z.id, Hsplit, wire_all_cons in Hun1.
    destruct (readOverlap_record v o f1 _ _ Hok1 Hs1 Hun1)
      as (f2 & Hrd & _); [rewrite length_map; apply length_wire|].
    rewrite decode_words_wire, Hn1 in Hrd by assumption.
    exists f1, f2. auto.
  - intros bufferSize tmp Hu Htmp.
    set (type := if _isNormal f then ovFileNormal else ovFileFull).
    assert (Ht : is_write type = false /\ is_normal type = _isNormal f)
      by (unfold type; destruct (_isNormal f); split; reflexivity).
    destruct Ht as [Htw Htn].
    destruct (ovFile_ctor_reader v (mkNamed (f_words (_file f)) false) type
                bufferSize Hu Htw)
      as (f0 & Hc & Hok0 & Hun0 & Hs0 & Hn0 & _).
    cbn [n_words] in *. rewrite Htn in *. rewrite <- Hn0 in Hfile.
    rewrite Hfile in Hun0.
    destruct (skip_then_read_spec v k rs f0 r tmp o Hok0) as (f3 & Hrd);
      try assumption.
    + apply Hs0. rewrite Hfile, Hn0, length_wire_all. apply Z.divide_factor_r.
    + rewrite Hn0 in Hrd. eauto.
  - intros name type bufferSize g k' Hc Hz. apply Hno.
    rewrite (ovFile_ctor_seekable v name type bufferSize g Hc), Hz.
    apply andb_false_r.
Qed.

Lemma readOverlaps_eof v os f :
  reader_ok v f -> unread f = [] ->
  exists f', readOverlaps v os f = Ok (os, 0, f') /\ unread f' = [].
Proof.
  intros Hok Hun. pose proof Hok as (Ho & _).
  unfold readOverlaps. rewrite Ho. cbn [negb assert mbind result_bind].
  destruct os as [|o os]; [exists f; auto|].
  rewrite (readOverlaps_loop_cons v o os f Ho).
  destruct (readOverlap_eof v o f Hok Hun) as (f' & -> & _ & Hun' & _).
  cbn [mbind result_bind]. eauto.
Qed.

(** C7 (end of data).  On a read handle positioned past the last record
    [readOverlap] returns false and leaves the caller's record as it is,
    the handle stays past the last record, and a second [readOverlap]
    returns false as well; [readOverlaps] there loads nothing and leaves
    the caller's array as it is.  The end of the data is an ordinary
    return, never a fault. *)
Theorem read_past_end v f o o' os :
  reachable v f -> _isOutput f = false -> at_end_of_data f ->
  exists f1 f2 f3,
    readOverlap v o f = Ok (false, o, f1) /\ at_end_of_data f1 /\
    readOverlap v o' f1 = Ok (false, o', f2) /\ at_end_of_data f2 /\
    readOverlaps v os f = Ok (os, 0, f3) /\ at_end_of_data f3.
Proof.
  intros Hr Ho Hend. unfold at_end_of_data in *.
  destruct (reachable_inv v f Hr) as [(Ho' & _) | Hok]; [congruence|].
  destruct (readOverlap_eof v o f Hok Hend) as (f1 & H1 & Hok1 & Hun1 & _).
  destruct (readOverlap_eof v o' f1 Hok1 Hun1) as (f2 & H2 & _ & Hun2 & _).
  destruct (readOverlaps_eof v os f Hok Hend) as (f3 & H3 & Hun3).
  exists f1, f2, f3. auto 10.
Qed.

Lemma seek_then_read_witness :
  let r0 := mkOverlap 7 9 [2 ^ 63 + 5; 3; 2 ^ 40] in
  let r1 := mkOverlap 1 5 [1; 2; 3] in
  let o := mkOverlap 0 0 [0; 0; 0] in
  exists f,
    ovFile_ctor NWORDS3 (mkNamed (wire_all NWORDS3 false [r0; r1]) false)
                ovFileFull 0 = Ok f /\
    exists f1 f2,
      seekOverlap NWORDS3 1 f = Ok f1 /\
      f_pos (_file f1) = 1 * recordSize NWORDS3 f /\
      _bufferPos f1 = _bufferLen f1 /\
      readOverlap NWORDS3 o f1 = Ok (true, merge (_isNormal f) o r1, f2).
Proof.
  intros r0 r1 o.
  assert (Hu : is_u32 0) by solve_is_u32.
  destruct (ovFile_ctor_reader NWORDS3
              (mkNamed (wire_all NWORDS3 false [r0; r1]) false) ovFileFull 0
              Hu eq_refl)
    as (f & Hc & Hok & _ & _ & Hn & Hseek & _ & Hw).
  exists f. split; [exact Hc|].
  assert (Hr : reachable NWORDS3 f) by (eapply reach_ctor; eassumption).
  assert (Hwf : Forall (wf_overlap NWORDS3) [r0; r1]) by solve_wf.
  assert (Hfile : f_words (_file f) = wire_all NWORDS3 (_isNormal f) [r0; r1])
    by (rewrite Hw, Hn; reflexivity).
  assert (Hoff : Z.of_nat 1 * recordSize NWORDS3 f < 2 ^ 63).
  { rewrite recordSize_words.
    pose proof (record_words_pos NWORDS3 (_isNormal f)).
    unfold sizeof_uint32. lia. }
  exact (proj1 (seek_then_read NWORDS3 f [r0; r1] 1 r1 o Hr (proj1 Hok) Hseek
                  Hfile Hwf eq_refl Hoff eq_refl)).
Defined.

Lemma read_past_end_witness :
  let r := mkOverlap 1 5 [1; 2; 3; 4; 5] in
  let o := mkOverlap 0 0 [0; 0; 0; 0; 0] in
  exists f f1 f2 f3,
    reachable NWORDS5 f /\ _isOutput f = false /\ at_end_of_data f /\
    readOverlap NWORDS5 o f = Ok (false, o, f1) /\ at_end_of_data f1 /\
    readOverlap NWORDS5 r f1 = Ok (false, r, f2) /\ at_end_of_data f2 /\
    readOverlaps NWORDS5 [o; r] f = Ok ([o; r], 0, f3) /\ at_end_of_data f3.
Proof.
  intros r o.
  assert (Hu : is_u32 0) by solve_is_u32.
  destruct (ovFile_ctor_reader NWORDS5
              (mkNamed (wire_all NWORDS5 true [r]) false) ovFileNormal 0
              Hu eq_refl)
    as (f0 & Hc & Hok & Hun & Hs & Hn & _).
  assert (Hr0 : reachable NWORDS5 f0) by (eapply reach_ctor; eassumption).
  cbn [n_words is_normal] in *.
  assert (Hun' : unread f0 = map u32 (wire NWORDS5 (_isNormal f0) r) ++ [])
    by (rewrite Hun, Hn; reflexivity).
  destruct (readOverlap_record NWORDS5 o f0 _ _ Hok
              (Hs ltac:(rewrite length_wire_all; apply Z.divide_factor_r)) Hun')
    as (f & Hrd & Hok1 & _ & Hend & _);
    [rewrite length_map; apply length_wire|].
  assert (Hr : reachable NWORDS5 f)
    by (eapply reach_readOverlap; [exact Hr0 | exact Hrd]).
  destruct (read_past_end NWORDS5 f o r [o; r] Hr (proj1 Hok1) Hend)
    as (f1 & f2 & f3 & H).
  exists f, f1, f2, f3. split; [exact Hr|]. split; [exact (proj1 Hok1)|].
  split; [exact Hend | exact H].
Defined.

(** * Further properties of the code *)

(** ** The name of the counts file *)

Lemma strrchr_absent s c : c ∉ s -> strrchr s c = None.
Proof.
  induction s as [|x s IH]; intros Hin; [reflexivity|]. cbn.
  rewrite IH by (intros H; apply Hin; right; exact H).
  destruct (Ascii.eqb_spec x c) as [->|_]; [|reflexivity].
  exfalso. apply Hin. left.
Qed.

Lemma strrchr_last dir base c :
  c ∉ base -> strrchr (dir ++ c :: base) c = Some (length dir).
Proof.
  intros Hin. induction dir as [|x dir IH]; cbn.
  - rewrite (strrchr_absent base c Hin), Ascii.eqb_refl. reflexivity.
  - rewrite IH. reflexivity.
Qed.

Lemma strchr_until_dot s :
  match strchr s "." with
  | Some dot => take dot s = until_dot s
  | None => s = until_dot s
  end.
Proof.
  induction s as [|x s IH]; [reflexivity|]. cbn.
  destruct (Ascii.eqb x "."); [reflexivity|].
  destruct (strchr s "."); cbn; f_equal; exact IH.
Qed.

(** The prefix keeps the directory part of the name, whatever dots it has,
    and cuts the last component at its first dot: all the dotted extensions
    of the file go, and a file name that starts with a dot leaves the
    directory alone.  A name without a slash is cut at its first dot. *)
Theorem ovFile_prefix_strips_extensions (dir base : list ascii) :
  "/"%char ∉ base ->
  ovFile_prefix (dir ++ "/"%char :: base) = dir ++ "/"%char :: until_dot base /\
  ovFile_prefix base = until_dot base /\
  counts_file_name (dir ++ "/"%char :: base)
  = dir ++ "/"%char :: until_dot base ++ ["."; "c"; "o"; "u"; "n"; "t"; "s"]%char.
Proof.
  intros Hin.
  assert (H1 : ovFile_prefix (dir ++ "/"%char :: base)
               = dir ++ "/"%char :: until_dot base).
  { unfold ovFile_prefix. rewrite (strrchr_last dir base _ Hin).
    rewrite drop_app_length. cbn [strchr]. cbn [Ascii.eqb Bool.eqb andb].
    pose proof (strchr_until_dot base) as H.
    destruct (strchr base ".") as [dot|]; cbn [fmap option_fmap option_map].
    - rewrite take_app_add'; [|reflexivity]. cbn. rewrite H. reflexivity.
    - rewrite <- H. reflexivity. }
  split; [exact H1|]. split.
  - unfold ovFile_prefix. rewrite (strrchr_absent base _ Hin), drop_0.
    pose proof (strchr_until_dot base) as H.
    destruct (strchr base "."); rewrite ?Nat.add_0_l; exact H.
  - unfold counts_file_name. rewrite H1, <- app_assoc. reflexivity.
Qed.

Lemma ovFile_prefix_strips_extensions_witness :
  let dir := ["r"; "u"; "n"; "."; "1"]%char in
  let base := ["o"; "v"; "l"; "."; "o"; "v"; "b"; "."; "g"; "z"]%char in
  ("/"%char ∉ base) /\
  ovFile_prefix (dir ++ "/"%char :: base) = dir ++ "/"%char :: until_dot base /\
  ovFile_prefix base = until_dot base /\
  counts_file_name (dir ++ "/"%char :: base)
  = dir ++ "/"%char :: until_dot base ++ ["."; "c"; "o"; "u"; "n"; "t"; "s"]%char.
Proof.
  intros dir base.
  assert (Hin : "/"%char ∉ base).
  { intros H. apply list_elem_of_In in H. cbn in H.
    repeat (destruct H as [H|H]; [discriminate H|]). exact H. }
  split; [exact Hin | exact (ovFile_prefix_strips_extensions dir base Hin)].
Defined.

(** ** The byte stream, inside the decode window *)

(** Before the end of the stream and while the decode window has bytes
    left, [n] calls of [next] all return false, move the window position
    and the position reported by [tell] forward by exactly [n], and never
    refill: the outcome does not depend on [fillBuffer]. *)
Theorem next_inside_window fillBuffer (n : nat) (b : bzipBuffer.t) :
  bzipBuffer._eof b = false ->
  0 <= bzipBuffer._bzip2outPos b ->
  bzipBuffer._bzip2outPos b + Z.of_nat n < bzipBuffer.avail_out b ->
  bzipBuffer.avail_out b <= 2 ^ 32 ->
  bzipBuffer.next_n fillBuffer n b
  = (replicate n false,
     bzipBuffer.set_pos (bzipBuffer._filePos b + Z.of_nat n)
                        (bzipBuffer._bzip2outPos b + Z.of_nat n) b) /\
  bzipBuffer.tell (bzipBuffer.next_n fillBuffer n b).2
  = bzipBuffer.tell b + Z.of_nat n.
Proof.
  intros He Hp Hn Ha.
  assert (H : bzipBuffer.next_n fillBuffer n b
              = (replicate n false,
                 bzipBuffer.set_pos (bzipBuffer._filePos b + Z.of_nat n)
                                    (bzipBuffer._bzip2outPos b + Z.of_nat n) b)).
  { revert b He Hp Hn Ha. induction n as [|n IH]; intros b He Hp Hn Ha.
    - cbn. rewrite !Z.add_0_r. destruct b; reflexivity.
    - cbn [bzipBuffer.next_n replicate]. unfold bzipBuffer.next. rewrite He.
      rewrite u32_small by (unfold is_u32; lia). cbn.
      destruct (Z.leb_spec (bzipBuffer.avail_out b) (bzipBuffer._bzip2outPos b + 1));
        [lia|].
      rewrite IH; cbn [bzipBuffer._eof bzipBuffer._bzip2outPos
                        bzipBuffer.avail_out bzipBuffer.set_pos
                        bzipBuffer._filePos bzipBuffer._bzip2out];
        [|exact He | lia | lia | lia].
      f_equal; [rewrite He; reflexivity|].
      unfold bzipBuffer.set_pos.
      cbn [bzipBuffer._eof bzipBuffer.avail_out bzipBuffer._bzip2out].
      f_equal; lia. }
  rewrite H. split; [reflexivity|]. reflexivity.
Qed.

Lemma next_inside_window_witness :
  let b := bzipBuffer.mk 100 false 2 7 [1; 2; 3; 4; 5; 6; 7] in
  bzipBuffer.next_n (bzipBuffer.set_pos 0 0) 4 b
  = (replicate 4 false, bzipBuffer.set_pos (100 + 4) (2 + 4) b) /\
  bzipBuffer.tell (bzipBuffer.next_n (bzipBuffer.set_pos 0 0) 4 b).2 = 100 + 4.
Proof.
  intros b.
  apply (next_inside_window (bzipBuffer.set_pos 0 0) 4 b); cbn; try reflexivity; lia.
Defined.

(** ** Flushing *)

(** [writeBuffer] moves words from the buffer to the file and nothing
    else: the words emitted so far are the same before and after, forced or
    not.  A forced flush of a write handle leaves the buffer empty, a flush
    right after a forced one changes nothing, and on a read handle a flush
    does nothing at all. *)
Theorem writeBuffer_flush_properties (force : bool) (f : ovFile) :
  emitted (writeBuffer force f) = emitted f /\
  (_isOutput f = true -> _bufferLen (writeBuffer true f) = 0) /\
  writeBuffer force (writeBuffer true f) = writeBuffer true f /\
  (_isOutput f = false -> writeBuffer force f = f).
Proof.
  split; [apply writeBuffer_emitted|].
  split; [apply writeBuffer_true_len|].
  split.
  - destruct (_isOutput f) eqn:Ho.
    + pose proof (writeBuffer_true_len f Ho) as Hz.
      pose proof (writeBuffer_frame true f) as Hf. cbv zeta in Hf.
      destruct Hf as (_ & _ & _ & Ho' & _).
      unfold writeBuffer at 1. rewrite Ho', Ho, Hz. cbn.
      destruct force; cbn; [reflexivity|].
      destruct (_ <? _); reflexivity.
    + unfold writeBuffer. rewrite Ho. cbn. rewrite Ho. reflexivity.
  - intros Ho. unfold writeBuffer. rewrite Ho. reflexivity.
Qed.

(** ** One record or a batch of one *)

Lemma writeBuffer_set_olapsPerRead force a l c f :
  writeBuffer force (set_olapsPerRead a l c f)
  = set_olapsPerRead a l c (writeBuffer force f).
Proof.
  unfold writeBuffer. cbn.
  destruct (_isOutput f); cbn; [|reflexivity].
  destruct (negb force && (_bufferLen f <? _bufferMax f)); [reflexivity|].
  destruct (_bufferLen f =? 0); reflexivity.
Qed.

(** [writeOverlaps] on a batch of one record is [writeOverlap] on that
    record: the two code paths leave the same handle and fail the same
    way, on every handle. *)
Theorem writeOverlaps_one_is_writeOverlap v o f :
  writeOverlaps v [o] f = writeOverlap v o f.
Proof.
  unfold writeOverlaps, writeOverlap.
  destruct (_isOutput f) eqn:Ho; cbn [assert mbind result_bind]; [|reflexivity].
  pose proof (writeBuffer_frame false f) as Hf. cbv zeta in Hf.
  destruct Hf as (_ & _ & _ & _ & _ & _ & Hcnt & Hal & Hla).
  unfold count_overlap. rewrite Hcnt, Hal, Hla.
  destruct (_olapsPerRead f) as [counts|] eqn:E.
  - change (2 ^ 32 <=? Z.of_nat (length [o])) with false. cbn [scan_batch].
    destruct (grow _ _) as [m|e]; cbn [mbind result_bind]; [|reflexivity].
    destruct (resizeArray _ _ _ _) as [counts1 alloc1].
    cbn [mbind result_bind writeOverlaps_loop].
    rewrite writeBuffer_set_olapsPerRead. cbn [_olapsPerRead set_olapsPerRead].
    destruct (incr (a_iid o) counts1) as [counts2|]; cbn [mbind result_bind];
      [|reflexivity].
    destruct (incr (b_iid o) counts2) as [counts3|]; cbn [mbind result_bind];
      [|reflexivity].
    cbn [_olapsPerReadAlloc _olapsPerReadLast set_olapsPerRead].
    change (set_olapsPerRead alloc1
              (Z.max (Z.max (_olapsPerReadLast f) (a_iid o)) (b_iid o))
              (Some counts3)
              (set_olapsPerRead alloc1
                 (Z.max (Z.max (_olapsPerReadLast f) (a_iid o)) (b_iid o))
                 (Some counts1) (writeBuffer false f)))
      with (set_olapsPerRead alloc1
              (Z.max (Z.max (_olapsPerReadLast f) (a_iid o)) (b_iid o))
              (Some counts3) (writeBuffer false f)).
    destruct (encode_overlap v o _) as [f'|]; reflexivity.
  - cbn [mbind result_bind writeOverlaps_loop]. rewrite Hcnt.
    cbn [mbind result_bind].
    destruct (encode_overlap v o _) as [f'|]; reflexivity.
Qed.

(** ** What a write session leaves *)

(** The files a write session leaves depend on the records only, not on
    how the client grouped them into [writeOverlap] and [writeOverlaps]
    calls. *)
Theorem write_session_grouping v name type bufferSize cs cs' out out' :
  is_u32 bufferSize -> is_write type = true ->
  Forall (wf_overlap v) (written cs) -> written cs = written cs' ->
  write_session v name type bufferSize cs = Ok out ->
  write_session v name type bufferSize cs' = Ok out' ->
  out = out'.
Proof.
  intros Hu Hw Hwf Heq Hs Hs'.
  destruct (write_session_spec v name type bufferSize cs Hu Hw Hwf)
    as [(Hf & _) | Hok]; [congruence|].
  rewrite Heq in Hwf.
  destruct (write_session_spec v name type bufferSize cs' Hu Hw Hwf)
    as [(Hf & _) | Hok']; [congruence|].
  rewrite Heq in Hok. congruence.
Qed.

Lemma write_session_grouping_witness :
  let a := mkOverlap 0 1 [1; 2; 3] in
  let b := mkOverlap 5 5 [4; 5; 6] in
  let c := mkOverlap 1 5 [7; 8; 9] in
  exists out,
    write_session NWORDS3 (mkNamed [] false) ovFileFullWrite 0
      [WriteOne a; WriteBatch [b; c]] = Ok out /\
    write_session NWORDS3 (mkNamed [] false) ovFileFullWrite 0
      [WriteBatch [a; b]; WriteOne c] = Ok out.
Proof.
  intros a b c.
  assert (Hu : is_u32 0) by solve_is_u32.
  assert (Hwf : Forall (wf_overlap NWORDS3) (written [WriteOne a; WriteBatch [b; c]]))
    by solve_wf.
  destruct (write_session_returns NWORDS3 (mkNamed [] false) ovFileFullWrite 0
              [WriteOne a; WriteBatch [b; c]] Hu eq_refl Hwf)
    as (ws & counts & Hs); [right; unfold grow_safe_last; solve_wf|].
  destruct (write_session_returns NWORDS3 (mkNamed [] false) ovFileFullWrite 0
              [WriteBatch [a; b]; WriteOne c] Hu eq_refl Hwf)
    as (ws' & counts' & Hs'); [right; unfold grow_safe_last; solve_wf|].
  exists (ws, counts). split; [exact Hs|].
  rewrite Hs'. f_equal. symmetry.
  exact (write_session_grouping NWORDS3 (mkNamed [] false) ovFileFullWrite 0
           [WriteOne a; WriteBatch [b; c]] [WriteBatch [a; b]; WriteOne c]
           _ _ Hu eq_refl Hwf eq_refl Hs Hs').
Defined.



(** A write handle without a count index ([ovFileNormalWrite],
    [ovFileFullWriteNoCounts]) never fails: every write session returns,
    for any records and any grouping into calls. *)
Theorem write_session_without_counts_total v name type bufferSize cs :
  is_u32 bufferSize -> is_write type = true -> type <> ovFileFullWrite ->
  Forall (wf_overlap v) (written cs) ->
  write_session v name type bufferSize cs
  = Ok (wire_all v (is_normal type) (written cs), None).
Proof.
  intros Hu Hw Hne Hwf.
  destruct (write_session_spec v name type bufferSize cs Hu Hw Hwf)
    as [(_ & Ht & _) | Hok]; [contradiction|].
  rewrite Hok. destruct type; try reflexivity. contradiction.
Qed.

Lemma write_session_without_counts_total_witness :
  let cs := [WriteOne (mkOverlap (2 ^ 32 - 1) 2 [1; 2; 3; 4; 5])] in
  write_session NWORDS5 (mkNamed [] false) ovFileFullWriteNoCounts 0 cs
  = Ok (wire_all NWORDS5 false (written cs), None).
Proof.
  intros cs.
  apply (write_session_without_counts_total NWORDS5 (mkNamed [] false)
           ovFileFullWriteNoCounts 0 cs);
    [solve_is_u32 | reflexivity | discriminate | solve_wf].
Defined.

(** ** The largest identifier *)

(** On a handle with a count index, a record with the identifier
    [2 ^ 32 - 1] makes the growth loop [while (newmax <= newlast)] run
    forever: no [uint32] capacity exceeds that identifier, so
    [writeOverlap] does not return. *)
Theorem writeOverlap_largest_identifier_diverges v f o :
  reachable v f -> _isOutput f = true -> _olapsPerRead f <> None ->
  wf_overlap v o -> a_iid o = 2 ^ 32 - 1 \/ b_iid o = 2 ^ 32 - 1 ->
  writeOverlap v o f = Fault LoopDiverges.
Proof.
  intros Hr Ho Hne (Ha & Hb & _) Hid.
  destruct (reachable_inv v f Hr) as [(_ & rs & Hok) | (Ho' & _)]; [|congruence].
  destruct Hok as (_ & _ & _ & _ & Hc & _).
  unfold writeOverlap. rewrite Ho. cbn [assert mbind result_bind].
  pose proof (writeBuffer_frame false f) as Hf. cbv zeta in Hf.
  destruct Hf as (_ & _ & _ & _ & _ & _ & Hcnt & Hal & Hla).
  unfold count_overlap. rewrite Hcnt, Hal, Hla.
  unfold counts_ok in Hc.
  destruct (_olapsPerRead f) as [counts|]; [|contradiction].
  destruct Hc as (_ & Halloc & Hl & _).
  unfold is_u32 in Ha, Hb.
  replace (Z.max (Z.max (_olapsPerReadLast f) (a_iid o)) (b_iid o))
    with (2 ^ 32 - 1) by lia.
  rewrite grow_diverges by (unfold is_u32; lia). reflexivity.
Qed.

Lemma writeOverlap_largest_identifier_diverges_witness :
  exists f,
    ovFile_ctor NWORDS3 (mkNamed [] false) ovFileFullWrite 0 = Ok f /\
    writeOverlap NWORDS3 (mkOverlap 3 (2 ^ 32 - 1) [1; 2; 3]) f
    = Fault LoopDiverges.
Proof.
  assert (Hu : is_u32 0) by solve_is_u32.
  destruct (ovFile_ctor_writer NWORDS3 (mkNamed [] false) ovFileFullWrite 0
              Hu eq_refl) as (f & Hc & Hok & _ & _ & _ & _ & Hcnt).
  exists f. split; [exact Hc|].
  apply writeOverlap_largest_identifier_diverges.
  - eapply reach_ctor; eassumption.
  - exact (proj1 Hok).
  - rewrite Hcnt. discriminate.
  - solve_wf.
  - right. reflexivity.
Defined.

(** ** Roles *)

Lemma reachable_writer_not_seekable v f :
  reachable v f -> _isOutput f = true -> _isSeekable f = false.
Proof.
  induction 1 as [name type bufferSize f Hu Hc
                 | f o f' Hr IH Hwf Hw
                 | f os f' Hr IH Hwf Hw
                 | f o b o' f' Hr IH Hrd
                 | f os os' n f' Hr IH Hrd
                 | f k f' Hr IH Hs]; intros Ho.
  - destruct (ovFile_ctor_ok v name type bufferSize Hu)
      as (g & Hg & _ & _ & _ & _ & Hout & _ & Hseek & _).
    rewrite Hg in Hc. injection Hc as <-.
    rewrite Hseek. rewrite Hout in Ho. rewrite Ho. reflexivity.
  - destruct (reachable_inv v f Hr) as [(Hof & rs & Hok) | (Hof & _)].
    + destruct (writeOverlap_spec v rs o f Hok Hwf)
        as [(Hf & _) | (g & Hg & _ & _ & Hs & _)]; [congruence|].
      rewrite Hg in Hw. injection Hw as <-. rewrite Hs. auto.
    + unfold writeOverlap in Hw. rewrite Hof in Hw. discriminate.
  - destruct (reachable_inv v f Hr) as [(Hof & rs & Hok) | (Hof & _)].
    + destruct (writeOverlaps_spec v rs os f Hok Hwf)
        as [(Hf & _) | (g & Hg & _ & _ & Hs & _)]; [congruence|].
      rewrite Hg in Hw. injection Hw as <-. rewrite Hs. auto.
    + unfold writeOverlaps in Hw. rewrite Hof in Hw. discriminate.
  - assert (Hr' : reachable v f') by (eapply reach_readOverlap; eassumption).
    destruct (reachable_inv v f Hr) as [(Hof & _) | _].
    + unfold readOverlap in Hrd. rewrite Hof in Hrd. discriminate.
    + destruct (reachable_inv v f' Hr') as [(_ & rs & Hok) | (Hof' & _)];
        [|congruence].
      exfalso.
      destruct (reachable_inv v f Hr) as [(Hof & _) | Hokf].
      * unfold readOverlap in Hrd. rewrite Hof in Hrd. discriminate.
      * destruct (readOverlap_cases v o f Hokf)
          as [(_ & Hg & (Hog & _) & _) | [(_ & _ & Hg & (Hog & _) & _) | (_ & Hg)]];
          rewrite Hg in Hrd; [| |discriminate];
          injection Hrd as _ _ <-; congruence.
  - exfalso.
    destruct (reachable_inv v f Hr) as [(Hof & _) | Hokf].
    + unfold readOverlaps in Hrd. rewrite Hof in Hrd. discriminate.
    + pose proof Hokf as (Hof & _).
      unfold readOverlaps in Hrd. rewrite Hof in Hrd.
      cbn [negb assert mbind result_bind] in Hrd.
      destruct (readOverlaps_loop_reader v os f Hokf)
        as [(os1 & n1 & f1 & Hg & (Hog & _) & _) | Hg];
        rewrite Hg in Hrd; [|discriminate].
      injection Hrd as _ _ <-. congruence.
  - destruct (seekOverlap_cases v k f)
      as [(_ & Hg) | [(_ & _ & Hg) | (Hsk & _ & Hg)]];
      rewrite Hg in Hs; try discriminate.
    injection Hs as <-. cbn in Ho |- *. rewrite (IH Ho) in Hsk. discriminate.
Qed.

(** A handle is either for writing or for reading, for good: on a write
    handle the read calls fail their assertion and [seekOverlap] exits (a
    write handle is never seekable), on a read handle the write calls fail
    their assertion. *)
Theorem calls_of_the_other_role_abort v f :
  reachable v f ->
  if _isOutput f
  then (forall o, readOverlap v o f = Fault AssertionFailure) /\
       (forall os, readOverlaps v os f = Fault AssertionFailure) /\
       (forall k, seekOverlap v k f = Fault ExitFailure)
  else (forall o, writeOverlap v o f = Fault AssertionFailure) /\
       (forall os, writeOverlaps v os f = Fault AssertionFailure).
Proof.
  intros Hr. destruct (_isOutput f) eqn:Ho.
  - split; [intros o; unfold readOverlap; rewrite Ho; reflexivity|].
    split; [intros os; unfold readOverlaps; rewrite Ho; reflexivity|].
    intros k. unfold seekOverlap.
    rewrite (reachable_writer_not_seekable v f Hr Ho). reflexivity.
  - split; [intros o; unfold writeOverlap; rewrite Ho; reflexivity|].
    intros os; unfold writeOverlaps; rewrite Ho; reflexivity.
Qed.

Lemma calls_of_the_other_role_abort_witness :
  exists f,
    ovFile_ctor NWORDS3 (mkNamed [] false) ovFileNormalWrite 0 = Ok f /\
    (forall o, readOverlap NWORDS3 o f = Fault AssertionFailure) /\
    (forall os, readOverlaps NWORDS3 os f = Fault AssertionFailure) /\
    (forall k, seekOverlap NWORDS3 k f = Fault ExitFailure).
Proof.
  assert (Hu : is_u32 0) by solve_is_u32.
  destruct (ovFile_ctor_writer NWORDS3 (mkNamed [] false) ovFileNormalWrite 0
              Hu eq_refl) as (f & Hc & Hok & _).
  exists f. split; [exact Hc|].
  assert (Hr : reachable NWORDS3 f) by (eapply reach_ctor; eassumption).
  pose proof (calls_of_the_other_role_abort NWORDS3 f Hr) as H.
  rewrite (proj1 Hok) in H. exact H.
Defined.

(** ** Reading less, or more, than the file holds *)

(** [readOverlaps] fills the caller's array with as many records as the
    array or the file has, returns that number, and leaves the entries
    beyond it as they were: a short count, never a failure, when the file
    has fewer records than the array. *)
Theorem readOverlaps_fills_what_fits v type bufferSize rs ds :
  is_u32 bufferSize -> is_write type = false ->
  Forall (wf_overlap v) rs ->
  Forall (fun d => length (dat d) = ovOverlapNWORDS v) ds ->
  exists ds',
    read_session v (wire_all v (is_normal type) rs) type bufferSize ds
    = Ok (ds', Z.of_nat (Nat.min (length ds) (length rs))) /\
    length ds' = length ds /\
    (forall i d r, ds !! i = Some d -> rs !! i = Some r ->
                   ds' !! i = Some (merge (is_normal type) d r)) /\
    (forall i, (length rs <= i)%nat -> ds' !! i = ds !! i).
Proof.
  intros Hu Hw Hwf Hds.
  exists (merge_all (is_normal type) ds rs).
  split; [apply read_session_spec; assumption|].
  split; [apply length_merge_all|].
  unfold merge_all. split.
  - intros i d r Hd Hr.
    rewrite lookup_app_l
      by (rewrite length_zip_with; apply lookup_lt_Some in Hd, Hr; lia).
    rewrite lookup_zip_with, Hd, Hr. reflexivity.
  - intros i Hi.
    destruct (Nat.le_ge_cases (length ds) (length rs)) as [Hle|Hge].
    + rewrite drop_ge, app_nil_r by lia.
      rewrite !lookup_ge_None_2; [reflexivity | lia |].
      rewrite length_zip_with. lia.
    + rewrite lookup_app_r by (rewrite length_zip_with; lia).
      rewrite length_zip_with, Nat.min_r by lia.
      rewrite lookup_drop. f_equal. lia.
Qed.

Lemma readOverlaps_fills_what_fits_witness :
  let r := mkOverlap 7 9 [2 ^ 63 + 5; 3; 2 ^ 40] in
  let d := mkOverlap 0 0 [0; 0; 0] in
  exists ds',
    read_session NWORDS3 (wire_all NWORDS3 false [r]) ovFileFull 0 [d; d]
    = Ok (ds', 1) /\
    length ds' = 2%nat /\
    (forall i d0 r0, [d; d] !! i = Some d0 -> [r] !! i = Some r0 ->
                     ds' !! i = Some (merge false d0 r0)) /\
    (forall i, (1 <= i)%nat -> ds' !! i = [d; d] !! i).
Proof.
  intros r d.
  apply (readOverlaps_fills_what_fits NWORDS3 ovFileFull 0 [r] [d; d]);
    [solve_is_u32 | reflexivity | solve_wf | solve_wf].
Defined.

(** A second [readOverlaps] on the same handle goes on where the first
    one stopped, whatever the sizes of the two arrays and of the buffer. *)
Theorem readOverlaps_resumes v type bufferSize rs ds1 ds2 :
  is_u32 bufferSize -> is_write type = false ->
  Forall (wf_overlap v) rs ->
  Forall (fun d => length (dat d) = ovOverlapNWORDS v) ds1 ->
  Forall (fun d => length (dat d) = ovOverlapNWORDS v) ds2 ->
  (f ← ovFile_ctor v (mkNamed (wire_all v (is_normal type) rs) false)
         type bufferSize;
   '(ds1', n1, f) ← readOverlaps v ds1 f;
   '(ds2', n2, f) ← readOverlaps v ds2 f;
   Ok (ds1', n1, ds2', n2))
  = Ok (merge_all (is_normal type) ds1 rs,
        Z.of_nat (Nat.min (length ds1) (length rs)),
        merge_all (is_normal type) ds2 (drop (length ds1) rs),
        Z.of_nat (Nat.min (length ds2) (length rs - length ds1))).
Proof.
  intros Hu Hw Hwf Hds1 Hds2.
  destruct (ovFile_ctor_reader v (mkNamed (wire_all v (is_normal type) rs) false)
              type bufferSize Hu Hw)
    as (f & -> & Hok & Hun & Hs & Hn & _ & _ & _).
  cbn [mbind result_bind]. cbn [n_words] in *.
  assert (Hs0 : stream_ok v f)
    by (apply Hs; rewrite length_wire_all; apply Z.divide_factor_r).
  rewrite <- Hn in Hun |- *.
  unfold readOverlaps. rewrite (proj1 Hok).
  cbn [negb assert mbind result_bind].
  destruct (readOverlaps_loop_spec v ds1 rs f Hok Hs0 Hun Hwf Hds1)
    as (f1 & -> & Hok1 & Hs1 & Hun1 & Hn1 & _).
  cbn [mbind result_bind]. rewrite (proj1 Hok1).
  cbn [negb assert mbind result_bind].
  rewrite <- Hn1 in Hun1.
  destruct (readOverlaps_loop_spec v ds2 (drop (length ds1) rs) f1 Hok1 Hs1 Hun1)
    as (f2 & -> & _); [apply Forall_drop; exact Hwf | exact Hds2|].
  cbn [mbind result_bind]. rewrite Hn1, length_drop. reflexivity.
Qed.

Lemma readOverlaps_resumes_witness :
  let r0 := mkOverlap 7 9 [1; 2; 3; 4; 5] in
  let r1 := mkOverlap 1 5 [6; 7; 8; 9; 10] in
  let d := mkOverlap 0 0 [0; 0; 0; 0; 0] in
  (f ← ovFile_ctor NWORDS5 (mkNamed (wire_all NWORDS5 false [r0; r1]) false)
         ovFileFull 0;
   '(ds1', n1, f) ← readOverlaps NWORDS5 [d] f;
   '(ds2', n2, f) ← readOverlaps NWORDS5 [d; d] f;
   Ok (ds1', n1, ds2', n2))
  = Ok ([r0], 1, [r1; d], 1).
Proof.
  intros r0 r1 d.
  exact (readOverlaps_resumes NWORDS5 ovFileFull 0 [r0; r1] [d] [d; d]
           ltac:(solve_is_u32) eq_refl ltac:(solve_wf) ltac:(solve_wf)
           ltac:(solve_wf)).
Defined.

(** ** A file that ends inside a record *)

(** When fewer words than one record are left to read, the read does not
    deliver a partial record: it fails the assertion
    [_bufferPos <= _bufferLen]. *)
Theorem read_of_truncated_record_aborts v f o os :
  reachable v f -> _isOutput f = false ->
  0 < Z.of_nat (length (unread f)) < record_words v (_isNormal f) ->
  readOverlap v o f = Fault AssertionFailure /\
  readOverlaps v (o :: os) f = Fault AssertionFailure.
Proof.
  intros Hr Ho Hlen.
  destruct (reachable_inv v f Hr) as [(Ho' & _) | Hok]; [congruence|].
  assert (H : readOverlap v o f = Fault AssertionFailure).
  { destruct (readOverlap_cases v o f Hok)
      as [(Hun & _) | [(_ & Hw & _) | (_ & Hg)]].
    - rewrite Hun in Hlen. cbn in Hlen. lia.
    - lia.
    - exact Hg. }
  split; [exact H|].
  unfold readOverlaps. rewrite Ho. cbn [negb assert mbind result_bind].
  rewrite (readOverlaps_loop_cons v o os f Ho), H. reflexivity.
Qed.

Lemma read_of_truncated_record_aborts_witness :
  let o := mkOverlap 0 0 [0; 0; 0] in
  exists f,
    ovFile_ctor NWORDS3 (mkNamed [7; 9; 0] false) ovFileFull 0 = Ok f /\
    readOverlap NWORDS3 o f = Fault AssertionFailure /\
    readOverlaps NWORDS3 [o; o] f = Fault AssertionFailure.
Proof.
  intros o.
  assert (Hu : is_u32 0) by solve_is_u32.
  destruct (ovFile_ctor_reader NWORDS3 (mkNamed [7; 9; 0] false) ovFileFull 0
              Hu eq_refl) as (f & Hc & Hok & Hun & _ & Hn & _).
  exists f. split; [exact Hc|].
  apply read_of_truncated_record_aborts.
  - eapply reach_ctor; eassumption.
  - exact (proj1 Hok).
  - rewrite Hun, Hn. cbn [n_words length is_normal].
    unfold record_words, payload_wire_words. lia.
Defined.

(** ** Seeking past the last record *)



(** ** Reading bytes off the decode window *)

(** Before the end of the stream, [n] calls of [getnext] that stay inside
    the decode window return its next [n] bytes in order and leave the
    stream [n] bytes further, without a refill. *)
Theorem getnext_streams_the_window fillBuffer (n : nat) (b : bzipBuffer.t) :
  bzipBuffer._eof b = false ->
  0 <= bzipBuffer._bzip2outPos b ->
  bzipBuffer._bzip2outPos b + Z.of_nat n < bzipBuffer.avail_out b ->
  bzipBuffer.avail_out b <= 2 ^ 32 ->
  bzipBuffer._bzip2outPos b + Z.of_nat n
    <= Z.of_nat (length (bzipBuffer._bzip2out b)) ->
  bzipBuffer.getnext_n fillBuffer n b
  = Ok (take n (drop (Z.to_nat (bzipBuffer._bzip2outPos b))
                     (bzipBuffer._bzip2out b)),
        bzipBuffer.set_pos (bzipBuffer._filePos b + Z.of_nat n)
                           (bzipBuffer._bzip2outPos b + Z.of_nat n) b).
Proof.
  revert b. induction n as [|n IH]; intros b He Hp Hn Ha Hw.
  - cbn. rewrite take_0, !Z.add_0_r. destruct b; reflexivity.
  - cbn [bzipBuffer.getnext_n]. unfold bzipBuffer.getnext, bzipBuffer.get.
    destruct (lookup_lt_is_Some_2 (bzipBuffer._bzip2out b)
                (Z.to_nat (bzipBuffer._bzip2outPos b))) as [x Hx]; [lia|].
    rewrite Hx. cbn [mbind result_bind].
    unfold bzipBuffer.next. rewrite He.
    rewrite u32_small by (unfold is_u32; lia).
    cbn [bzipBuffer._eof bzipBuffer._bzip2outPos bzipBuffer.avail_out
         bzipBuffer.set_pos bzipBuffer._filePos bzipBuffer._bzip2out].
    destruct (Z.leb_spec (bzipBuffer.avail_out b) (bzipBuffer._bzip2outPos b + 1));
      [lia|].
    cbn [snd].
    rewrite IH;
      cbn [bzipBuffer._eof bzipBuffer._bzip2outPos bzipBuffer.avail_out
           bzipBuffer.set_pos bzipBuffer._filePos bzipBuffer._bzip2out];
      [|exact He | lia | lia | lia | lia].
    cbn [mbind result_bind]. f_equal. f_equal.
    + rewrite (drop_S _ _ _ Hx). cbn [take]. do 2 f_equal.
      f_equal. lia.
    + unfold bzipBuffer.set_pos.
      cbn [bzipBuffer._eof bzipBuffer.avail_out bzipBuffer._bzip2out].
      f_equal; lia.
Qed.

Lemma getnext_streams_the_window_witness :
  let b := bzipBuffer.mk 100 false 2 7 [10; 20; 30; 40; 50; 60; 70] in
  bzipBuffer.getnext_n (bzipBuffer.set_pos 0 0) 3 b
  = Ok ([30; 40; 50], bzipBuffer.set_pos (100 + 3) (2 + 3) b).
Proof.
  intros b.
  apply (getnext_streams_the_window (bzipBuffer.set_pos 0 0) 3 b);
    cbn; try reflexivity; lia.
Defined.
